(** * VehicleDataRecorder: a shallow embedding of src/services/VehicleDataRecorder.ts

    The recorder accumulates raw CAN frames and sampled snapshots, follows a
    six-state status machine driven by frame arrivals and two timers, and
    exports the buffers (CSV, trace file, archive) on [finalize].

    Layout of the development:
    - [Js]        the fragment of JavaScript values and string methods the class uses;
    - [Frames]    [RawFrame], [normalizeRawFrame] and [generateTRC];
    - [Recorder]  the object's fields together with the host state (timers,
                  listener invocations, file-system requests, finalize calls in flight),
                  the methods as state transformers, and the event-level step function;
    - the theorems, grouped by the operation they concern. *)

From Stdlib Require Import ZArith NArith Bool List String Ascii Lia.
From Stdlib Require DecimalString HexadecimalString DecimalN HexadecimalN HexadecimalFacts.
Import ListNotations.
Local Open Scope string_scope.
Local Open Scope Z_scope.
Set Warnings "-register-all".

(* ------------------------------------------------------------------------- *)
(** ** JavaScript values and string methods *)
(* ------------------------------------------------------------------------- *)

Module Js.

(** Values a caller can hand to the recorder ([frame: RawFrame | any]).

    Numbers: [JNum z] is the number whose value is the integer [z]; every
    integer of magnitude up to 2^53 is one.  Numbers with a fractional part,
    NaN and the infinities have no counterpart here, so nothing below speaks
    about a frame that carries one (the code prints them as well: an [id] of
    1.5 becomes the text 1.8).

    Strings: a string is a sequence of UTF-16 code units; the ones written
    here have all their units below 256.  Lengths and concatenation are
    those of the code for all of them; case conversion is the code's on ASCII
    text only (see [toUpperCase]). *)
Inductive JsVal : Type :=
| JUndefined
| JNull
| JBool (b : bool)
| JNum (z : Z)
| JStr (s : string)
| JArr (elems : list JsVal)
| JObj (fields : list (string * JsVal)).

(** [!v] is false exactly on the truthy values. *)
Definition truthy (v : JsVal) : bool :=
  match v with
  | JUndefined | JNull => false
  | JBool b => b
  | JNum z => negb (z =? 0)
  | JStr s => negb (String.eqb s "")
  | JArr _ | JObj _ => true
  end.

Fixpoint assoc (k : string) (fields : list (string * JsVal)) : option JsVal :=
  match fields with
  | [] => None
  | (k', v) :: rest => if String.eqb k k' then Some v else assoc k rest
  end.

(** [v.k] for the property names the recorder reads ([timeOffsetMs], [type],
    [id], [bytes]): an own property of an object, [undefined] on anything else. *)
Definition get (v : JsVal) (k : string) : JsVal :=
  match v with
  | JObj fields => match assoc k fields with Some x => x | None => JUndefined end
  | _ => JUndefined
  end.

(** *** Strings *)

Fixpoint replicate (n : nat) (c : ascii) : string :=
  match n with
  | O => EmptyString
  | S n' => String c (replicate n' c)
  end.

(** [s.padStart(n, c)] and [s.padEnd(n, c)] for a one-character filler. *)
Definition padStart (n : nat) (c : ascii) (s : string) : string :=
  replicate (n - String.length s) c ++ s.

Definition padEnd (n : nat) (c : ascii) (s : string) : string :=
  s ++ replicate (n - String.length s) c.

(** [s.toUpperCase()] on ASCII text: the letters a-z become A-Z, everything
    else stays.  The method of the code also converts letters outside ASCII,
    some of them into longer text; the statements that depend on what
    [toUpperCase] returns are made for ASCII text. *)
Definition upper_char (c : ascii) : ascii :=
  let n := N_of_ascii c in
  if ((97 <=? n) && (n <=? 122))%N then ascii_of_N (n - 32) else c.

Fixpoint toUpperCase (s : string) : string :=
  match s with
  | EmptyString => EmptyString
  | String c rest => String (upper_char c) (toUpperCase rest)
  end.

(** [xs.join(sep)] on an array of strings. *)
Fixpoint join (sep : string) (xs : list string) : string :=
  match xs with
  | [] => ""
  | [x] => x
  | x :: rest => x ++ sep ++ join sep rest
  end.

(** *** Numbers to strings *)

Definition dec_of_N (n : N) : string :=
  DecimalString.NilZero.string_of_uint (N.to_uint n).

Definition hex_of_N (n : N) : string :=
  HexadecimalString.NilZero.string_of_uint (N.to_hex_uint n).

Definition sign_prefix (z : Z) : string := if z <? 0 then "-" else "".

(** [String(z)], [z.toString()] for an integer below 10^21 in magnitude
    (from there on the code switches to exponent notation). *)
Definition toString10 (z : Z) : string :=
  sign_prefix z ++ dec_of_N (Z.abs_N z).

(** [z.toString(16)] for an integer: lower-case digits, a minus sign for
    negatives. *)
Definition toString16 (z : Z) : string :=
  sign_prefix z ++ hex_of_N (Z.abs_N z).

(** [(ms / 1000).toFixed(3)] for an integer [ms] of magnitude below 2^52.
    The quotient is the double nearest to [ms / 1000], off by at most one
    part in 2^53; a thousand times it is therefore less than one half away
    from [ms], and [toFixed(3)], which picks the integer number of
    thousandths nearest to the double, picks [ms].  It prints that integer
    with the point three digits from the right, a negative value with its
    sign in front of the digits of [-ms].  From 2^52 on the rounding of the
    division can show in the third decimal, so the definition is the code's
    only below that bound; the statements about the time column carry it. *)
Definition div1000_toFixed3 (ms : Z) : string :=
  sign_prefix ms
  ++ dec_of_N (Z.abs_N ms / 1000) ++ "."
  ++ padStart 3 "0" (dec_of_N (Z.abs_N ms mod 1000)).

End Js.

(* ------------------------------------------------------------------------- *)
(** ** Raw frames: normalisation and the trace file *)
(* ------------------------------------------------------------------------- *)

Module Frames.
Import Js.

(** [string | number], the type of [RawFrame.id] and of the entries of
    [RawFrame.bytes]. *)
Inductive NumOrStr : Type :=
| Num (z : Z)
| Str (s : string).

(** [export type RawFrame]: every field is optional. *)
Record RawFrame : Type := mkRawFrame {
  timeOffsetMs : option Z;
  id : option NumOrStr;
  bytes : option (list NumOrStr);
  type : option string;
}.

(** The callback of [frame.bytes.map]. *)
Definition normalizeByte (b : JsVal) : NumOrStr :=
  match b with
  | JNum z => Str (padStart 2 "0" (toUpperCase (toString16 z)))
  | JStr s => Str (padStart 2 "0" (toUpperCase s))
  | _ => Str "00"
  end.

Definition normalizeRawFrame (frame : JsVal) : option RawFrame :=
  if negb (truthy frame) then None
  else
    Some {|
      timeOffsetMs :=
        Some (match get frame "timeOffsetMs" with JNum z => z | _ => 0 end);
      type :=
        Some (match get frame "type" with JStr s => s | _ => "Rx" end);
      id :=
        Some (match get frame "id" with
              | JNum z => Str (toUpperCase (toString16 z))
              | JStr s => Str s
              | _ => Str "00000000"
              end);
      bytes :=
        Some (match get frame "bytes" with
              | JArr bs => map normalizeByte bs
              | _ => []
              end);
    |}.

(** The normal forms: what the raw-frame buffer is filled with. *)
Definition normalized (nf : RawFrame) : Prop :=
  exists frame, normalizeRawFrame frame = Some nf.

(** [String(x)] on a [string | number]. *)
Definition toStr (x : NumOrStr) : string :=
  match x with
  | Num z => toString10 z
  | Str s => s
  end.

Definition header : string :=
  join (String "010" "")
    [ "; Generated by React Native CAN Logger";
      "; Message Number | Time Offset (s) | Type | CAN ID (hex) | DLC | Data Bytes (hex)";
      "" ].

(** The columns of one data line, named as the constants of the callback of
    [frames.map] in [generateTRC]. *)
Definition trc_msgNum (i : nat) : string :=
  padEnd 5 " " (dec_of_N (N.of_nat i + 1) ++ ")").

(** [Number(f.timeOffsetMs || 0) / 1000] then [toFixed(3).padStart(8)]. *)
Definition trc_timestamp (f : RawFrame) : string :=
  padStart 8 " "
    (div1000_toFixed3 (match timeOffsetMs f with Some z => z | None => 0 end)).

(** [(f.type || "Rx").toString().padStart(3)]: the empty string is falsy. *)
Definition trc_frameType (f : RawFrame) : string :=
  padStart 3 " "
    (match type f with
     | Some s => if String.eqb s "" then "Rx" else s
     | None => "Rx"
     end).

(** [(typeof f.id === "string" ? f.id : String(f.id || "")).toUpperCase().padStart(8, "0")] *)
Definition trc_canId (f : RawFrame) : string :=
  padStart 8 "0"
    (toUpperCase
       (match id f with
        | Some (Str s) => s
        | Some (Num z) => if z =? 0 then "" else toString10 z
        | None => ""
        end)).

(** [String(f.bytes?.length ?? 0).padStart(2)] *)
Definition trc_dlc (f : RawFrame) : string :=
  padStart 2 " "
    (dec_of_N (match bytes f with
               | Some bs => N.of_nat (List.length bs)
               | None => 0%N
               end)).

(** [(f.bytes || []).join(" ").padEnd(23)] *)
Definition trc_data (f : RawFrame) : string :=
  padEnd 23 " "
    (join " " (map toStr (match bytes f with Some bs => bs | None => [] end))).

Definition trcLine (i : nat) (f : RawFrame) : string :=
  trc_msgNum i ++ trc_timestamp f ++ " " ++ trc_frameType f ++ "  " ++ trc_canId f
  ++ " " ++ trc_dlc f ++ " " ++ trc_data f.

(** [frames.map((f, i) => ...)], the index counted from [i]. *)
Fixpoint trcBody (i : nat) (frames : list RawFrame) : list string :=
  match frames with
  | [] => []
  | f :: rest => trcLine i f :: trcBody (S i) rest
  end.

Definition generateTRC (frames : list RawFrame) : string :=
  header ++ String "010" "" ++ join (String "010" "") (trcBody 0 frames).

End Frames.


(* ------------------------------------------------------------------------- *)
(** ** The recorder *)
(* ------------------------------------------------------------------------- *)

Module Recorder.
Import Js Frames.

Inductive RecorderStatus : Type :=
| idle | arming | recording | finalizing | ready | error.

Definition status_eqb (a b : RecorderStatus) : bool :=
  match a, b with
  | idle, idle | arming, arming | recording, recording
  | finalizing, finalizing | ready, ready | error, error => true
  | _, _ => false
  end.

Definition INACTIVITY_MS : Z := 2000.
Definition CSV_SAMPLE_MS : Z := 1000.
Definition MAX_RAW_FRAMES : Z := 500000.
Definition MAX_SNAPSHOTS : Z := 100000.

(** [export type Snapshot]. *)
Record Snapshot : Type := mkSnapshot {
  timestamp : string;
  soc : NumOrStr;
  batteryCurrent : NumOrStr;
  minCellVoltage : NumOrStr;
  maxCellVoltage : NumOrStr;
  maxCellTemp : NumOrStr;
  minCellTemp : NumOrStr;
  availableEnergy : NumOrStr;
  driveCurrentLimit : NumOrStr;
  regenCurrentLimit : NumOrStr;
  controllerTemperature : NumOrStr;
  motorTemperature : NumOrStr;
  rmsCurrent : NumOrStr;
  throttle : NumOrStr;
  brake : NumOrStr;
  speed : NumOrStr;
  motorRPM : NumOrStr;
  capacitorVoltage : NumOrStr;
  odometer : NumOrStr;
  controllerFaults : string;
}.

(** *** The host: timers, listeners, the file system *)

(** Handles returned by [setInterval] and [setTimeout], and the identity of a
    subscribed callback. *)
Definition TimerId : Type := nat.
Definition Listener : Type := nat.

(** The asynchronous operations [finalize] awaits. *)
Inductive IORequest : Type :=
| Mkdir (folder : string)
| WriteFile (path content : string)
| Zip (folder zipOut : string).

(** How an awaited operation settles: fulfilled with a value (the archive's
    path for [zip], unused for the others) or rejected with a reason. *)
Inductive IOResult : Type :=
| IOOk (v : string)
| IOErr (e : string).

(** The [await] at which a call of [finalize] is suspended; [trcStr] is the
    local constant still to be written once [data.csv] is on disk. *)
Inductive AwaitPoint : Type :=
| AwaitMkdir
| AwaitWriteCsv (trcStr : string)
| AwaitWriteTrc
| AwaitZip.

(** A call of [finalize] in flight: its local constants and where it waits. *)
Record Task : Type := mkTask {
  folder : string;
  csv : string;
  trc : string;
  zipOut : string;
  waiting : AwaitPoint;
}.

(** What a listener can read back when it is invoked: [getStatus()],
    [getStats()] and the four public path fields. *)
Record Observation : Type := mkObservation {
  seen_status : RecorderStatus;
  seen_stats : Z * Z;
  seen_paths : list (option string);
}.

(** The fields of the [VehicleDataRecorder] instance ([status] to
    [listeners]) followed by the state of the host it runs in: the next
    timer handle, the running intervals, the pending timeouts, the listener
    invocations so far (oldest first, each with what the listener could
    observe at that moment), the file-system requests issued so far and the
    calls of [finalize] suspended at an [await]. *)
Record World : Type := mkWorld {
  status : RecorderStatus;
  rawFrames : list RawFrame;
  snapshots : list Snapshot;
  framesSeen : Z;
  inactivityTimer : option TimerId;
  samplerTimer : option TimerId;
  lastFolderPath : option string;
  lastCsvPath : option string;
  lastTrcPath : option string;
  lastZipPath : option string;
  latestDecoded : JsVal;
  listeners : list Listener;
  nextTimer : TimerId;
  intervals : list TimerId;
  timeouts : list TimerId;
  calls : list (Listener * Observation);
  ioLog : list IORequest;
  tasks : list Task;
}.

(** [const recorder = new VehicleDataRecorder()] in a fresh host. *)
Definition init : World :=
  {| status := idle; rawFrames := []; snapshots := []; framesSeen := 0;
     inactivityTimer := None; samplerTimer := None;
     lastFolderPath := None; lastCsvPath := None; lastTrcPath := None;
     lastZipPath := None; latestDecoded := JObj []; listeners := [];
     nextTimer := 1%nat; intervals := []; timeouts := []; calls := [];
     ioLog := []; tasks := [] |}.

(** Field assignments. *)
Definition set_status (v : RecorderStatus) (w : World) : World :=
  {| status := v; rawFrames := rawFrames w; snapshots := snapshots w;
     framesSeen := framesSeen w; inactivityTimer := inactivityTimer w;
     samplerTimer := samplerTimer w; lastFolderPath := lastFolderPath w;
     lastCsvPath := lastCsvPath w; lastTrcPath := lastTrcPath w;
     lastZipPath := lastZipPath w; latestDecoded := latestDecoded w;
     listeners := listeners w; nextTimer := nextTimer w; intervals := intervals w;
     timeouts := timeouts w; calls := calls w; ioLog := ioLog w; tasks := tasks w |}.

Definition set_rawFrames (v : list RawFrame) (w : World) : World :=
  {| status := status w; rawFrames := v; snapshots := snapshots w;
     framesSeen := framesSeen w; inactivityTimer := inactivityTimer w;
     samplerTimer := samplerTimer w; lastFolderPath := lastFolderPath w;
     lastCsvPath := lastCsvPath w; lastTrcPath := lastTrcPath w;
     lastZipPath := lastZipPath w; latestDecoded := latestDecoded w;
     listeners := listeners w; nextTimer := nextTimer w; intervals := intervals w;
     timeouts := timeouts w; calls := calls w; ioLog := ioLog w; tasks := tasks w |}.

Definition set_snapshots (v : list Snapshot) (w : World) : World :=
  {| status := status w; rawFrames := rawFrames w; snapshots := v;
     framesSeen := framesSeen w; inactivityTimer := inactivityTimer w;
     samplerTimer := samplerTimer w; lastFolderPath := lastFolderPath w;
     lastCsvPath := lastCsvPath w; lastTrcPath := lastTrcPath w;
     lastZipPath := lastZipPath w; latestDecoded := latestDecoded w;
     listeners := listeners w; nextTimer := nextTimer w; intervals := intervals w;
     timeouts := timeouts w; calls := calls w; ioLog := ioLog w; tasks := tasks w |}.

Definition set_framesSeen (v : Z) (w : World) : World :=
  {| status := status w; rawFrames := rawFrames w; snapshots := snapshots w;
     framesSeen := v; inactivityTimer := inactivityTimer w;
     samplerTimer := samplerTimer w; lastFolderPath := lastFolderPath w;
     lastCsvPath := lastCsvPath w; lastTrcPath := lastTrcPath w;
     lastZipPath := lastZipPath w; latestDecoded := latestDecoded w;
     listeners := listeners w; nextTimer := nextTimer w; intervals := intervals w;
     timeouts := timeouts w; calls := calls w; ioLog := ioLog w; tasks := tasks w |}.

Definition set_inactivityTimer (v : option TimerId) (w : World) : World :=
  {| status := status w; rawFrames := rawFrames w; snapshots := snapshots w;
     framesSeen := framesSeen w; inactivityTimer := v; samplerTimer := samplerTimer w;
     lastFolderPath := lastFolderPath w; lastCsvPath := lastCsvPath w;
     lastTrcPath := lastTrcPath w; lastZipPath := lastZipPath w;
     latestDecoded := latestDecoded w; listeners := listeners w;
     nextTimer := nextTimer w; intervals := intervals w; timeouts := timeouts w;
     calls := calls w; ioLog := ioLog w; tasks := tasks w |}.

Definition set_samplerTimer (v : option TimerId) (w : World) : World :=
  {| status := status w; rawFrames := rawFrames w; snapshots := snapshots w;
     framesSeen := framesSeen w; inactivityTimer := inactivityTimer w;
     samplerTimer := v; lastFolderPath := lastFolderPath w;
     lastCsvPath := lastCsvPath w; lastTrcPath := lastTrcPath w;
     lastZipPath := lastZipPath w; latestDecoded := latestDecoded w;
     listeners := listeners w; nextTimer := nextTimer w; intervals := intervals w;
     timeouts := timeouts w; calls := calls w; ioLog := ioLog w; tasks := tasks w |}.

Definition set_latestDecoded (v : JsVal) (w : World) : World :=
  {| status := status w; rawFrames := rawFrames w; snapshots := snapshots w;
     framesSeen := framesSeen w; inactivityTimer := inactivityTimer w;
     samplerTimer := samplerTimer w; lastFolderPath := lastFolderPath w;
     lastCsvPath := lastCsvPath w; lastTrcPath := lastTrcPath w;
     lastZipPath := lastZipPath w; latestDecoded := v; listeners := listeners w;
     nextTimer := nextTimer w; intervals := intervals w; timeouts := timeouts w;
     calls := calls w; ioLog := ioLog w; tasks := tasks w |}.

Definition set_listeners (v : list Listener) (w : World) : World :=
  {| status := status w; rawFrames := rawFrames w; snapshots := snapshots w;
     framesSeen := framesSeen w; inactivityTimer := inactivityTimer w;
     samplerTimer := samplerTimer w; lastFolderPath := lastFolderPath w;
     lastCsvPath := lastCsvPath w; lastTrcPath := lastTrcPath w;
     lastZipPath := lastZipPath w; latestDecoded := latestDecoded w; listeners := v;
     nextTimer := nextTimer w; intervals := intervals w; timeouts := timeouts w;
     calls := calls w; ioLog := ioLog w; tasks := tasks w |}.

Definition set_nextTimer (v : TimerId) (w : World) : World :=
  {| status := status w; rawFrames := rawFrames w; snapshots := snapshots w;
     framesSeen := framesSeen w; inactivityTimer := inactivityTimer w;
     samplerTimer := samplerTimer w; lastFolderPath := lastFolderPath w;
     lastCsvPath := lastCsvPath w; lastTrcPath := lastTrcPath w;
     lastZipPath := lastZipPath w; latestDecoded := latestDecoded w;
     listeners := listeners w; nextTimer := v; intervals := intervals w;
     timeouts := timeouts w; calls := calls w; ioLog := ioLog w; tasks := tasks w |}.

Definition set_intervals (v : list TimerId) (w : World) : World :=
  {| status := status w; rawFrames := rawFrames w; snapshots := snapshots w;
     framesSeen := framesSeen w; inactivityTimer := inactivityTimer w;
     samplerTimer := samplerTimer w; lastFolderPath := lastFolderPath w;
     lastCsvPath := lastCsvPath w; lastTrcPath := lastTrcPath w;
     lastZipPath := lastZipPath w; latestDecoded := latestDecoded w;
     listeners := listeners w; nextTimer := nextTimer w; intervals := v;
     timeouts := timeouts w; calls := calls w; ioLog := ioLog w; tasks := tasks w |}.

Definition set_timeouts (v : list TimerId) (w : World) : World :=
  {| status := status w; rawFrames := rawFrames w; snapshots := snapshots w;
     framesSeen := framesSeen w; inactivityTimer := inactivityTimer w;
     samplerTimer := samplerTimer w; lastFolderPath := lastFolderPath w;
     lastCsvPath := lastCsvPath w; lastTrcPath := lastTrcPath w;
     lastZipPath := lastZipPath w; latestDecoded := latestDecoded w;
     listeners := listeners w; nextTimer := nextTimer w; intervals := intervals w;
     timeouts := v; calls := calls w; ioLog := ioLog w; tasks := tasks w |}.

Definition set_calls (v : list (Listener * Observation)) (w : World) : World :=
  {| status := status w; rawFrames := rawFrames w; snapshots := snapshots w;
     framesSeen := framesSeen w; inactivityTimer := inactivityTimer w;
     samplerTimer := samplerTimer w; lastFolderPath := lastFolderPath w;
     lastCsvPath := lastCsvPath w; lastTrcPath := lastTrcPath w;
     lastZipPath := lastZipPath w; latestDecoded := latestDecoded w;
     listeners := listeners w; nextTimer := nextTimer w; intervals := intervals w;
     timeouts := timeouts w; calls := v; ioLog := ioLog w; tasks := tasks w |}.

Definition set_ioLog (v : list IORequest) (w : World) : World :=
  {| status := status w; rawFrames := rawFrames w; snapshots := snapshots w;
     framesSeen := framesSeen w; inactivityTimer := inactivityTimer w;
     samplerTimer := samplerTimer w; lastFolderPath := lastFolderPath w;
     lastCsvPath := lastCsvPath w; lastTrcPath := lastTrcPath w;
     lastZipPath := lastZipPath w; latestDecoded := latestDecoded w;
     listeners := listeners w; nextTimer := nextTimer w; intervals := intervals w;
     timeouts := timeouts w; calls := calls w; ioLog := v; tasks := tasks w |}.

Definition set_tasks (v : list Task) (w : World) : World :=
  {| status := status w; rawFrames := rawFrames w; snapshots := snapshots w;
     framesSeen := framesSeen w; inactivityTimer := inactivityTimer w;
     samplerTimer := samplerTimer w; lastFolderPath := lastFolderPath w;
     lastCsvPath := lastCsvPath w; lastTrcPath := lastTrcPath w;
     lastZipPath := lastZipPath w; latestDecoded := latestDecoded w;
     listeners := listeners w; nextTimer := nextTimer w; intervals := intervals w;
     timeouts := timeouts w; calls := calls w; ioLog := ioLog w; tasks := v |}.

Definition set_paths (folder csv trc zipped : option string) (w : World) : World :=
  {| status := status w; rawFrames := rawFrames w; snapshots := snapshots w;
     framesSeen := framesSeen w; inactivityTimer := inactivityTimer w;
     samplerTimer := samplerTimer w; lastFolderPath := folder; lastCsvPath := csv;
     lastTrcPath := trc; lastZipPath := zipped; latestDecoded := latestDecoded w;
     listeners := listeners w; nextTimer := nextTimer w; intervals := intervals w;
     timeouts := timeouts w; calls := calls w; ioLog := ioLog w; tasks := tasks w |}.


(** *** Host primitives *)

Definition remove_id (h : nat) (l : list nat) : list nat :=
  filter (fun x => negb (Nat.eqb x h)) l.

Definition mem_id (h : nat) (l : list nat) : bool :=
  existsb (Nat.eqb h) l.

(** [setInterval(cb, ms)] and [setTimeout(cb, ms)] return a fresh handle. *)
Definition setInterval (w : World) : TimerId * World :=
  (nextTimer w,
   set_nextTimer (S (nextTimer w)) (set_intervals (intervals w ++ [nextTimer w]) w)).

Definition setTimeout (w : World) : TimerId * World :=
  (nextTimer w,
   set_nextTimer (S (nextTimer w)) (set_timeouts (timeouts w ++ [nextTimer w]) w)).

Definition clearInterval (h : TimerId) (w : World) : World :=
  set_intervals (remove_id h (intervals w)) w.

Definition clearTimeout (h : TimerId) (w : World) : World :=
  set_timeouts (remove_id h (timeouts w)) w.

(** Issue an asynchronous file-system request. *)
Definition request (r : IORequest) (w : World) : World :=
  set_ioLog (ioLog w ++ [r]) w.

(** *** Methods *)

(** [this.listeners.add(fn)]: a [Set] keeps one copy, in insertion order. *)
Definition subscribe (fn : Listener) (w : World) : World :=
  if mem_id fn (listeners w) then w
  else set_listeners (listeners w ++ [fn]) w.

(** The function [subscribe] returns: [this.listeners.delete(fn)]. *)
Definition unsubscribe (fn : Listener) (w : World) : World :=
  set_listeners (remove_id fn (listeners w)) w.

Definition getStatus (w : World) : RecorderStatus := status w.

(** [{ frames: this.rawFrames.length, rows: this.snapshots.length }] *)
Definition getStats (w : World) : Z * Z :=
  (Z.of_nat (List.length (rawFrames w)), Z.of_nat (List.length (snapshots w))).

(** The four recorded artifact paths. *)
Definition paths (w : World) : list (option string) :=
  [lastFolderPath w; lastCsvPath w; lastTrcPath w; lastZipPath w].

Definition observe (w : World) : Observation :=
  {| seen_status := getStatus w; seen_stats := getStats w; seen_paths := paths w |}.

(** [this.listeners.forEach(fn => fn())] *)
Definition notify (w : World) : World :=
  set_calls (calls w ++ map (fun fn => (fn, observe w)) (listeners w)) w.

Definition updateDecoded (decoded : JsVal) (w : World) : World :=
  set_latestDecoded (if truthy decoded then decoded else JObj []) w.

Definition startSampler (w : World) : World :=
  match samplerTimer w with
  | Some _ => w
  | None => let (h, w) := setInterval w in set_samplerTimer (Some h) w
  end.

Definition stopSampler (w : World) : World :=
  match samplerTimer w with
  | Some h => set_samplerTimer None (clearInterval h w)
  | None => w
  end.

Definition armInactivityTimeout (w : World) : World :=
  let w := match inactivityTimer w with
           | Some h => clearTimeout h w
           | None => w
           end in
  let (h, w) := setTimeout w in
  set_inactivityTimer (Some h) w.

Definition onRawFrame (frame : JsVal) (w : World) : World :=
  match normalizeRawFrame frame with
  | None => w
  | Some nf =>
    let w := if Z.of_nat (List.length (rawFrames w)) <? MAX_RAW_FRAMES
             then set_rawFrames (rawFrames w ++ [nf]) w
             else w in
    let w := set_framesSeen (framesSeen w + 1) w in
    if status_eqb (status w) idle then
      let w := startSampler w in
      let w := armInactivityTimeout w in
      let w := set_status arming w in
      notify w
    else if status_eqb (status w) arming && (2 <=? framesSeen w) then
      let w := startSampler w in
      let w := armInactivityTimeout w in
      let w := set_status recording w in
      notify w
    else if status_eqb (status w) recording then
      armInactivityTimeout w
    else w
  end.

(** The callback [startSampler] hands to [setInterval]; [snap] is the value
    of [this.makeSnapshot()] at the tick, built from the clock and
    [latestDecoded]. *)
Definition samplerTick (snap : Snapshot) (w : World) : World :=
  if Z.of_nat (List.length (snapshots w)) <? MAX_SNAPSHOTS
  then notify (set_snapshots (snapshots w ++ [snap]) w)
  else w.

Definition reset (w : World) : World :=
  let w := stopSampler w in
  let w := match inactivityTimer w with
           | Some h => set_inactivityTimer None (clearTimeout h w)
           | None => w
           end in
  let w := set_status idle w in
  let w := set_rawFrames [] w in
  let w := set_snapshots [] w in
  let w := set_framesSeen 0 w in
  let w := set_paths None None None None w in
  notify w.

(** How a call of [finalize] ends, and how far a call has got. *)
Inductive Outcome : Type :=
| Resolved
| Rejected (e : string).

Inductive Progress : Type :=
| Done (o : Outcome)
| Await (t : Task).

(** [.replace(/[/:, ]/g, "-")] *)
Definition safe_char (c : ascii) : ascii :=
  if (Ascii.eqb c "/" || Ascii.eqb c ":" || Ascii.eqb c "," || Ascii.eqb c " ")%bool
  then "-"%char else c.

Fixpoint safe_separators (s : string) : string :=
  match s with
  | EmptyString => EmptyString
  | String c rest => String (safe_char c) (safe_separators rest)
  end.

(** The requests of the export sequence, in the order [finalize] awaits them. *)
Inductive ExportStep : Type :=
| StepMkdir | StepWriteCsv | StepWriteTrc | StepZip.

Definition step_of (p : AwaitPoint) : ExportStep :=
  match p with
  | AwaitMkdir => StepMkdir
  | AwaitWriteCsv _ => StepWriteCsv
  | AwaitWriteTrc => StepWriteTrc
  | AwaitZip => StepZip
  end.

(** A call of [finalize] followed to some point: the world, how far the call
    has got, and the requests it has awaited so far. *)
Record Run : Type := mkRun {
  world : World;
  progress : Progress;
  awaited : list ExportStep;
}.

Section Exporting.

(** [RNFS.CachesDirectoryPath] and [Papa.unparse] belong to the libraries the
    recorder imports. *)
Variable CachesDirectoryPath : string.
Variable unparse : list Snapshot -> string.

(** [finalize()] up to its first [await] (or its return).  [now] is the
    value of [new Date().toLocaleString("en-IN", ...)] at the call. *)
Definition finalize_begin (now : string) (w : World) : World * Progress :=
  if status_eqb (status w) finalizing then (w, Done Resolved)
  else
    let w := set_status finalizing w in
    let w := notify w in
    let w := stopSampler w in
    if (Nat.eqb (List.length (snapshots w)) 0 || Nat.eqb (List.length (rawFrames w)) 0)%bool
    then
      let w := set_status idle w in
      (notify w, Done Resolved)
    else
      let stamp := safe_separators now in
      let folder := CachesDirectoryPath ++ "/export_" ++ stamp in
      let csv := folder ++ "/data.csv" in
      let trc := folder ++ "/data.trc" in
      let zipOut := CachesDirectoryPath ++ "/export_" ++ stamp ++ ".zip" in
      (request (Mkdir folder) w,
       Await {| folder := folder; csv := csv; trc := trc; zipOut := zipOut;
                waiting := AwaitMkdir |}).

Definition suspend (t : Task) (p : AwaitPoint) : Progress :=
  Await {| folder := folder t; csv := csv t; trc := trc t; zipOut := zipOut t;
           waiting := p |}.

(** [finalize()] from the [await] it is suspended at to the next one (or to
    its end), once the awaited operation has settled with [r].  A rejection
    lands in the [catch] block. *)
Definition finalize_resume (t : Task) (r : IOResult) (w : World) : World * Progress :=
  match r with
  | IOErr e =>
    let w := set_status error w in
    (notify w, Done (Rejected e))
  | IOOk v =>
    match waiting t with
    | AwaitMkdir =>
      let csvStr := unparse (snapshots w) in
      let trcStr := generateTRC (rawFrames w) in
      (request (WriteFile (csv t) csvStr) w, suspend t (AwaitWriteCsv trcStr))
    | AwaitWriteCsv trcStr =>
      (request (WriteFile (trc t) trcStr) w, suspend t AwaitWriteTrc)
    | AwaitWriteTrc =>
      (request (Zip (folder t) (zipOut t)) w, suspend t AwaitZip)
    | AwaitZip =>
      let w := set_paths (Some (folder t)) (Some (csv t)) (Some (trc t)) (Some v) w in
      let w := set_status ready w in
      (notify w, Done Resolved)
    end
  end.

(** A call of [finalize] from the event loop: a suspended call joins [tasks]. *)
Definition park (p : World * Progress) : World :=
  match p with
  | (w, Done _) => w
  | (w, Await t) => set_tasks (tasks w ++ [t]) w
  end.

(** The callback [armInactivityTimeout] hands to [setTimeout]:
    [finalize().catch(() => {})] while recording, [reset()] while arming. *)
Definition watchdog (now : string) (w : World) : World :=
  if status_eqb (status w) recording then park (finalize_begin now w)
  else if status_eqb (status w) arming then reset w
  else w.

(** *** The event loop *)

Inductive Event : Type :=
| EvSubscribe (fn : Listener)
| EvUnsubscribe (fn : Listener)
| EvUpdateDecoded (decoded : JsVal)
| EvRawFrame (frame : JsVal)
| EvFinalize (now : string)
| EvReset
| EvSamplerTick (h : TimerId) (snap : Snapshot)
| EvInactivity (h : TimerId) (now : string)
| EvSettled (k : nat) (r : IOResult).

Fixpoint remove_nth {A : Type} (k : nat) (l : list A) : list A :=
  match k, l with
  | _, [] => []
  | O, _ :: rest => rest
  | S k', x :: rest => x :: remove_nth k' rest
  end.

(** One turn of the event loop.  A timer callback runs only for a live
    handle (a timeout fires once), a settlement only for a call in flight;
    [None] says the event cannot occur in [w]. *)
Definition step (e : Event) (w : World) : option World :=
  match e with
  | EvSubscribe fn => Some (subscribe fn w)
  | EvUnsubscribe fn => Some (unsubscribe fn w)
  | EvUpdateDecoded decoded => Some (updateDecoded decoded w)
  | EvRawFrame frame => Some (onRawFrame frame w)
  | EvFinalize now => Some (park (finalize_begin now w))
  | EvReset => Some (reset w)
  | EvSamplerTick h snap =>
    if mem_id h (intervals w) then Some (samplerTick snap w) else None
  | EvInactivity h now =>
    if mem_id h (timeouts w) then Some (watchdog now (clearTimeout h w)) else None
  | EvSettled k r =>
    match nth_error (tasks w) k with
    | Some t => Some (park (finalize_resume t r (set_tasks (remove_nth k (tasks w)) w)))
    | None => None
    end
  end.

(** The states the recorder can be in. *)
Inductive reachable : World -> Prop :=
| reachable_init : reachable init
| reachable_step (w w' : World) (e : Event) :
    reachable w -> step e w = Some w' -> reachable w'.

(** Run a list of events, stopping at the first one that cannot occur. *)
Fixpoint run (es : list Event) (w : World) : option World :=
  match es with
  | [] => Some w
  | e :: rest => match step e w with Some w' => run rest w' | None => None end
  end.


(** *** A call of [finalize] from start to end *)

(** One settlement: while the call waits for the request [s], the event loop
    does [between s] to the world; then the request settles as [io s] and the
    call runs on to its next [await] or to its end. *)
Definition settle (io : ExportStep -> IOResult)
    (between : ExportStep -> World -> World) (r : Run) : Run :=
  match progress r with
  | Done _ => r
  | Await t =>
    let s := step_of (waiting t) in
    let (w, p) := finalize_resume t (io s) (between s (world r)) in
    {| world := w; progress := p; awaited := awaited r ++ [s] |}
  end.

(** [finalize()] until its promise settles: the synchronous start and the
    four awaits. *)
Definition finalize (io : ExportStep -> IOResult)
    (between : ExportStep -> World -> World) (now : string) (w : World) : Run :=
  let (w0, p0) := finalize_begin now w in
  let r := {| world := w0; progress := p0; awaited := [] |} in
  settle io between (settle io between (settle io between (settle io between r))).

End Exporting.

(** After a request other than the last the call waits for the next one. *)
Definition follows (s s' : ExportStep) : Prop :=
  match s, s' with
  | StepMkdir, StepWriteCsv | StepWriteCsv, StepWriteTrc | StepWriteTrc, StepZip => True
  | _, _ => False
  end.


(** A finished call of [finalize]: it rejects exactly on a failed request,
    ends in [error] exactly then, and after four passed requests ends in
    [ready] with the four paths recorded. *)
Definition settled_as_claimed (CachesDirectoryPath : string)
    (io : ExportStep -> IOResult) (now : string) (r : Run) : Prop :=
  let folder := CachesDirectoryPath ++ "/export_" ++ safe_separators now in
  exists o,
    progress r = Done o /\
    (forall e, o = Rejected e <-> exists s, In s (awaited r) /\ io s = IOErr e) /\
    (status (world r) = error <-> exists e, o = Rejected e) /\
    (o = Resolved -> awaited r <> [] ->
     awaited r = [StepMkdir; StepWriteCsv; StepWriteTrc; StepZip] /\
     (forall s, exists v, io s = IOOk v) /\
     status (world r) = ready /\
     exists zipped,
       io StepZip = IOOk zipped /\
       paths (world r) =
       [Some folder; Some (folder ++ "/data.csv"); Some (folder ++ "/data.trc");
        Some zipped]).


(** *** An invariant of the reachable states *)

(** The counter never goes negative, both buffers respect their caps, the
    raw-frame buffer holds normal forms only, the status [finalizing] is
    held only over two non-empty buffers, and [arming] only after a frame
    has been counted. *)
Record Inv (w : World) : Prop := mkInv {
  inv_seen : 0 <= framesSeen w;
  inv_raw : Z.of_nat (List.length (rawFrames w)) <= MAX_RAW_FRAMES;
  inv_normalized : Forall normalized (rawFrames w);
  inv_snap : Z.of_nat (List.length (snapshots w)) <= MAX_SNAPSHOTS;
  inv_finalizing : status w = finalizing -> rawFrames w <> [] /\ snapshots w <> [];
  inv_arming : status w = arming -> 1 <= framesSeen w;
}.

(** The host's timer tables agree with the two handles the recorder keeps:
    the sampler interval runs exactly while [samplerTimer] holds its handle,
    and at most one inactivity timeout is pending, the one [inactivityTimer]
    names. *)
Record TimerInv (w : World) : Prop := mkTimerInv {
  tinv_sampler :
    intervals w = match samplerTimer w with Some h => [h] | None => [] end;
  tinv_watchdog :
    timeouts w = [] \/ exists h, inactivityTimer w = Some h /\ timeouts w = [h];
}.

(** *** Bookkeeping kept by every turn of the event loop *)

(** The constants of a call of [finalize] made at a moment whose localized
    date is [now]. *)
Definition task_of (CachesDirectoryPath : string) (t : Task) : Prop :=
  exists now,
    let dir := CachesDirectoryPath ++ "/export_" ++ safe_separators now in
    folder t = dir /\ csv t = dir ++ "/data.csv" /\ trc t = dir ++ "/data.trc" /\
    zipOut t = CachesDirectoryPath ++ "/export_" ++ safe_separators now ++ ".zip".

(** The four path fields are unset together or set together, to an export
    folder, its two files and whatever the archiver returned. *)
Definition export_paths (CachesDirectoryPath : string)
    (ps : list (option string)) : Prop :=
  ps = [None; None; None; None] \/
  exists now zipped,
    let dir := CachesDirectoryPath ++ "/export_" ++ safe_separators now in
    ps = [Some dir; Some (dir ++ "/data.csv"); Some (dir ++ "/data.trc");
          Some zipped].

Record Bookkeeping (CachesDirectoryPath : string) (w : World) : Prop :=
  mkBookkeeping {
  bk_stored :
    Z.of_nat (List.length (rawFrames w)) = Z.min (framesSeen w) MAX_RAW_FRAMES;
  bk_paths : export_paths CachesDirectoryPath (paths w);
  bk_ready : status w = ready -> lastZipPath w <> None;
  bk_inflight : status w = finalizing -> tasks w <> [];
  bk_tasks : Forall (task_of CachesDirectoryPath) (tasks w);
  bk_listeners : NoDup (listeners w);
  bk_decoded : truthy (latestDecoded w) = true;
}.

(** Every invocation logged between [w] and [w'] is of a listener
    registered in [w]. *)
Definition only_listeners_called (w w' : World) : Prop :=
  exists added,
    calls w' = (calls w ++ added)%list /\
    Forall (fun c => In (fst c) (listeners w)) added.

(** While the status is [idle] or [finalizing] the sampler is stopped. *)
Definition sampler_off_when_resting (w : World) : Prop :=
  status w = idle \/ status w = finalizing -> samplerTimer w = None.

(** A turn either empties both buffers or appends at most one entry to one
    of them, leaving what was stored in place. *)
Definition grows_or_clears (w w' : World) : Prop :=
  (rawFrames w' = [] /\ snapshots w' = []) \/
  exists a b,
    rawFrames w' = (rawFrames w ++ a)%list /\
    snapshots w' = (snapshots w ++ b)%list /\
    (List.length a + List.length b <= 1)%nat.

(** No event of the list subscribes [fn]. *)
Definition never_subscribes (fn : Listener) (es : list Event) : Prop :=
  Forall (fun e => e <> EvSubscribe fn) es.

(** The status machine: the moves an event can make, other than leaving the
    status where it is. *)
Definition moves (e : Event) (s s' : RecorderStatus) : bool :=
  match e, s, s' with
  | EvRawFrame _, idle, arming
  | EvRawFrame _, arming, recording => true
  | EvFinalize _, (idle | arming | recording | ready | error), (finalizing | idle) => true
  | EvReset, _, idle => true
  | EvInactivity _ _, recording, (finalizing | idle)
  | EvInactivity _ _, arming, idle => true
  | EvSettled _ _, _, (ready | error) => true
  | _, _, _ => false
  end.

(** *** Notification *)

(** Between [w] and [w'] every listener registered in [w] has been invoked
    at a moment when it could read back what [w'] shows. *)
Definition notified (w w' : World) : Prop :=
  exists added,
    calls w' = (calls w ++ added)%list /\
    forall fn, In fn (listeners w) -> In (fn, observe w') added.

(** The reading of the subscription contract in which no turn of the event
    loop changes the status, the stats pair or the recorded paths without
    notifying. *)
Definition every_observable_change_notifies : Prop :=
  forall (CachesDirectoryPath : string) (unparse : list Snapshot -> string)
         (e : Event) (w w' : World),
    reachable CachesDirectoryPath unparse w ->
    step CachesDirectoryPath unparse e w = Some w' ->
    observe w' <> observe w ->
    notified w w'.

(** *** Scenarios *)

(** Sampler ticks in a row, oldest first. *)
Definition samplerTicks (snaps : list Snapshot) (w : World) : World :=
  fold_left (fun w snap => samplerTick snap w) snaps w.

(** A snapshot as [makeSnapshot] builds it when nothing has been decoded. *)
Definition blank_snapshot (ts : string) : Snapshot :=
  {| timestamp := ts; soc := Num 0; batteryCurrent := Num 0;
     minCellVoltage := Num 0; maxCellVoltage := Num 0; maxCellTemp := Num 0;
     minCellTemp := Num 0; availableEnergy := Num 0; driveCurrentLimit := Num 0;
     regenCurrentLimit := Num 0; controllerTemperature := Num 0;
     motorTemperature := Num 0; rmsCurrent := Num 0; throttle := Num 0;
     brake := Num 0; speed := Num 0; motorRPM := Num 0;
     capacitorVoltage := Num 0; odometer := Num 0; controllerFaults := "None" |}.

Definition frame_a : JsVal := JObj [("id", JNum 291); ("bytes", JArr [JNum 10])].
Definition frame_b : JsVal := JObj [("id", JStr "1a"); ("timeOffsetMs", JNum 40)].

(** A listener subscribes, two frames arrive, the sampler started by the
    first ticks once. *)
Definition two_frames_one_tick : list Event :=
  [ EvSubscribe 7%nat;
    EvRawFrame frame_a;
    EvRawFrame frame_b;
    EvSamplerTick 1%nat (blank_snapshot "03/11/2026 10:15:00") ].

Definition after_two_frames_one_tick : World :=
  Eval vm_compute in
    match run "/cache" (fun _ => "") two_frames_one_tick init with
    | Some w => w
    | None => init
    end.

(** The same, then an export by hand whose four requests all succeed. *)
Definition full_export : list Event :=
  two_frames_one_tick ++
  [ EvFinalize "03/11/2026, 10:15:02";
    EvSettled 0%nat (IOOk "");
    EvSettled 0%nat (IOOk "");
    EvSettled 0%nat (IOOk "");
    EvSettled 0%nat (IOOk "/cache/export_03-11-2026--10-15-02.zip") ].

Definition while_exporting : World :=
  Eval vm_compute in
    match run "/cache" (fun _ => "") (firstn 5 full_export) init with
    | Some w => w
    | None => init
    end.

Definition after_full_export : World :=
  Eval vm_compute in
    match run "/cache" (fun _ => "") full_export init with
    | Some w => w
    | None => init
    end.

End Recorder.

(* ------------------------------------------------------------------------- *)
(** ** Reading the trace columns back *)
(* ------------------------------------------------------------------------- *)

(** What a reader of the trace file sees in a column.  None of this comes
    from the recorder: it is the vocabulary the properties are stated in. *)
Module Read.
Import Js Frames.

(** [out] is [s] brought to width [n] with copies of [c] in front of it
    (the text ends at the right edge of the column). *)
Definition left_padded (n : nat) (c : ascii) (s out : string) : Prop :=
  exists k, out = replicate k c ++ s /\
            String.length out = Nat.max n (String.length s).

(** [out] is [s] brought to width [n] with copies of [c] behind it. *)
Definition right_padded (n : nat) (c : ascii) (s out : string) : Prop :=
  exists k, out = s ++ replicate k c /\
            String.length out = Nat.max n (String.length s).

Definition in_range (lo hi : N) (c : ascii) : bool :=
  ((lo <=? N_of_ascii c) && (N_of_ascii c <=? hi))%N.

Definition is_lower (c : ascii) : bool := in_range 97 122 c.


(** A digit of upper-case hexadecimal: [0-9A-F]. *)
Definition is_upper_hex (c : ascii) : bool :=
  in_range 48 57 c || in_range 65 70 c.

Fixpoint all_chars (p : ascii -> bool) (s : string) : bool :=
  match s with
  | EmptyString => true
  | String c rest => p c && all_chars p rest
  end.

Definition is_upper_hex_pair (s : string) : bool :=
  Nat.eqb (String.length s) 2 && all_chars is_upper_hex s.

(** The value of a hexadecimal digit in either case. *)
Definition hex_digit_value (c : ascii) : option N :=
  if in_range 48 57 c then Some (N_of_ascii c - 48)%N
  else if in_range 65 70 c then Some (N_of_ascii c - 55)%N
  else if in_range 97 102 c then Some (N_of_ascii c - 87)%N
  else None.

Fixpoint hex_value_from (acc : N) (s : string) : option N :=
  match s with
  | EmptyString => Some acc
  | String c rest =>
    match hex_digit_value c with
    | Some d => hex_value_from (16 * acc + d) rest
    | None => None
    end
  end.

(** The number a non-empty string of hexadecimal digits denotes. *)
Definition hex_value (s : string) : option N :=
  match s with
  | EmptyString => None
  | _ => hex_value_from 0 s
  end.

(** The number a non-empty string of decimal digits denotes. *)
Definition dec_value (s : string) : option N :=
  option_map N.of_uint (DecimalString.NilZero.uint_of_string s).




(** ASCII text: every code unit is below 128. *)
Definition is_ascii (c : ascii) : bool := (N_of_ascii c <? 128)%N.

Definition ascii_text (s : string) : Prop := all_chars is_ascii s = true.

(** [c'] is [c] in upper case: a letter a-z moved to A-Z, any other
    character itself. *)
Definition upper_of (c c' : ascii) : bool :=
  if is_lower c then N.eqb (N_of_ascii c' + 32) (N_of_ascii c)
  else Ascii.eqb c' c.

(** [s'] is [s] in upper case, character by character. *)
Fixpoint upper_image (s s' : string) : bool :=
  match s, s' with
  | EmptyString, EmptyString => true
  | String c rest, String c' rest' => upper_of c c' && upper_image rest rest'
  | _, _ => false
  end.

(** No zero in front of other digits. *)
Definition no_leading_zero (s : string) : bool :=
  match s with
  | String c (String _ _) => negb (Ascii.eqb c "0")
  | _ => true
  end.

(** [h] is the number [n] written in upper-case hexadecimal digits, as short
    as it can be. *)
Definition hex_text (n : N) (h : string) : Prop :=
  all_chars is_upper_hex h = true /\ hex_value h = Some n /\
  no_leading_zero h = true.

Definition is_separator (c : ascii) : bool :=
  Ascii.eqb c "/" || Ascii.eqb c ":" || Ascii.eqb c "," || Ascii.eqb c " ".

(** Checks run over the finitely many small inputs. *)
Definition dec_width_ok (width : nat) (n : nat) : bool :=
  Nat.leb (String.length (dec_of_N (N.of_nat n))) width.

(** A frame as a CAN bus delivers it: at most 8 bytes of two characters, an
    identifier of at most 8 ASCII characters, a type of at most 3, an offset
    below 10,000 seconds. *)
Definition fits_columns (nf : RawFrame) : Prop :=
  exists ms ty ident bs,
    timeOffsetMs nf = Some ms /\ type nf = Some ty /\
    id nf = Some (Str ident) /\ bytes nf = Some (map Str bs) /\
    0 <= ms < 10000000 /\
    (String.length ty <= 3)%nat /\
    (String.length ident <= 8)%nat /\ ascii_text ident /\
    (List.length bs <= 8)%nat /\ Forall (fun s => String.length s = 2%nat) bs.

(** The valid byte entries: an integer from 0 to 255, or one or two
    hexadecimal digits. *)
Definition byte_value (b : JsVal) : option N :=
  match b with
  | JNum z => if (0 <=? z) && (z <=? 255) then Some (Z.to_N z) else None
  | JStr s => if Nat.leb (String.length s) 2 then hex_value s else None
  | _ => None
  end.

(** What an entry of [bytes] has become when [s] stands in its place: a
    non-negative integer its hexadecimal digits in full, filled with a zero
    up to two characters; a negative integer a minus sign and the digits of
    its magnitude; ASCII text its upper-case form, filled with zeros up to
    two characters; anything that is neither a number nor a string the
    text 00. *)
Definition entry_normal_form (b : JsVal) (s : string) : Prop :=
  match b with
  | JNum z =>
    if 0 <=? z
    then exists h, hex_text (Z.to_N z) h /\ left_padded 2 "0" h s
    else exists h, hex_text (Z.abs_N z) h /\ s = String "-" h
  | JStr t =>
    ascii_text t ->
    exists up, upper_image t up = true /\ left_padded 2 "0" up s
  | _ => s = "00"
  end.

(** Checks run over the finitely many small inputs. *)
Definition number_byte_ok (n : nat) : bool :=
  match normalizeByte (JNum (Z.of_nat n)) with
  | Str s =>
    is_upper_hex_pair s &&
    match hex_value s with
    | Some v => N.eqb v (N.of_nat n)
    | None => false
    end
  | Num _ => false
  end.

Definition thousandths_ok (n : nat) : bool :=
  let s := padStart 3 "0" (dec_of_N (N.of_nat n)) in
  Nat.eqb (String.length s) 3 &&
  match dec_value s with
  | Some v => N.eqb v (N.of_nat n)
  | None => false
  end.

(** C7 as the specification words it: every entry of a normalised [bytes]
    array is a pair of upper-case hexadecimal digits, and an entry that is
    not a valid byte has become ["00"]. *)
Definition bytes_are_hex_pairs : Prop :=
  forall (frame : JsVal) (nf : RawFrame) (bs : list JsVal),
    normalizeRawFrame frame = Some nf ->
    get frame "bytes" = JArr bs ->
    exists out,
      bytes nf = Some (map Str out) /\
      List.length out = List.length bs /\
      Forall (fun s => is_upper_hex_pair s = true) out /\
      forall k b, nth_error bs k = Some b -> byte_value b = None ->
                  nth_error out k = Some "00".


End Read.

Import Js Frames Recorder.

(* ------------------------------------------------------------------------- *)
(** ** Field-by-field effect of the methods *)
(* ------------------------------------------------------------------------- *)

Lemma status_eqb_eq (a b : RecorderStatus) : status_eqb a b = true <-> a = b.
Proof. destruct a, b; simpl; split; intro H; try reflexivity; discriminate H. Qed.

Lemma normalizeRawFrame_truthy (frame : JsVal) :
  truthy frame = true -> exists nf, normalizeRawFrame frame = Some nf.
Proof.
  intro H. unfold normalizeRawFrame. rewrite H. simpl. eexists. reflexivity.
Qed.

Lemma normalizeRawFrame_falsy (frame : JsVal) :
  truthy frame = false -> normalizeRawFrame frame = None.
Proof. intro H. unfold normalizeRawFrame. rewrite H. reflexivity. Qed.

Section ObjectFields.

Variable A : Type.
Variable proj : World -> A.

(** [proj] reads a part of the world that timers do not write. *)
Hypothesis proj_intervals : forall v w, proj (set_intervals v w) = proj w.
Hypothesis proj_timeouts : forall v w, proj (set_timeouts v w) = proj w.
Hypothesis proj_nextTimer : forall v w, proj (set_nextTimer v w) = proj w.
Hypothesis proj_samplerTimer : forall v w, proj (set_samplerTimer v w) = proj w.
Hypothesis proj_inactivityTimer : forall v w, proj (set_inactivityTimer v w) = proj w.

Lemma proj_startSampler w : proj (startSampler w) = proj w.
Proof.
  unfold startSampler, setInterval. destruct (samplerTimer w); [reflexivity|].
  now rewrite proj_samplerTimer, proj_nextTimer, proj_intervals.
Qed.

Lemma proj_stopSampler w : proj (stopSampler w) = proj w.
Proof.
  unfold stopSampler, clearInterval. destruct (samplerTimer w); [|reflexivity].
  now rewrite proj_samplerTimer, proj_intervals.
Qed.

Lemma proj_armInactivityTimeout w : proj (armInactivityTimeout w) = proj w.
Proof.
  unfold armInactivityTimeout, setTimeout, clearTimeout.
  destruct (inactivityTimer w);
    now rewrite proj_inactivityTimer, proj_nextTimer, !proj_timeouts.
Qed.

End ObjectFields.

Arguments startSampler : simpl never.
Arguments stopSampler : simpl never.
Arguments armInactivityTimeout : simpl never.

(** Read a field through the timer methods. *)
Ltac skip_timers :=
  repeat match goal with
         | |- context [?p (startSampler ?w)] =>
           rewrite (proj_startSampler _ p) by (intros; reflexivity)
         | |- context [?p (stopSampler ?w)] =>
           rewrite (proj_stopSampler _ p) by (intros; reflexivity)
         | |- context [?p (armInactivityTimeout ?w)] =>
           rewrite (proj_armInactivityTimeout _ p) by (intros; reflexivity)
         end.

Ltac fields := repeat (progress (cbn; skip_timers)).

(** The statement-by-statement effect of [onRawFrame] on a frame with normal
    form [nf]: push (below the cap) and count, then branch on the status. *)
Lemma onRawFrame_unfold (frame : JsVal) (nf : RawFrame) (w : World) :
  normalizeRawFrame frame = Some nf ->
  onRawFrame frame w =
  let w1 :=
    set_framesSeen (framesSeen w + 1)
      (if Z.of_nat (List.length (rawFrames w)) <? MAX_RAW_FRAMES
       then set_rawFrames (rawFrames w ++ [nf]) w else w) in
  match status w with
  | idle => notify (set_status arming (armInactivityTimeout (startSampler w1)))
  | arming =>
    if 2 <=? framesSeen w + 1
    then notify (set_status recording (armInactivityTimeout (startSampler w1)))
    else w1
  | recording => armInactivityTimeout w1
  | _ => w1
  end.
Proof.
  intro Hnf. unfold onRawFrame. rewrite Hnf. cbv zeta.
  destruct (Z.of_nat (List.length (rawFrames w)) <? MAX_RAW_FRAMES);
    cbn [status framesSeen set_framesSeen set_rawFrames];
    destruct (status w); cbn [status_eqb andb]; try reflexivity;
    destruct (2 <=? framesSeen w + 1); reflexivity.
Qed.

Ltac on_frame Hnf w :=
  rewrite (onRawFrame_unfold _ _ w Hnf); cbv zeta;
  destruct (Z.of_nat (List.length (rawFrames w)) <? MAX_RAW_FRAMES) eqn:Hcap;
  destruct (status w) eqn:Hs;
  try destruct (2 <=? framesSeen w + 1) eqn:Hseen;
  fields; rewrite ?Hs, ?Hcap; try reflexivity.

Lemma status_onRawFrame (frame : JsVal) (w : World) :
  truthy frame = true ->
  status (onRawFrame frame w) =
  match status w with
  | idle => arming
  | arming => if 2 <=? framesSeen w + 1 then recording else arming
  | s => s
  end.
Proof.
  intro Ht. destruct (normalizeRawFrame_truthy frame Ht) as [nf Hnf].
  on_frame Hnf w.
Qed.

Lemma framesSeen_onRawFrame (frame : JsVal) (w : World) :
  truthy frame = true ->
  framesSeen (onRawFrame frame w) = framesSeen w + 1.
Proof.
  intro Ht. destruct (normalizeRawFrame_truthy frame Ht) as [nf Hnf].
  on_frame Hnf w.
Qed.

Lemma rawFrames_onRawFrame (frame : JsVal) (nf : RawFrame) (w : World) :
  normalizeRawFrame frame = Some nf ->
  rawFrames (onRawFrame frame w) =
  if Z.of_nat (List.length (rawFrames w)) <? MAX_RAW_FRAMES
  then (rawFrames w ++ [nf])%list else rawFrames w.
Proof. intro Hnf. on_frame Hnf w. Qed.

Lemma onRawFrame_falsy (frame : JsVal) (w : World) :
  truthy frame = false -> onRawFrame frame w = w.
Proof.
  intro Hf. unfold onRawFrame. now rewrite (normalizeRawFrame_falsy frame Hf).
Qed.

Lemma snapshots_onRawFrame (frame : JsVal) (w : World) :
  snapshots (onRawFrame frame w) = snapshots w.
Proof.
  destruct (normalizeRawFrame frame) as [nf|] eqn:Hnf.
  - on_frame Hnf w.
  - unfold onRawFrame. now rewrite Hnf.
Qed.

Lemma listeners_onRawFrame (frame : JsVal) (w : World) :
  listeners (onRawFrame frame w) = listeners w.
Proof.
  destruct (normalizeRawFrame frame) as [nf|] eqn:Hnf.
  - on_frame Hnf w.
  - unfold onRawFrame. now rewrite Hnf.
Qed.

Lemma paths_onRawFrame (frame : JsVal) (w : World) :
  paths (onRawFrame frame w) = paths w.
Proof.
  unfold paths.
  destruct (normalizeRawFrame frame) as [nf|] eqn:Hnf.
  - on_frame Hnf w.
  - unfold onRawFrame. now rewrite Hnf.
Qed.

(* ------------------------------------------------------------------------- *)
(** ** An invariant of the reachable states *)
(* ------------------------------------------------------------------------- *)

Lemma Inv_init : Inv init.
Proof.
  split; cbn; unfold MAX_RAW_FRAMES, MAX_SNAPSHOTS; try lia; try discriminate.
  constructor.
Qed.

(** [Inv] looks at four fields only. *)
Lemma Inv_ext (w w' : World) :
  status w' = status w -> rawFrames w' = rawFrames w ->
  snapshots w' = snapshots w -> framesSeen w' = framesSeen w ->
  Inv w -> Inv w'.
Proof.
  intros Hs Hr Hn Hf [I1 I2 I2' I3 I4 I5].
  split; rewrite ?Hs, ?Hr, ?Hn, ?Hf; assumption.
Qed.

Lemma Inv_onRawFrame (frame : JsVal) (w : World) :
  Inv w -> Inv (onRawFrame frame w).
Proof.
  intros [I1 I2 I2' I3 I4 I5].
  destruct (truthy frame) eqn:Ht;
    [| rewrite (onRawFrame_falsy frame w Ht); split; assumption].
  destruct (normalizeRawFrame_truthy frame Ht) as [nf Hnf].
  split.
  - rewrite framesSeen_onRawFrame by assumption. lia.
  - rewrite (rawFrames_onRawFrame frame nf w Hnf).
    destruct (Z.of_nat (List.length (rawFrames w)) <? MAX_RAW_FRAMES) eqn:Hcap;
      [| assumption].
    apply Z.ltb_lt in Hcap. rewrite length_app. cbn [List.length]. lia.
  - rewrite (rawFrames_onRawFrame frame nf w Hnf).
    destruct (Z.of_nat (List.length (rawFrames w)) <? MAX_RAW_FRAMES);
      [| assumption].
    apply Forall_app. split; [assumption |].
    constructor; [now exists frame | constructor].
  - now rewrite snapshots_onRawFrame.
  - rewrite status_onRawFrame, snapshots_onRawFrame,
      (rawFrames_onRawFrame frame nf w Hnf) by assumption.
    destruct (status w) eqn:Hs; try discriminate;
      [destruct (2 <=? framesSeen w + 1); discriminate |].
    intros _. destruct (I4 eq_refl) as [Hr Hn]. split; [| assumption].
    destruct (Z.of_nat (List.length (rawFrames w)) <? MAX_RAW_FRAMES);
      [| assumption].
    intro H. apply app_eq_nil in H. destruct H as [_ H]. discriminate H.
  - rewrite framesSeen_onRawFrame by assumption. lia.
Qed.

Lemma Inv_samplerTick (snap : Snapshot) (w : World) :
  Inv w -> Inv (samplerTick snap w).
Proof.
  intros [I1 I2 I2' I3 I4 I5]. unfold samplerTick.
  destruct (Z.of_nat (List.length (snapshots w)) <? MAX_SNAPSHOTS) eqn:Hcap;
    [| split; assumption].
  apply Z.ltb_lt in Hcap.
  split; cbn; try assumption.
  - rewrite length_app. cbn [List.length]. lia.
  - intro Hs. destruct (I4 Hs) as [Hr _]. split; [assumption |].
    intro H. apply app_eq_nil in H. destruct H as [_ H]. discriminate H.
Qed.

Lemma Inv_reset (w : World) : Inv (reset w).
Proof.
  unfold reset.
  split; destruct (inactivityTimer (stopSampler w)); fields;
    unfold MAX_RAW_FRAMES, MAX_SNAPSHOTS; try lia; try discriminate;
    constructor.
Qed.

Section ExportInvariant.

Variable CachesDirectoryPath : string.
Variable unparse : list Snapshot -> string.

Let Reachable : World -> Prop := reachable CachesDirectoryPath unparse.

Lemma Inv_park (p : World * Progress) : Inv (fst p) -> Inv (park p).
Proof.
  destruct p as [w [o | t]]; cbn; [tauto |].
  apply Inv_ext; reflexivity.
Qed.

Lemma Inv_finalize_begin (now : string) (w : World) :
  Inv w -> Inv (fst (finalize_begin CachesDirectoryPath now w)).
Proof.
  intros [I1 I2 I2' I3 I4 I5]. unfold finalize_begin.
  destruct (status_eqb (status w) finalizing) eqn:Hs; [split; assumption |].
  match goal with |- context [if ?c then _ else _] => destruct c eqn:He end;
    revert He; fields; intro He.
  - split; fields; try assumption; discriminate.
  - apply orb_false_elim in He. destruct He as [Hn Hr].
    split; fields; try assumption; try discriminate.
    intros _. split; intro H; rewrite H in *; discriminate.
Qed.

Lemma Inv_finalize_resume (t : Task) (r : IOResult) (w : World) :
  Inv w -> Inv (fst (finalize_resume unparse t r w)).
Proof.
  intros [I1 I2 I2' I3 I4 I5]. unfold finalize_resume.
  destruct r as [v | e]; [destruct (waiting t) |];
    split; cbn; try assumption; discriminate.
Qed.

Lemma Inv_watchdog (now : string) (w : World) :
  Inv w -> Inv (watchdog CachesDirectoryPath now w).
Proof.
  intro I. unfold watchdog.
  destruct (status_eqb (status w) recording).
  - apply Inv_park, Inv_finalize_begin, I.
  - destruct (status_eqb (status w) arming); [apply Inv_reset | exact I].
Qed.

Lemma Inv_step (e : Event) (w w' : World) :
  Inv w -> step CachesDirectoryPath unparse e w = Some w' -> Inv w'.
Proof.
  intros I Hstep. destruct e; cbn in Hstep.
  - injection Hstep as <-. unfold subscribe.
    destruct (mem_id fn (listeners w)); [exact I |].
    revert I. apply Inv_ext; reflexivity.
  - injection Hstep as <-. revert I. apply Inv_ext; reflexivity.
  - injection Hstep as <-. revert I. apply Inv_ext; reflexivity.
  - injection Hstep as <-. apply Inv_onRawFrame, I.
  - injection Hstep as <-. apply Inv_park, Inv_finalize_begin, I.
  - injection Hstep as <-. apply Inv_reset.
  - destruct (mem_id h (intervals w)); [| discriminate].
    injection Hstep as <-. apply Inv_samplerTick, I.
  - destruct (mem_id h (timeouts w)); [| discriminate].
    injection Hstep as <-. apply Inv_watchdog.
    revert I. apply Inv_ext; reflexivity.
  - destruct (nth_error (tasks w) k) as [t |]; [| discriminate].
    injection Hstep as <-. apply Inv_park, Inv_finalize_resume.
    revert I. apply Inv_ext; reflexivity.
Qed.

Lemma Inv_reachable (w : World) : Reachable w -> Inv w.
Proof.
  induction 1 as [| w w' e _ IH Hstep]; [exact Inv_init |].
  exact (Inv_step e w w' IH Hstep).
Qed.

End ExportInvariant.

Lemma status_samplerTick (snap : Snapshot) (w : World) :
  status (samplerTick snap w) = status w.
Proof.
  unfold samplerTick.
  now destruct (Z.of_nat (List.length (snapshots w)) <? MAX_SNAPSHOTS).
Qed.

Lemma framesSeen_samplerTick (snap : Snapshot) (w : World) :
  framesSeen (samplerTick snap w) = framesSeen w.
Proof.
  unfold samplerTick.
  now destruct (Z.of_nat (List.length (snapshots w)) <? MAX_SNAPSHOTS).
Qed.


Lemma samplerTicks_keep (snaps : list Snapshot) (w : World) :
  status (samplerTicks snaps w) = status w /\
  framesSeen (samplerTicks snaps w) = framesSeen w.
Proof.
  revert w. induction snaps as [| snap snaps IH]; intro w; [now split |].
  change (samplerTicks (snap :: snaps) w)
    with (samplerTicks snaps (samplerTick snap w)).
  destruct (IH (samplerTick snap w)) as [Hs Hf].
  now rewrite Hs, Hf, status_samplerTick, framesSeen_samplerTick.
Qed.

Section Reachability.

Variable CachesDirectoryPath : string.
Variable unparse : list Snapshot -> string.

Lemma run_reachable (es : list Event) (w w' : World) :
  reachable CachesDirectoryPath unparse w ->
  run CachesDirectoryPath unparse es w = Some w' ->
  reachable CachesDirectoryPath unparse w'.
Proof.
  revert w. induction es as [| e es IH]; intros w Hw Hrun; cbn in Hrun.
  - now injection Hrun as <-.
  - destruct (step CachesDirectoryPath unparse e w) as [w1 |] eqn:Hstep;
      [| discriminate].
    apply (IH w1); [| exact Hrun].
    exact (reachable_step _ _ w w1 e Hw Hstep).
Qed.

End Reachability.

(* ------------------------------------------------------------------------- *)
(** ** Frame ingestion and the status machine *)
(* ------------------------------------------------------------------------- *)

(** C1.  From any state the recorder can be in with status [idle], the first
    truthy frame moves the status to [arming] and the second one moves it on
    to [recording], whatever the two frames contain; the second step is
    taken because [framesSeen] has reached 2.  Sampler ticks between the two
    frames do not matter. *)
Theorem idle_two_frames_arming_then_recording
    (CachesDirectoryPath : string) (unparse : list Snapshot -> string)
    (w : World) (f1 f2 : JsVal) (ticks : list Snapshot) :
  reachable CachesDirectoryPath unparse w ->
  status w = idle ->
  truthy f1 = true ->
  truthy f2 = true ->
  let w1 := onRawFrame f1 w in
  let w2 := onRawFrame f2 (samplerTicks ticks w1) in
  status w1 = arming /\ status w2 = recording /\ 2 <= framesSeen w2.
Proof.
  intros Hreach Hidle Ht1 Ht2 w1 w2.
  pose proof (inv_seen w (Inv_reachable _ _ w Hreach)) as Hseen.
  assert (Hs1 : status w1 = arming).
  { unfold w1. now rewrite status_onRawFrame, Hidle. }
  assert (Hf1 : framesSeen w1 = framesSeen w + 1).
  { unfold w1. now rewrite framesSeen_onRawFrame. }
  destruct (samplerTicks_keep ticks w1) as [Hs Hf].
  split; [exact Hs1 |]. unfold w2.
  rewrite status_onRawFrame, framesSeen_onRawFrame, Hs, Hs1, Hf, Hf1 by assumption.
  assert (Hle : (2 <=? framesSeen w + 1 + 1) = true) by (apply Z.leb_le; lia).
  rewrite Hle. split; [reflexivity | lia].
Qed.

Lemma idle_two_frames_witness :
  let f1 := JObj [("id", JNum 291)] in
  let f2 := JStr "x" in
  reachable "/cache" (fun _ => "") init /\
  status init = idle /\
  truthy f1 = true /\
  truthy f2 = true /\
  status (onRawFrame f1 init) = arming /\
  status (onRawFrame f2 (samplerTicks [] (onRawFrame f1 init))) = recording /\
  2 <= framesSeen (onRawFrame f2 (samplerTicks [] (onRawFrame f1 init))).
Proof.
  intros f1 f2.
  split; [apply reachable_init |].
  split; [reflexivity |]. split; [reflexivity |]. split; [reflexivity |].
  exact (idle_two_frames_arming_then_recording "/cache" (fun _ => "") init f1 f2 []
           (reachable_init _ _) eq_refl eq_refl eq_refl).
Defined.

(** C6.  A truthy frame raises [framesSeen] by exactly one in every state,
    whatever the status; when the raw-frame buffer is at its cap the frame
    is not stored and is counted all the same. *)
Theorem framesSeen_counts_every_truthy_frame (w : World) (frame : JsVal) :
  truthy frame = true ->
  framesSeen (onRawFrame frame w) = framesSeen w + 1 /\
  (MAX_RAW_FRAMES <= Z.of_nat (List.length (rawFrames w)) ->
   rawFrames (onRawFrame frame w) = rawFrames w).
Proof.
  intro Ht. split; [now apply framesSeen_onRawFrame |].
  intro Hfull. destruct (normalizeRawFrame_truthy frame Ht) as [nf Hnf].
  rewrite (rawFrames_onRawFrame frame nf w Hnf).
  assert (H : (Z.of_nat (List.length (rawFrames w)) <? MAX_RAW_FRAMES) = false)
    by (apply Z.ltb_ge; exact Hfull).
  now rewrite H.
Qed.

Lemma framesSeen_counts_witness :
  let w := set_status ready init in
  truthy (JBool true) = true /\
  framesSeen (onRawFrame (JBool true) w) = framesSeen w + 1 /\
  (MAX_RAW_FRAMES <= Z.of_nat (List.length (rawFrames w)) ->
   rawFrames (onRawFrame (JBool true) w) = rawFrames w).
Proof.
  intro w. split; [reflexivity |].
  exact (framesSeen_counts_every_truthy_frame w (JBool true) eq_refl).
Defined.

(** C10.  In the statuses [ready], [error] and [finalizing] a truthy frame
    leaves the status alone, and is ingested all the same: its normal form
    is appended to the raw-frame buffer while the buffer is below its cap,
    and [framesSeen] goes up by one. *)
Theorem frame_ingested_outside_recording (w : World) (frame : JsVal) :
  status w = ready \/ status w = error \/ status w = finalizing ->
  truthy frame = true ->
  exists nf,
    normalizeRawFrame frame = Some nf /\
    status (onRawFrame frame w) = status w /\
    rawFrames (onRawFrame frame w) =
      (if Z.of_nat (List.length (rawFrames w)) <? MAX_RAW_FRAMES
       then (rawFrames w ++ [nf])%list else rawFrames w) /\
    framesSeen (onRawFrame frame w) = framesSeen w + 1.
Proof.
  intros Hs Ht. destruct (normalizeRawFrame_truthy frame Ht) as [nf Hnf].
  exists nf. split; [exact Hnf |]. split; [| split].
  - rewrite status_onRawFrame by assumption.
    destruct Hs as [Hs | [Hs | Hs]]; now rewrite Hs.
  - exact (rawFrames_onRawFrame frame nf w Hnf).
  - now apply framesSeen_onRawFrame.
Qed.

Lemma frame_ingested_outside_recording_witness :
  let w := set_status error init in
  let frame := JObj [("bytes", JArr [JNum 10])] in
  (status w = ready \/ status w = error \/ status w = finalizing) /\
  truthy frame = true /\
  exists nf,
    normalizeRawFrame frame = Some nf /\
    status (onRawFrame frame w) = status w /\
    rawFrames (onRawFrame frame w) =
      (if Z.of_nat (List.length (rawFrames w)) <? MAX_RAW_FRAMES
       then (rawFrames w ++ [nf])%list else rawFrames w) /\
    framesSeen (onRawFrame frame w) = framesSeen w + 1.
Proof.
  intros w frame.
  assert (Hs : status w = ready \/ status w = error \/ status w = finalizing)
    by (right; left; reflexivity).
  assert (Ht : truthy frame = true) by reflexivity.
  split; [exact Hs |]. split; [exact Ht |].
  exact (frame_ingested_outside_recording w frame Hs Ht).
Defined.

(* ------------------------------------------------------------------------- *)
(** ** Buffer caps *)
(* ------------------------------------------------------------------------- *)

(** C2.  In every state the recorder can reach, by any sequence of frames,
    sampler ticks, watchdog expiries, calls of [finalize] and [reset] and
    settlements of the export's requests, the raw-frame buffer holds at most
    500,000 frames and the snapshot buffer at most 100,000 snapshots. *)
Theorem buffers_within_caps
    (CachesDirectoryPath : string) (unparse : list Snapshot -> string)
    (w : World) :
  reachable CachesDirectoryPath unparse w ->
  Z.of_nat (List.length (rawFrames w)) <= 500000 /\
  Z.of_nat (List.length (snapshots w)) <= 100000.
Proof.
  intro Hreach. pose proof (Inv_reachable _ _ w Hreach) as I.
  split; [exact (inv_raw w I) | exact (inv_snap w I)].
Qed.



Lemma run_two_frames_one_tick :
  run "/cache" (fun _ => "") two_frames_one_tick init = Some after_two_frames_one_tick.
Proof. vm_compute. reflexivity. Qed.

Lemma reachable_after_two_frames_one_tick :
  reachable "/cache" (fun _ => "") after_two_frames_one_tick.
Proof.
  exact (run_reachable _ _ two_frames_one_tick init _
           (reachable_init _ _) run_two_frames_one_tick).
Qed.

Lemma buffers_within_caps_witness :
  reachable "/cache" (fun _ => "") after_two_frames_one_tick /\
  Z.of_nat (List.length (rawFrames after_two_frames_one_tick)) <= 500000 /\
  Z.of_nat (List.length (snapshots after_two_frames_one_tick)) <= 100000.
Proof.
  split; [exact reachable_after_two_frames_one_tick |].
  exact (buffers_within_caps "/cache" (fun _ => "") after_two_frames_one_tick
           reachable_after_two_frames_one_tick).
Defined.

(* ------------------------------------------------------------------------- *)
(** ** The timers *)
(* ------------------------------------------------------------------------- *)

Lemma remove_id_same (h : nat) : remove_id h [h] = [].
Proof. unfold remove_id. cbn. now rewrite Nat.eqb_refl. Qed.

Lemma mem_id_single (h h' : nat) : mem_id h [h'] = true -> h = h'.
Proof.
  unfold mem_id. cbn. rewrite orb_false_r. apply Nat.eqb_eq.
Qed.

Lemma TimerInv_init : TimerInv init.
Proof. split; cbn; [reflexivity | now left]. Qed.

Lemma TimerInv_ext (w w' : World) :
  samplerTimer w' = samplerTimer w -> inactivityTimer w' = inactivityTimer w ->
  intervals w' = intervals w -> timeouts w' = timeouts w ->
  TimerInv w -> TimerInv w'.
Proof.
  intros Hs Hi Hint Ht [T1 T2]. split; rewrite ?Hs, ?Hi, ?Hint, ?Ht; assumption.
Qed.

Lemma TimerInv_startSampler (w : World) : TimerInv w -> TimerInv (startSampler w).
Proof.
  intros [T1 T2]. unfold startSampler.
  destruct (samplerTimer w) eqn:Hs; [split; [now rewrite Hs | exact T2] |].
  split; cbn; [now rewrite T1 | exact T2].
Qed.

Lemma TimerInv_stopSampler (w : World) : TimerInv w -> TimerInv (stopSampler w).
Proof.
  intros [T1 T2]. unfold stopSampler.
  destruct (samplerTimer w) eqn:Hs; [| split; [now rewrite Hs | exact T2]].
  split; cbn; [rewrite T1; apply remove_id_same | exact T2].
Qed.

Lemma TimerInv_armInactivityTimeout (w : World) :
  TimerInv w -> TimerInv (armInactivityTimeout w).
Proof.
  intros [T1 T2]. unfold armInactivityTimeout.
  destruct (inactivityTimer w) as [h |] eqn:Hi; split; cbn; try exact T1; right.
  - eexists. split; [reflexivity |].
    destruct T2 as [T2 | [h' [Hh' T2]]]; rewrite T2; [reflexivity |].
    injection Hh' as <-. now rewrite remove_id_same.
  - eexists. split; [reflexivity |].
    destruct T2 as [T2 | [h' [Hh' T2]]]; [now rewrite T2 | discriminate].
Qed.

(** A timeout that fires leaves the table; the stale handle stays in the
    field. *)
Lemma TimerInv_fired (h : TimerId) (w : World) :
  TimerInv w -> mem_id h (timeouts w) = true -> TimerInv (clearTimeout h w).
Proof.
  intros [T1 T2] Hin. split; cbn; [exact T1 |]. left.
  destruct T2 as [T2 | [h' [_ T2]]]; rewrite T2 in *; [discriminate |].
  apply mem_id_single in Hin. subst h'. apply remove_id_same.
Qed.

(** Assignments that touch no timer. *)
Ltac no_timer := apply TimerInv_ext; reflexivity.

Lemma TimerInv_set_status v w : TimerInv w -> TimerInv (set_status v w).
Proof. no_timer. Qed.
Lemma TimerInv_set_rawFrames v w : TimerInv w -> TimerInv (set_rawFrames v w).
Proof. no_timer. Qed.
Lemma TimerInv_set_snapshots v w : TimerInv w -> TimerInv (set_snapshots v w).
Proof. no_timer. Qed.
Lemma TimerInv_set_framesSeen v w : TimerInv w -> TimerInv (set_framesSeen v w).
Proof. no_timer. Qed.
Lemma TimerInv_set_latestDecoded v w : TimerInv w -> TimerInv (set_latestDecoded v w).
Proof. no_timer. Qed.
Lemma TimerInv_set_listeners v w : TimerInv w -> TimerInv (set_listeners v w).
Proof. no_timer. Qed.
Lemma TimerInv_set_tasks v w : TimerInv w -> TimerInv (set_tasks v w).
Proof. no_timer. Qed.
Lemma TimerInv_set_paths a b c d w : TimerInv w -> TimerInv (set_paths a b c d w).
Proof. no_timer. Qed.
Lemma TimerInv_notify w : TimerInv w -> TimerInv (notify w).
Proof. no_timer. Qed.
Lemma TimerInv_request r w : TimerInv w -> TimerInv (request r w).
Proof. no_timer. Qed.

(** Strip the assignments that touch no timer, use the three timer methods. *)
Ltac timers :=
  repeat first
    [ assumption
    | apply TimerInv_startSampler
    | apply TimerInv_stopSampler
    | apply TimerInv_armInactivityTimeout
    | apply TimerInv_notify
    | apply TimerInv_request
    | apply TimerInv_set_status
    | apply TimerInv_set_rawFrames
    | apply TimerInv_set_snapshots
    | apply TimerInv_set_framesSeen
    | apply TimerInv_set_latestDecoded
    | apply TimerInv_set_listeners
    | apply TimerInv_set_tasks
    | apply TimerInv_set_paths ].

Lemma TimerInv_onRawFrame (frame : JsVal) (w : World) :
  TimerInv w -> TimerInv (onRawFrame frame w).
Proof.
  intro T.
  destruct (normalizeRawFrame frame) as [nf |] eqn:Hnf;
    [| unfold onRawFrame; now rewrite Hnf].
  rewrite (onRawFrame_unfold frame nf w Hnf). cbv zeta.
  destruct (Z.of_nat (List.length (rawFrames w)) <? MAX_RAW_FRAMES);
    destruct (status w); try destruct (2 <=? framesSeen w + 1); timers.
Qed.

Lemma TimerInv_samplerTick (snap : Snapshot) (w : World) :
  TimerInv w -> TimerInv (samplerTick snap w).
Proof.
  intro T. unfold samplerTick.
  destruct (Z.of_nat (List.length (snapshots w)) <? MAX_SNAPSHOTS); timers.
Qed.

Lemma TimerInv_reset (w : World) : TimerInv w -> TimerInv (reset w).
Proof.
  intro T. apply TimerInv_stopSampler in T. unfold reset.
  destruct T as [T1 T2].
  destruct (inactivityTimer (stopSampler w)) as [h |] eqn:Hi.
  - split; cbn; [exact T1 |]. left.
    destruct T2 as [T2 | [h' [Hh' T2]]]; rewrite T2; [reflexivity |].
    injection Hh' as <-. apply remove_id_same.
  - split; cbn; [exact T1 |]. rewrite ?Hi.
    destruct T2 as [T2 | [h' [Hh' T2]]]; [now left | discriminate].
Qed.

Section ExportTimers.

Variable CachesDirectoryPath : string.
Variable unparse : list Snapshot -> string.

Lemma TimerInv_park (p : World * Progress) : TimerInv (fst p) -> TimerInv (park p).
Proof. destruct p as [w [o | t]]; cbn; intro T; timers. Qed.

Lemma TimerInv_finalize_begin (now : string) (w : World) :
  TimerInv w -> TimerInv (fst (finalize_begin CachesDirectoryPath now w)).
Proof.
  intro T. unfold finalize_begin.
  destruct (status_eqb (status w) finalizing); [exact T |].
  match goal with |- context [if ?c then _ else _] => destruct c end;
    cbn [fst]; timers.
Qed.

Lemma TimerInv_finalize_resume (t : Task) (r : IOResult) (w : World) :
  TimerInv w -> TimerInv (fst (finalize_resume unparse t r w)).
Proof.
  intro T. unfold finalize_resume.
  destruct r as [v | e]; [destruct (waiting t) |]; cbn [fst]; timers.
Qed.

Lemma TimerInv_watchdog (now : string) (w : World) :
  TimerInv w -> TimerInv (watchdog CachesDirectoryPath now w).
Proof.
  intro T. unfold watchdog.
  destruct (status_eqb (status w) recording).
  - apply TimerInv_park, TimerInv_finalize_begin, T.
  - destruct (status_eqb (status w) arming); [apply TimerInv_reset, T | exact T].
Qed.

Lemma TimerInv_step (e : Event) (w w' : World) :
  TimerInv w -> step CachesDirectoryPath unparse e w = Some w' -> TimerInv w'.
Proof.
  intros T Hstep. destruct e; cbn [step] in Hstep.
  - injection Hstep as <-. unfold subscribe.
    destruct (mem_id fn (listeners w)); timers.
  - injection Hstep as <-. unfold unsubscribe. timers.
  - injection Hstep as <-. unfold updateDecoded. timers.
  - injection Hstep as <-. apply TimerInv_onRawFrame, T.
  - injection Hstep as <-. apply TimerInv_park, TimerInv_finalize_begin, T.
  - injection Hstep as <-. apply TimerInv_reset, T.
  - destruct (mem_id h (intervals w)); [| discriminate].
    injection Hstep as <-. apply TimerInv_samplerTick, T.
  - destruct (mem_id h (timeouts w)) eqn:Hin; [| discriminate].
    injection Hstep as <-. apply TimerInv_watchdog, TimerInv_fired; assumption.
  - destruct (nth_error (tasks w) k) as [t |]; [| discriminate].
    injection Hstep as <-. apply TimerInv_park, TimerInv_finalize_resume. timers.
Qed.

(** In every reachable state the sampler ticks only while [samplerTimer]
    is set, and at most one inactivity timeout is pending. *)
Lemma TimerInv_reachable (w : World) :
  reachable CachesDirectoryPath unparse w -> TimerInv w.
Proof.
  induction 1 as [| w w' e _ IH Hstep]; [exact TimerInv_init |].
  exact (TimerInv_step e w w' IH Hstep).
Qed.

End ExportTimers.

(* ------------------------------------------------------------------------- *)
(** ** finalize *)
(* ------------------------------------------------------------------------- *)

Section FinalizeStart.

Variable CachesDirectoryPath : string.

(** The three ways [finalize] can start. *)
Lemma finalize_begin_guard (now : string) (w : World) :
  status w = finalizing ->
  finalize_begin CachesDirectoryPath now w = (w, Done Resolved).
Proof. intro Hs. unfold finalize_begin. now rewrite Hs. Qed.

Lemma finalize_begin_empty (now : string) (w : World) :
  status w <> finalizing ->
  snapshots w = [] \/ rawFrames w = [] ->
  finalize_begin CachesDirectoryPath now w =
  (notify (set_status idle (stopSampler (notify (set_status finalizing w)))),
   Done Resolved).
Proof.
  intros Hs Hempty. unfold finalize_begin.
  destruct (status_eqb (status w) finalizing) eqn:Hg;
    [apply status_eqb_eq in Hg; contradiction |].
  match goal with |- context [if ?c then _ else _] =>
    assert (Hc : c = true); [| now rewrite Hc] end.
  fields. destruct Hempty as [H | H]; rewrite H; cbn;
    [reflexivity | apply orb_true_r].
Qed.

Lemma finalize_begin_export (now : string) (w : World) :
  status w <> finalizing ->
  snapshots w <> [] ->
  rawFrames w <> [] ->
  let folder := CachesDirectoryPath ++ "/export_" ++ safe_separators now in
  finalize_begin CachesDirectoryPath now w =
  (request (Mkdir folder) (stopSampler (notify (set_status finalizing w))),
   Await {| folder := folder;
            csv := folder ++ "/data.csv";
            trc := folder ++ "/data.trc";
            zipOut := CachesDirectoryPath ++ "/export_" ++ safe_separators now ++ ".zip";
            waiting := AwaitMkdir |}).
Proof.
  intros Hs Hn Hr folder. unfold finalize_begin.
  destruct (status_eqb (status w) finalizing) eqn:Hg;
    [apply status_eqb_eq in Hg; contradiction |].
  match goal with |- context [if ?c then _ else _] =>
    assert (Hc : c = false); [| now rewrite Hc] end.
  fields. destruct (snapshots w); [contradiction |].
  destruct (rawFrames w); [contradiction | reflexivity].
Qed.

End FinalizeStart.

(** C4.  In every state the recorder can reach in which the snapshot buffer
    or the raw-frame buffer is empty, [finalize()] resolves without ever
    awaiting: it issues no directory, file or archive request, records no
    path, and leaves the status at [idle]. *)
Theorem finalize_on_empty_buffer_returns_to_idle
    (CachesDirectoryPath : string) (unparse : list Snapshot -> string)
    (now : string) (w : World) :
  reachable CachesDirectoryPath unparse w ->
  snapshots w = [] \/ rawFrames w = [] ->
  let w' := fst (finalize_begin CachesDirectoryPath now w) in
  snd (finalize_begin CachesDirectoryPath now w) = Done Resolved /\
  status w' = idle /\
  ioLog w' = ioLog w /\
  paths w' = paths w /\
  step CachesDirectoryPath unparse (EvFinalize now) w = Some w' /\
  tasks w' = tasks w.
Proof.
  intros Hreach Hempty w'.
  assert (Hs : status w <> finalizing).
  { intro Hs.
    destruct (inv_finalizing w (Inv_reachable _ _ w Hreach) Hs) as [Hr Hn].
    destruct Hempty; contradiction. }
  assert (Hstep : step CachesDirectoryPath unparse (EvFinalize now) w = Some w').
  { unfold w'. cbn [step].
    now rewrite (finalize_begin_empty CachesDirectoryPath now w Hs Hempty). }
  unfold w' in *.
  rewrite (finalize_begin_empty CachesDirectoryPath now w Hs Hempty) in *.
  cbn [fst snd]. unfold paths.
  repeat split; fields; try reflexivity; exact Hstep.
Qed.

Lemma reachable_after_one_frame :
  reachable "/cache" (fun _ => "") (onRawFrame frame_a init).
Proof.
  exact (reachable_step _ _ init _ (EvRawFrame frame_a) (reachable_init _ _) eq_refl).
Qed.

Lemma finalize_on_empty_buffer_witness :
  let w := onRawFrame frame_a init in
  let w' := fst (finalize_begin "/cache" "03/11/2026, 10:15:02" w) in
  reachable "/cache" (fun _ => "") w /\
  (snapshots w = [] \/ rawFrames w = []) /\
  snd (finalize_begin "/cache" "03/11/2026, 10:15:02" w) = Done Resolved /\
  status w' = idle /\
  ioLog w' = ioLog w /\
  paths w' = paths w /\
  step "/cache" (fun _ => "") (EvFinalize "03/11/2026, 10:15:02") w = Some w' /\
  tasks w' = tasks w.
Proof.
  intros w w'.
  assert (Hempty : snapshots w = [] \/ rawFrames w = []) by (left; reflexivity).
  split; [exact reachable_after_one_frame |]. split; [exact Hempty |].
  exact (finalize_on_empty_buffer_returns_to_idle "/cache" (fun _ => "")
           "03/11/2026, 10:15:02" w reachable_after_one_frame Hempty).
Defined.

Section FinalizeCall.

Variable CachesDirectoryPath : string.
Variable unparse : list Snapshot -> string.
Variable io : ExportStep -> IOResult.
Variable between : ExportStep -> World -> World.

Lemma settle_done (r : Run) (o : Outcome) :
  progress r = Done o -> settle unparse io between r = r.
Proof. intro H. unfold settle. now rewrite H. Qed.

(** A failed request ends the call in the [catch] block. *)
Lemma settle_fail (r : Run) (t : Task) (e : string) :
  progress r = Await t ->
  io (step_of (waiting t)) = IOErr e ->
  settle unparse io between r =
  {| world := notify (set_status error (between (step_of (waiting t)) (world r)));
     progress := Done (Rejected e);
     awaited := awaited r ++ [step_of (waiting t)] |}.
Proof.
  intros Hp Hio. unfold settle, finalize_resume. now rewrite Hp, Hio.
Qed.

Lemma settle_pass (r : Run) (t : Task) (v : string) :
  progress r = Await t ->
  io (step_of (waiting t)) = IOOk v ->
  step_of (waiting t) <> StepZip ->
  exists t',
    progress (settle unparse io between r) = Await t' /\
    follows (step_of (waiting t)) (step_of (waiting t')) /\
    folder t' = folder t /\ csv t' = csv t /\ trc t' = trc t /\
    awaited (settle unparse io between r) = (awaited r ++ [step_of (waiting t)])%list.
Proof.
  intros Hp Hio Hlast. unfold settle, finalize_resume. rewrite Hp, Hio.
  destruct (waiting t); try (now contradiction Hlast);
    eexists; cbn; repeat split; reflexivity.
Qed.

(** The archive is the last request: the paths are recorded and the status
    becomes [ready]. *)
Lemma settle_last (r : Run) (t : Task) (v : string) :
  progress r = Await t ->
  step_of (waiting t) = StepZip ->
  io StepZip = IOOk v ->
  settle unparse io between r =
  {| world :=
       notify (set_status ready
                 (set_paths (Some (folder t)) (Some (csv t)) (Some (trc t)) (Some v)
                    (between StepZip (world r))));
     progress := Done Resolved;
     awaited := awaited r ++ [StepZip] |}.
Proof.
  intros Hp Hs Hio. unfold settle, finalize_resume. rewrite Hp, Hs, Hio.
  now destruct (waiting t).
Qed.

(** A call that returns before its first [await]. *)
Lemma returned_as_claimed (now : string) (w : World) :
  status w <> error ->
  settled_as_claimed CachesDirectoryPath io now {| world := w; progress := Done Resolved; awaited := [] |}.
Proof.
  intro Hs. exists Resolved. cbn. split; [reflexivity |]. split; [| split].
  - intro e. split; [discriminate | intros [s [[] _]]].
  - split; [intro H; contradiction | intros [e He]; discriminate].
  - intros _ H. now contradiction H.
Qed.

(** A call whose request [s] failed after the requests before it passed. *)
Lemma rejected_as_claimed (now : string) (w : World) (e : string)
    (passed : list ExportStep) (s : ExportStep) :
  (forall s', In s' passed -> exists v, io s' = IOOk v) ->
  io s = IOErr e ->
  status w = error ->
  settled_as_claimed CachesDirectoryPath io now
    {| world := w; progress := Done (Rejected e); awaited := passed ++ [s] |}.
Proof.
  intros Hpassed Hio Hs. exists (Rejected e). cbn.
  split; [reflexivity |]. split; [| split].
  - intro e'. split.
    + intro H. injection H as <-. exists s. split; [| exact Hio].
      apply in_or_app. right. now left.
    + intros [s' [Hin Hio']]. apply in_app_or in Hin.
      destruct Hin as [Hin | [<- | []]].
      * destruct (Hpassed s' Hin) as [v Hv]. congruence.
      * congruence.
  - split; [intros _; now exists e | intros _; exact Hs].
  - discriminate.
Qed.

End FinalizeCall.

(** A call of [finalize] followed to its end, whatever it meets. *)
Lemma finalize_settles
    (CachesDirectoryPath : string) (unparse : list Snapshot -> string)
    (io : ExportStep -> IOResult) (between : ExportStep -> World -> World)
    (now : string) (w : World) :
  settled_as_claimed CachesDirectoryPath io now
    (finalize CachesDirectoryPath unparse io between now w).
Proof.
  unfold finalize.
  destruct (status_eqb (status w) finalizing) eqn:Hg.
  { (* the guard *)
    apply status_eqb_eq in Hg.
    rewrite (finalize_begin_guard CachesDirectoryPath now w Hg).
    rewrite !(settle_done unparse io between _ Resolved) by reflexivity.
    apply returned_as_claimed. rewrite Hg. discriminate. }
  assert (Hs : status w <> finalizing).
  { intro H. apply status_eqb_eq in H. rewrite H in Hg. discriminate. }
  assert (Hcases : (snapshots w = [] \/ rawFrames w = []) \/
                   (snapshots w <> [] /\ rawFrames w <> [])).
  { destruct (snapshots w); [left; now left |].
    destruct (rawFrames w); [left; now right |].
    right. split; discriminate. }
  destruct Hcases as [Hempty | [Hn Hr]].
  { (* nothing to export *)
    rewrite (finalize_begin_empty CachesDirectoryPath now w Hs Hempty).
    rewrite !(settle_done unparse io between _ Resolved) by reflexivity.
    apply returned_as_claimed. discriminate. }
  rewrite (finalize_begin_export CachesDirectoryPath now w Hs Hn Hr).
  set (dir := CachesDirectoryPath ++ "/export_" ++ safe_separators now).
  set (t0 := {| folder := dir; csv := dir ++ "/data.csv";
                trc := dir ++ "/data.trc";
                zipOut := CachesDirectoryPath ++ "/export_" ++ safe_separators now ++ ".zip";
                waiting := AwaitMkdir |}).
  set (r0 := {| world := request (Mkdir dir)
                           (stopSampler (notify (set_status finalizing w)));
                progress := Await t0; awaited := [] |}).
  assert (Hp0 : progress r0 = Await t0) by reflexivity.
  assert (Ha0 : awaited r0 = []) by reflexivity.
  clearbody r0.
  (* mkdir *)
  destruct (io StepMkdir) as [v1 | e1] eqn:H1.
  2:{ rewrite (settle_fail unparse io between r0 t0 e1 Hp0 H1).
      rewrite !(settle_done unparse io between _ (Rejected e1)) by reflexivity.
      rewrite Ha0. apply (rejected_as_claimed CachesDirectoryPath io now _ e1 []);
        [intros s' [] | exact H1 | reflexivity]. }
  destruct (settle_pass unparse io between r0 t0 v1 Hp0 H1)
    as [t1 [Hp1 [Hf1 [Hfo1 [Hcsv1 [Htrc1 Ha1]]]]]]; [discriminate |].
  remember (settle unparse io between r0) as r1 eqn:Er1. clear Er1.
  rewrite Ha0 in Ha1. cbn in Ha1, Hf1.
  assert (Hst1 : step_of (waiting t1) = StepWriteCsv)
    by (destruct (step_of (waiting t1)); try contradiction; reflexivity).
  (* data.csv *)
  destruct (io StepWriteCsv) as [v2 | e2] eqn:H2.
  2:{ rewrite <- Hst1 in H2.
      rewrite (settle_fail unparse io between r1 t1 e2 Hp1 H2).
      rewrite !(settle_done unparse io between _ (Rejected e2)) by reflexivity.
      rewrite Ha1, Hst1 in *.
      apply (rejected_as_claimed CachesDirectoryPath io now _ e2 [StepMkdir]);
        [intros s' [<- | []]; eauto | exact H2 | reflexivity]. }
  assert (H2' : io (step_of (waiting t1)) = IOOk v2) by now rewrite Hst1.
  destruct (settle_pass unparse io between r1 t1 v2 Hp1 H2')
    as [t2 [Hp2 [Hf2 [Hfo2 [Hcsv2 [Htrc2 Ha2]]]]]]; [rewrite Hst1; discriminate |].
  remember (settle unparse io between r1) as r2 eqn:Er2. clear Er2.
  rewrite Ha1, Hst1 in Ha2. rewrite Hst1 in Hf2. cbn in Ha2, Hf2.
  assert (Hst2 : step_of (waiting t2) = StepWriteTrc)
    by (destruct (step_of (waiting t2)); try contradiction; reflexivity).
  (* data.trc *)
  destruct (io StepWriteTrc) as [v3 | e3] eqn:H3.
  2:{ rewrite <- Hst2 in H3.
      rewrite (settle_fail unparse io between r2 t2 e3 Hp2 H3).
      rewrite !(settle_done unparse io between _ (Rejected e3)) by reflexivity.
      rewrite Ha2, Hst2 in *.
      apply (rejected_as_claimed CachesDirectoryPath io now _ e3
               [StepMkdir; StepWriteCsv]);
        [intros s' [<- | [<- | []]]; eauto | exact H3 | reflexivity]. }
  assert (H3' : io (step_of (waiting t2)) = IOOk v3) by now rewrite Hst2.
  destruct (settle_pass unparse io between r2 t2 v3 Hp2 H3')
    as [t3 [Hp3 [Hf3 [Hfo3 [Hcsv3 [Htrc3 Ha3]]]]]]; [rewrite Hst2; discriminate |].
  remember (settle unparse io between r2) as r3 eqn:Er3. clear Er3.
  rewrite Ha2, Hst2 in Ha3. rewrite Hst2 in Hf3. cbn in Ha3, Hf3.
  assert (Hst3 : step_of (waiting t3) = StepZip)
    by (destruct (step_of (waiting t3)); try contradiction; reflexivity).
  (* the archive *)
  destruct (io StepZip) as [v4 | e4] eqn:H4.
  2:{ rewrite <- Hst3 in H4.
      rewrite (settle_fail unparse io between r3 t3 e4 Hp3 H4).
      rewrite Ha3, Hst3 in *.
      apply (rejected_as_claimed CachesDirectoryPath io now _ e4
               [StepMkdir; StepWriteCsv; StepWriteTrc]);
        [intros s' [<- | [<- | [<- | []]]]; eauto | exact H4 | reflexivity]. }
  rewrite (settle_last unparse io between r3 t3 v4 Hp3 Hst3 H4).
  rewrite Ha3, Hfo3, Hfo2, Hfo1, Hcsv3, Hcsv2, Hcsv1, Htrc3, Htrc2, Htrc1.
  exists Resolved. cbn. split; [reflexivity |]. split; [| split].
  - intro e. split; [discriminate |].
    intros [s [[<- | [<- | [<- | [<- | []]]]] Hio]]; congruence.
  - split; [discriminate | intros [e He]; discriminate].
  - intros _ _. split; [reflexivity |]. split; [intros []; eauto |].
    split; [reflexivity |]. exists v4. split; [exact H4 | reflexivity].
Qed.

Section FinalizeAwaits.

Variable CachesDirectoryPath : string.
Variable unparse : list Snapshot -> string.
Variable io : ExportStep -> IOResult.
Variable between : ExportStep -> World -> World.

Lemma settle_await (r : Run) (t : Task) :
  progress r = Await t ->
  awaited (settle unparse io between r)
  = (awaited r ++ [step_of (waiting t)])%list.
Proof.
  intro Hp. unfold settle. rewrite Hp. cbv zeta.
  now destruct (finalize_resume unparse t _ _).
Qed.

Lemma settle_extends (r : Run) :
  exists l, awaited (settle unparse io between r) = (awaited r ++ l)%list.
Proof.
  destruct (progress r) as [o | t] eqn:Hp.
  - exists []. now rewrite (settle_done unparse io between r o Hp), app_nil_r.
  - exists [step_of (waiting t)]. now apply settle_await.
Qed.

(** A call that finds the status at [finalizing] or a buffer empty returns
    without a request. *)
Lemma finalize_returns_early (now : string) (w : World) :
  status w = finalizing \/ snapshots w = [] \/ rawFrames w = [] ->
  let r := finalize CachesDirectoryPath unparse io between now w in
  awaited r = [] /\ progress r = Done Resolved /\ paths (world r) = paths w.
Proof.
  intros Hearly r. subst r. unfold finalize.
  destruct (status_eqb (status w) finalizing) eqn:Hg.
  - apply status_eqb_eq in Hg.
    rewrite (finalize_begin_guard CachesDirectoryPath now w Hg).
    rewrite !(settle_done unparse io between _ Resolved) by reflexivity.
    now repeat split.
  - assert (Hs : status w <> finalizing).
    { intro H. apply status_eqb_eq in H. rewrite H in Hg. discriminate. }
    destruct Hearly as [H | Hempty]; [contradiction |].
    rewrite (finalize_begin_empty CachesDirectoryPath now w Hs Hempty).
    rewrite !(settle_done unparse io between _ Resolved) by reflexivity.
    cbn [world progress awaited]. split; [reflexivity |]. split; [reflexivity |].
    unfold paths. fields. reflexivity.
Qed.

(** A call that gets past both early returns awaits the folder first. *)
Lemma finalize_awaits_mkdir (now : string) (w : World) :
  status w <> finalizing -> snapshots w <> [] -> rawFrames w <> [] ->
  exists rest,
    awaited (finalize CachesDirectoryPath unparse io between now w)
    = StepMkdir :: rest.
Proof.
  intros Hs Hn Hr. unfold finalize.
  rewrite (finalize_begin_export CachesDirectoryPath now w Hs Hn Hr).
  match goal with
  | |- context [settle _ _ _ (settle _ _ _ (settle _ _ _ (settle _ _ _ ?r0)))] =>
    pose proof (settle_await r0 _ eq_refl) as H1;
    remember (settle unparse io between r0) as r1 eqn:E1; clear E1
  end.
  cbn in H1.
  destruct (settle_extends r1) as [l2 H2].
  remember (settle unparse io between r1) as r2 eqn:E2. clear E2.
  destruct (settle_extends r2) as [l3 H3].
  remember (settle unparse io between r2) as r3 eqn:E3. clear E3.
  destruct (settle_extends r3) as [l4 H4].
  rewrite H4, H3, H2, H1. eexists. cbn. reflexivity.
Qed.

End FinalizeAwaits.

(** C5.  Follow a call of [finalize()] until its promise settles, letting
    each awaited request settle as [io] says and letting the event loop do
    anything at all ([between]) while the call waits.  The call always
    settles, and
    - it rejects with [e] exactly when a request it awaited failed with [e];
    - it leaves the status at [error] exactly when it rejects;
    - when it resolves after awaiting requests, all four were awaited and
      succeeded, the status is [ready], and the recorded paths are the
      export folder, its [data.csv] and [data.trc], and the path the
      archiver returned;
    - a call that finds the status at [finalizing] or a buffer empty awaits
      nothing, resolves and leaves the paths alone;
    - any other call runs the export: it awaits the folder first; if a step
      of the sequence fails it rejects and the status is [error]; if all
      four succeed it resolves, the status is [ready] and the four paths
      are recorded. *)
Theorem finalize_rejects_iff_export_step_fails
    (CachesDirectoryPath : string) (unparse : list Snapshot -> string)
    (io : ExportStep -> IOResult) (between : ExportStep -> World -> World)
    (now : string) (w : World) :
  let r := finalize CachesDirectoryPath unparse io between now w in
  let folder := CachesDirectoryPath ++ "/export_" ++ safe_separators now in
  exists o,
    progress r = Done o /\
    (forall e, o = Rejected e <-> exists s, In s (awaited r) /\ io s = IOErr e) /\
    (status (world r) = error <-> exists e, o = Rejected e) /\
    (o = Resolved -> awaited r <> [] ->
     awaited r = [StepMkdir; StepWriteCsv; StepWriteTrc; StepZip] /\
     (forall s, exists v, io s = IOOk v) /\
     status (world r) = ready /\
     exists zipped,
       io StepZip = IOOk zipped /\
       paths (world r) =
       [Some folder; Some (folder ++ "/data.csv"); Some (folder ++ "/data.trc");
        Some zipped]) /\
    (status w = finalizing \/ snapshots w = [] \/ rawFrames w = [] ->
     awaited r = [] /\ o = Resolved /\ paths (world r) = paths w) /\
    (status w <> finalizing -> snapshots w <> [] -> rawFrames w <> [] ->
     (exists rest, awaited r = StepMkdir :: rest) /\
     ((exists s e, io s = IOErr e) ->
      exists e, o = Rejected e /\ status (world r) = error) /\
     ((forall s, exists v, io s = IOOk v) ->
      o = Resolved /\ status (world r) = ready /\
      exists zipped,
        io StepZip = IOOk zipped /\
        paths (world r) =
        [Some folder; Some (folder ++ "/data.csv"); Some (folder ++ "/data.trc");
         Some zipped])).
Proof.
  intros r folder.
  destruct (finalize_settles CachesDirectoryPath unparse io between now w)
    as [o [Hdone [Hrej [Herr Hok]]]].
  fold r in Hdone, Hrej, Herr, Hok. fold folder in Hok.
  exists o. split; [exact Hdone |]. split; [exact Hrej |].
  split; [exact Herr |]. split; [exact Hok |]. split.
  - intro Hearly.
    destruct (finalize_returns_early CachesDirectoryPath unparse io between
                now w Hearly) as [Ha [Hp Hpaths]].
    fold r in Ha, Hp, Hpaths.
    split; [exact Ha |]. split; [| exact Hpaths]. congruence.
  - intros Hs Hn Hr.
    destruct (finalize_awaits_mkdir CachesDirectoryPath unparse io between
                now w Hs Hn Hr) as [rest Hrest].
    fold r in Hrest.
    assert (Hne : awaited r <> []) by (rewrite Hrest; discriminate).
    split; [now exists rest |]. split.
    + intros [s [e Hfail]].
      destruct o as [| e'].
      * destruct (Hok eq_refl Hne) as [_ [Hall _]].
        destruct (Hall s) as [v Hv]. congruence.
      * exists e'. split; [reflexivity |]. apply Herr. now exists e'.
    + intro Hall.
      destruct o as [| e'].
      * destruct (Hok eq_refl Hne) as [_ [_ [Hready Hpaths]]].
        split; [reflexivity |]. split; [exact Hready | exact Hpaths].
      * destruct (proj1 (Hrej e') eq_refl) as [s [_ Hfail]].
        destruct (Hall s) as [v Hv]. congruence.
Qed.

Lemma finalize_rejects_witness :
  let io := fun s => match s with
                     | StepZip => IOOk "/cache/export.zip"
                     | _ => IOOk ""
                     end in
  let w := after_two_frames_one_tick in
  let r := finalize "/cache" (fun _ => "") io (fun _ w0 => w0)
             "03/11/2026, 10:15:02" w in
  status w <> finalizing /\ snapshots w <> [] /\ rawFrames w <> [] /\
  progress r = Done Resolved /\ status (world r) = ready /\
  paths (world r)
  = [ Some "/cache/export_03-11-2026--10-15-02";
      Some "/cache/export_03-11-2026--10-15-02/data.csv";
      Some "/cache/export_03-11-2026--10-15-02/data.trc";
      Some "/cache/export.zip" ].
Proof.
  intros io w r.
  assert (Hs : status w <> finalizing) by discriminate.
  assert (Hn : snapshots w <> []) by discriminate.
  assert (Hr : rawFrames w <> []) by discriminate.
  split; [exact Hs |]. split; [exact Hn |]. split; [exact Hr |].
  destruct (finalize_rejects_iff_export_step_fails "/cache" (fun _ => "") io
              (fun _ w0 => w0) "03/11/2026, 10:15:02" w)
    as [o [Hdone [_ [_ [_ [_ Hexport]]]]]].
  destruct (Hexport Hs Hn Hr) as [_ [_ Hgood]].
  destruct Hgood as [Ho [Hready [zipped [Hzip Hpaths]]]].
  { intros []; eexists; reflexivity. }
  fold r in Hdone, Hready, Hpaths. subst o.
  split; [exact Hdone |]. split; [exact Hready |].
  unfold io in Hzip. injection Hzip as <-. exact Hpaths.
Defined.

(* ------------------------------------------------------------------------- *)
(** ** Notification of listeners *)
(* ------------------------------------------------------------------------- *)

Lemma notified_notify (w w1 : World) (pre : list (Listener * Observation)) :
  calls w1 = (calls w ++ pre)%list ->
  listeners w1 = listeners w ->
  notified w (notify w1).
Proof.
  intros Hc Hl.
  exists (pre ++ map (fun fn => (fn, observe w1)) (listeners w1))%list. split.
  - cbn. now rewrite Hc, app_assoc.
  - intros fn Hin. apply in_or_app. right.
    change (observe (notify w1)) with (observe w1).
    rewrite Hl. exact (in_map (fun fn => (fn, observe w1)) _ fn Hin).
Qed.

(** Work after the last [notify] that touches nothing a listener can read. *)
Lemma notified_ext (w w1 w2 : World) :
  notified w w1 -> calls w2 = calls w1 -> observe w2 = observe w1 ->
  notified w w2.
Proof.
  intros [added [Hc Hin]] Hc2 Ho. exists added.
  rewrite Hc2, Ho. now split.
Qed.

(** Host bookkeeping before the method runs. *)
Lemma notified_from (w0 w w' : World) :
  calls w0 = calls w -> listeners w0 = listeners w ->
  notified w0 w' -> notified w w'.
Proof.
  intros Hc Hl [added [Hc' Hin]]. exists added.
  rewrite <- Hc, <- Hl. now split.
Qed.

Lemma observe_eq (w w' : World) :
  status w' = status w -> rawFrames w' = rawFrames w ->
  snapshots w' = snapshots w -> paths w' = paths w ->
  observe w' = observe w.
Proof.
  intros Hs Hr Hn Hp. unfold observe, getStatus, getStats.
  now rewrite Hs, Hr, Hn, Hp.
Qed.

Lemma notified_reset (w : World) : notified w (reset w).
Proof.
  unfold reset. apply (notified_notify w _ []).
  - destruct (inactivityTimer (stopSampler w)); fields; now rewrite app_nil_r.
  - destruct (inactivityTimer (stopSampler w)); fields; reflexivity.
Qed.

Lemma notified_samplerTick (snap : Snapshot) (w : World) :
  samplerTick snap w = w \/ notified w (samplerTick snap w).
Proof.
  unfold samplerTick.
  destruct (Z.of_nat (List.length (snapshots w)) <? MAX_SNAPSHOTS);
    [right | now left].
  apply (notified_notify w _ []); cbn; [now rewrite app_nil_r | reflexivity].
Qed.

(** A frame either moves the status and notifies, or is ingested silently. *)
Lemma notified_onRawFrame (frame : JsVal) (w : World) :
  notified w (onRawFrame frame w) \/
  (status (onRawFrame frame w) = status w /\
   calls (onRawFrame frame w) = calls w).
Proof.
  destruct (normalizeRawFrame frame) as [nf |] eqn:Hnf;
    [| right; unfold onRawFrame; rewrite Hnf; now split].
  rewrite (onRawFrame_unfold frame nf w Hnf). cbv zeta.
  destruct (Z.of_nat (List.length (rawFrames w)) <? MAX_RAW_FRAMES) eqn:Hcap;
    destruct (status w) eqn:Hs;
    try destruct (2 <=? framesSeen w + 1) eqn:Hseen;
    try (right; split; fields; now rewrite ?Hs);
    left; apply (notified_notify w _ []); fields; now rewrite ?app_nil_r.
Qed.

Section NotifyExport.

Variable CachesDirectoryPath : string.
Variable unparse : list Snapshot -> string.

Lemma notified_finalize_begin (now : string) (w : World) :
  park (finalize_begin CachesDirectoryPath now w) = w \/
  notified w (park (finalize_begin CachesDirectoryPath now w)).
Proof.
  destruct (status_eqb (status w) finalizing) eqn:Hg.
  - left. apply status_eqb_eq in Hg.
    now rewrite (finalize_begin_guard CachesDirectoryPath now w Hg).
  - right.
    assert (Hs : status w <> finalizing).
    { intro H. apply status_eqb_eq in H. rewrite H in Hg. discriminate. }
    destruct (snapshots w) as [| sn sns] eqn:Hn;
      [| destruct (rawFrames w) as [| rf rfs] eqn:Hr].
    + rewrite (finalize_begin_empty CachesDirectoryPath now w Hs (or_introl Hn)).
      cbn [park].
      apply (notified_notify w _
               (map (fun fn => (fn, observe (set_status finalizing w))) (listeners w)));
        fields; reflexivity.
    + rewrite (finalize_begin_empty CachesDirectoryPath now w Hs (or_intror Hr)).
      cbn [park].
      apply (notified_notify w _
               (map (fun fn => (fn, observe (set_status finalizing w))) (listeners w)));
        fields; reflexivity.
    + assert (Hn' : snapshots w <> []) by (rewrite Hn; discriminate).
      assert (Hr' : rawFrames w <> []) by (rewrite Hr; discriminate).
      rewrite (finalize_begin_export CachesDirectoryPath now w Hs Hn' Hr').
      cbn [park].
      apply (notified_ext w (notify (set_status finalizing w))).
      * apply (notified_notify w _ []); cbn; [now rewrite app_nil_r | reflexivity].
      * fields. reflexivity.
      * apply observe_eq; unfold paths; fields; reflexivity.
Qed.

Lemma notified_finalize_resume (t : Task) (r : IOResult) (w : World) :
  observe (park (finalize_resume unparse t r w)) = observe w \/
  notified w (park (finalize_resume unparse t r w)).
Proof.
  unfold finalize_resume. destruct r as [v | e].
  - destruct (waiting t); cbn [park suspend]; try (left; reflexivity).
    right. apply (notified_notify w _ []); cbn; [now rewrite app_nil_r | reflexivity].
  - right. cbn [park].
    apply (notified_notify w _ []); cbn; [now rewrite app_nil_r | reflexivity].
Qed.

Lemma notified_watchdog (now : string) (w : World) :
  watchdog CachesDirectoryPath now w = w \/
  notified w (watchdog CachesDirectoryPath now w).
Proof.
  unfold watchdog. destruct (status_eqb (status w) recording).
  - apply notified_finalize_begin.
  - destruct (status_eqb (status w) arming); [right; apply notified_reset | now left].
Qed.

End NotifyExport.

(** A counted frame that leaves the status where it is invokes nobody. *)
Lemma silent_frame (frame : JsVal) (w : World) :
  truthy frame = true ->
  status (onRawFrame frame w) = status w ->
  calls (onRawFrame frame w) = calls w.
Proof.
  intro Ht. destruct (normalizeRawFrame_truthy frame Ht) as [nf Hnf].
  rewrite (onRawFrame_unfold frame nf w Hnf). cbv zeta.
  destruct (Z.of_nat (List.length (rawFrames w)) <? MAX_RAW_FRAMES);
    destruct (status w) eqn:Hs;
    try destruct (2 <=? framesSeen w + 1);
    fields; rewrite ?Hs; intro H; try discriminate H; reflexivity.
Qed.

(** The stats pair after a counted frame: one more frame below the cap, the
    same at the cap, and the same number of rows. *)
Lemma getStats_onRawFrame (frame : JsVal) (w : World) :
  truthy frame = true ->
  getStats (onRawFrame frame w)
  = (if fst (getStats w) <? MAX_RAW_FRAMES
     then fst (getStats w) + 1 else fst (getStats w),
     snd (getStats w)).
Proof.
  intro Ht. destruct (normalizeRawFrame_truthy frame Ht) as [nf Hnf].
  unfold getStats. cbn [fst snd].
  rewrite (rawFrames_onRawFrame frame nf w Hnf), snapshots_onRawFrame.
  destruct (Z.of_nat (List.length (rawFrames w)) <? MAX_RAW_FRAMES);
    [| reflexivity].
  rewrite length_app. cbn [List.length]. f_equal. lia.
Qed.

(** The statuses in which a counted frame leaves the status alone. *)
Lemma status_kept_by_frame
    (CachesDirectoryPath : string) (unparse : list Snapshot -> string)
    (frame : JsVal) (w : World) :
  reachable CachesDirectoryPath unparse w ->
  truthy frame = true ->
  status (onRawFrame frame w) = status w <->
  status w = recording \/ status w = finalizing \/ status w = ready \/
  status w = error.
Proof.
  intros H Ht. rewrite (status_onRawFrame frame w Ht).
  pose proof (inv_arming w (Inv_reachable _ _ w H)) as Harm.
  destruct (status w) eqn:Hs.
  - split; [discriminate | intros [C | [C | [C | C]]]; discriminate C].
  - assert (Hle : (2 <=? framesSeen w + 1) = true)
      by (apply Z.leb_le; specialize (Harm eq_refl); lia).
    rewrite Hle.
    split; [discriminate | intros [C | [C | [C | C]]]; discriminate C].
  - split; [intros _; now left | reflexivity].
  - split; [intros _; right; now left | reflexivity].
  - split; [intros _; right; right; now left | reflexivity].
  - split; [intros _; right; right; now right | reflexivity].
Qed.

(** C3, as the code has it.  A turn of the event loop that changes what a
    listener can read (status, stats pair, recorded paths) invokes every
    registered listener, each able to read the new values, with one
    exception: a frame that [onRawFrame] counts without moving the status.
    Every such frame leaves the listeners' invocation log, the snapshots and
    the paths as they were; it raises the frame count by one while the
    buffer is below its cap of 500,000 and leaves it alone at the cap.  In
    the states the recorder can reach these are the counted frames received
    while [recording], [finalizing], [ready] or [error]. *)
Theorem observable_change_notifies_unless_silent_frame
    (CachesDirectoryPath : string) (unparse : list Snapshot -> string)
    (e : Event) (w w' : World) :
  step CachesDirectoryPath unparse e w = Some w' ->
  (observe w' <> observe w ->
   notified w w' \/
   (exists frame,
      e = EvRawFrame frame /\
      status w' = status w /\
      snapshots w' = snapshots w /\
      paths w' = paths w /\
      calls w' = calls w)) /\
  (forall frame,
     e = EvRawFrame frame ->
     truthy frame = true ->
     (status w' = status w ->
      calls w' = calls w /\ snapshots w' = snapshots w /\ paths w' = paths w) /\
     getStats w'
     = (if fst (getStats w) <? MAX_RAW_FRAMES
        then fst (getStats w) + 1 else fst (getStats w),
        snd (getStats w)) /\
     (reachable CachesDirectoryPath unparse w ->
      (status w' = status w <->
       status w = recording \/ status w = finalizing \/ status w = ready \/
       status w = error))).
Proof.
  intro Hstep. split.
  - intro Hobs. destruct e; cbn [step] in Hstep.
    + injection Hstep as <-. exfalso. apply Hobs. unfold subscribe.
      now destruct (mem_id fn (listeners w)).
    + injection Hstep as <-. exfalso. now apply Hobs.
    + injection Hstep as <-. exfalso. now apply Hobs.
    + injection Hstep as <-.
      destruct (notified_onRawFrame frame w) as [H | [Hs Hc]]; [now left |].
      right. exists frame.
      now rewrite snapshots_onRawFrame, paths_onRawFrame.
    + injection Hstep as <-.
      destruct (notified_finalize_begin CachesDirectoryPath now w) as [H | H];
        [rewrite H in Hobs; now contradiction Hobs | now left].
    + injection Hstep as <-. left. apply notified_reset.
    + destruct (mem_id h (intervals w)); [| discriminate].
      injection Hstep as <-.
      destruct (notified_samplerTick snap w) as [H | H];
        [rewrite H in Hobs; now contradiction Hobs | now left].
    + destruct (mem_id h (timeouts w)); [| discriminate].
      injection Hstep as <-.
      destruct (notified_watchdog CachesDirectoryPath now (clearTimeout h w))
        as [H | H].
      * rewrite H in Hobs. now contradiction Hobs.
      * left. revert H. now apply notified_from.
    + destruct (nth_error (tasks w) k) as [t |]; [| discriminate].
      injection Hstep as <-.
      destruct (notified_finalize_resume unparse t r
                  (set_tasks (remove_nth k (tasks w)) w)) as [H | H].
      * rewrite H in Hobs. now contradiction Hobs.
      * left. revert H. now apply notified_from.
  - intros frame He Ht. subst e. cbn [step] in Hstep. injection Hstep as <-.
    split; [| split].
    + intro Hs. split; [exact (silent_frame frame w Ht Hs) |].
      split; [apply snapshots_onRawFrame | apply paths_onRawFrame].
    + exact (getStats_onRawFrame frame w Ht).
    + intro H. exact (status_kept_by_frame _ _ frame w H Ht).
Qed.

Lemma observable_change_witness :
  let w := after_two_frames_one_tick in
  let w' := reset w in
  step "/cache" (fun _ => "") EvReset w = Some w' /\
  observe w' <> observe w /\
  notified w w'.
Proof.
  intros w w'.
  assert (Hstep : step "/cache" (fun _ => "") EvReset w = Some w') by reflexivity.
  assert (Hobs : observe w' <> observe w).
  { intro H. apply (f_equal seen_status) in H. vm_compute in H. discriminate H. }
  split; [exact Hstep |]. split; [exact Hobs |].
  destruct (proj1 (observable_change_notifies_unless_silent_frame
                     "/cache" (fun _ => "") EvReset w w' Hstep) Hobs)
    as [H | [frame [He _]]]; [exact H | discriminate He].
Defined.

(** C3, as the specification words it, fails.  With one listener subscribed
    and the status at [recording], a third frame raises the frame count from
    2 to 3 and no listener is invoked. *)
Lemma frame_while_recording_changes_stats_silently :
  let w := after_two_frames_one_tick in
  let w' := onRawFrame frame_a w in
  reachable "/cache" (fun _ => "") w /\
  step "/cache" (fun _ => "") (EvRawFrame frame_a) w = Some w' /\
  status w = recording /\
  listeners w = [7%nat] /\
  getStats w = (2, 1) /\
  getStats w' = (3, 1) /\
  calls w' = calls w /\
  ~ every_observable_change_notifies.
Proof.
  intros w w'.
  assert (Hcalls : calls w' = calls w) by (vm_compute; reflexivity).
  assert (Hstep : step "/cache" (fun _ => "") (EvRawFrame frame_a) w = Some w')
    by reflexivity.
  split; [exact reachable_after_two_frames_one_tick |].
  split; [exact Hstep |].
  split; [vm_compute; reflexivity |]. split; [vm_compute; reflexivity |].
  split; [vm_compute; reflexivity |]. split; [vm_compute; reflexivity |].
  split; [exact Hcalls |].
  intro Hall.
  assert (Hobs : observe w' <> observe w).
  { intro H. apply (f_equal seen_stats) in H. vm_compute in H. discriminate H. }
  destruct (Hall "/cache" (fun _ => "") (EvRawFrame frame_a) w w'
              reachable_after_two_frames_one_tick Hstep Hobs)
    as [added [Hc Hin]].
  rewrite Hcalls in Hc. rewrite <- (app_nil_r (calls w)) in Hc at 1.
  apply app_inv_head in Hc. subst added.
  exact (Hin 7%nat (or_introl eq_refl)).
Qed.

(* ------------------------------------------------------------------------- *)
(** ** Strings *)
(* ------------------------------------------------------------------------- *)

Import Read.

Lemma length_replicate (n : nat) (c : ascii) : String.length (replicate n c) = n.
Proof. induction n as [| n IH]; cbn; [reflexivity | now rewrite IH]. Qed.

Lemma length_append (a b : string) :
  String.length (a ++ b) = (String.length a + String.length b)%nat.
Proof. induction a as [| c a IH]; cbn; [reflexivity | now rewrite IH]. Qed.

Lemma padStart_left_padded (n : nat) (c : ascii) (s : string) :
  left_padded n c s (padStart n c s).
Proof.
  exists (n - String.length s)%nat. split; [reflexivity |].
  unfold padStart. rewrite length_append, length_replicate. lia.
Qed.

Lemma padEnd_right_padded (n : nat) (c : ascii) (s : string) :
  right_padded n c s (padEnd n c s).
Proof.
  exists (n - String.length s)%nat. split; [reflexivity |].
  unfold padEnd. rewrite length_append, length_replicate. lia.
Qed.

Lemma length_padStart (n : nat) (c : ascii) (s : string) :
  String.length (padStart n c s) = Nat.max n (String.length s).
Proof. destruct (padStart_left_padded n c s) as [k [_ H]]. exact H. Qed.

Lemma all_chars_append (p : ascii -> bool) (a b : string) :
  all_chars p (a ++ b) = all_chars p a && all_chars p b.
Proof.
  induction a as [| c a IH]; cbn; [reflexivity |].
  now rewrite IH, andb_assoc.
Qed.

Lemma all_chars_replicate (p : ascii -> bool) (n : nat) (c : ascii) :
  p c = true -> all_chars p (replicate n c) = true.
Proof. intro H. induction n as [| n IH]; cbn; [reflexivity | now rewrite H, IH]. Qed.

(** Case analysis over the 256 characters. *)
Ltac each_char c := destruct c as [[] [] [] [] [] [] [] []]; vm_compute.

Lemma upper_char_not_lower (c : ascii) : is_lower (upper_char c) = false.
Proof. each_char c; reflexivity. Qed.

Lemma upper_char_hex (c : ascii) (d : N) :
  hex_digit_value c = Some d ->
  is_upper_hex (upper_char c) = true /\ hex_digit_value (upper_char c) = Some d.
Proof. each_char c; intro H; try discriminate H; split; first [reflexivity | exact H]. Qed.

Lemma toUpperCase_no_lower (s : string) :
  all_chars (fun c => negb (is_lower c)) (toUpperCase s) = true.
Proof.
  induction s as [| c s IH]; cbn; [reflexivity |].
  now rewrite upper_char_not_lower, IH.
Qed.

Lemma length_toUpperCase (s : string) :
  String.length (toUpperCase s) = String.length s.
Proof. induction s as [| c s IH]; cbn; [reflexivity | now rewrite IH]. Qed.

Lemma padStart_no_lower (n : nat) (c : ascii) (s : string) :
  is_lower c = false ->
  all_chars (fun c => negb (is_lower c)) s = true ->
  all_chars (fun c => negb (is_lower c)) (padStart n c s) = true.
Proof.
  intros Hc Hs. unfold padStart.
  rewrite all_chars_append, Hs, all_chars_replicate; [reflexivity |].
  now rewrite Hc.
Qed.

(** *** Upper case, character by character *)

Lemma upper_of_upper_char (c : ascii) : upper_of c (upper_char c) = true.
Proof. each_char c; reflexivity. Qed.

Lemma toUpperCase_image (s : string) : upper_image s (toUpperCase s) = true.
Proof.
  induction s as [| c s IH]; cbn; [reflexivity |].
  now rewrite upper_of_upper_char, IH.
Qed.

(** *** Hexadecimal digits *)

Lemma hex_value_from_pos (d : Hexadecimal.uint) (p : positive) :
  hex_value_from (N.pos p)
    (toUpperCase (HexadecimalString.NilEmpty.string_of_uint d))
  = Some (N.pos (Pos.of_hex_uint_acc d p)).
Proof.
  revert p. induction d; intro p; cbn [HexadecimalString.NilEmpty.string_of_uint
    toUpperCase hex_value_from Pos.of_hex_uint_acc]; [reflexivity | ..];
    match goal with
    | |- context [hex_digit_value ?c] =>
      let v := eval vm_compute in (hex_digit_value c) in
      change (hex_digit_value c) with v
    end; cbv iota beta;
    rewrite <- IHd; f_equal; lia.
Qed.

Lemma hex_value_from_zero (d : Hexadecimal.uint) :
  hex_value_from 0 (toUpperCase (HexadecimalString.NilEmpty.string_of_uint d))
  = Some (N.of_hex_uint d).
Proof.
  induction d; cbn [HexadecimalString.NilEmpty.string_of_uint toUpperCase
    hex_value_from]; [reflexivity | ..];
    match goal with
    | |- context [hex_digit_value ?c] =>
      let v := eval vm_compute in (hex_digit_value c) in
      change (hex_digit_value c) with v
    end; cbv iota beta;
    [exact IHd | ..]; apply hex_value_from_pos.
Qed.

Lemma upper_hex_of_uint (d : Hexadecimal.uint) :
  all_chars is_upper_hex
    (toUpperCase (HexadecimalString.NilEmpty.string_of_uint d)) = true.
Proof. induction d; cbn; try reflexivity; exact IHd. Qed.

Lemma to_hex_uint_not_nil (n : N) : N.to_hex_uint n <> Hexadecimal.Nil.
Proof.
  intro H. pose proof (HexadecimalN.Unsigned.of_to n) as Hn.
  rewrite H in Hn. cbn in Hn. subst n. discriminate H.
Qed.

(** The printed hexadecimal digits of a number: upper-case after
    [toUpperCase], never empty, and they read back as the number. *)
Lemma hex_of_N_reads_back (n : N) :
  hex_value (toUpperCase (hex_of_N n)) = Some n /\
  all_chars is_upper_hex (toUpperCase (hex_of_N n)) = true /\
  hex_value_from 0 (toUpperCase (hex_of_N n)) = Some n.
Proof.
  unfold hex_of_N, HexadecimalString.NilZero.string_of_uint.
  pose proof (to_hex_uint_not_nil n) as Hnil.
  pose proof (hex_value_from_zero (N.to_hex_uint n)) as Hv.
  pose proof (upper_hex_of_uint (N.to_hex_uint n)) as Hu.
  rewrite HexadecimalN.Unsigned.of_to in Hv.
  destruct (N.to_hex_uint n); try contradiction;
    (split; [| split; [exact Hu | exact Hv]]); exact Hv.
Qed.

Lemma hex_value_from_lower (s : string) (acc v : N) :
  hex_value_from acc s = Some v ->
  (acc * 16 ^ N.of_nat (String.length s) <= v)%N.
Proof.
  revert acc. induction s as [| c s IH]; intros acc H; cbn in H.
  - injection H as <-. cbn. lia.
  - destruct (hex_digit_value c) as [d |]; [| discriminate].
    apply IH in H. cbn [String.length].
    rewrite Nat2N.inj_succ, N.pow_succ_r'.
    set (P := (16 ^ N.of_nat (String.length s))%N) in *. clearbody P. clear IH.
    assert (Hle : (acc * (16 * P) <= (16 * acc + d) * P)%N).
    { rewrite N.mul_add_distr_r, N.mul_assoc, (N.mul_comm acc 16).
      apply N.le_add_r. }
    exact (N.le_trans _ _ _ Hle H).
Qed.

(** The leading digit of a positive number is not zero. *)
Lemma hex_of_N_leading (n : N) :
  (0 < n)%N ->
  exists c rest d,
    toUpperCase (hex_of_N n) = String c rest /\
    hex_digit_value c = Some d /\ (1 <= d)%N.
Proof.
  intro Hn. unfold hex_of_N, HexadecimalString.NilZero.string_of_uint.
  pose proof (HexadecimalN.Unsigned.to_of (N.to_hex_uint n)) as Hnorm.
  rewrite HexadecimalN.Unsigned.of_to in Hnorm.
  pose proof (HexadecimalN.Unsigned.of_to n) as Hof.
  destruct (N.to_hex_uint n) as [| l | l | l | l | l | l | l | l | l | l
                                 | l | l | l | l | l | l] eqn:Hd;
    try (cbn; do 3 eexists; split; [reflexivity |]; split;
         [vm_compute; reflexivity | lia]).
  - cbn in Hof. lia.
  - exfalso. unfold Hexadecimal.unorm in Hnorm.
    destruct (Hexadecimal.nzhead (Hexadecimal.D0 l)) eqn:Hz;
      try (symmetry in Hnorm; rewrite <- Hz in Hnorm;
           exact (HexadecimalFacts.nzhead_nonzero _ _ Hnorm)).
    injection Hnorm as Hl. subst l. cbn in Hof. lia.
Qed.

Lemma hex_width (n : N) :
  (n < 2 ^ 32)%N -> (String.length (toUpperCase (hex_of_N n)) <= 8)%nat.
Proof.
  intro Hn. destruct (N.eq_dec n 0) as [-> | Hpos]; [cbn; lia |].
  destruct (hex_of_N_leading n) as [c [rest [d [Hs [Hc Hd]]]]]; [lia |].
  destruct (hex_of_N_reads_back n) as [_ [_ Hv]].
  rewrite Hs in *. cbn [hex_value_from] in Hv. rewrite Hc in Hv.
  apply hex_value_from_lower in Hv. cbn [String.length].
  assert (Hpow : (16 ^ N.of_nat (String.length rest) < 16 ^ 8)%N).
  { change (16 ^ 8)%N with (2 ^ 32)%N. nia. }
  apply N.pow_lt_mono_r_iff in Hpow; lia.
Qed.

Lemma hex_value_from_zeros (k : nat) (s : string) :
  hex_value_from 0 (replicate k "0" ++ s) = hex_value_from 0 s.
Proof. induction k as [| k IH]; [reflexivity | exact IH]. Qed.

Lemma hex_value_padStart (k : nat) (s : string) (v : N) :
  hex_value_from 0 s = Some v -> s <> "" ->
  hex_value (padStart k "0" s) = Some v.
Proof.
  intros Hv Hne. unfold padStart, hex_value.
  destruct (replicate (k - String.length s) "0" ++ s) eqn:Hp.
  - destruct (k - String.length s)%nat; cbn in Hp; [contradiction | discriminate].
  - rewrite <- Hp, hex_value_from_zeros. exact Hv.
Qed.

Lemma hex_value_from_minus (k : nat) (acc : N) (rest : string) :
  hex_value_from acc (replicate k "0" ++ String "-" rest) = None.
Proof.
  revert acc. induction k as [| k IH]; intro acc; [reflexivity |].
  cbn [replicate append hex_value_from].
  change (hex_digit_value "0") with (Some 0%N). cbv iota beta. apply IH.
Qed.

Lemma toUpperCase_upper_hex (s : string) :
  all_chars is_upper_hex s = true -> toUpperCase s = s.
Proof.
  induction s as [| c s IH]; [reflexivity |]. cbn. intro H.
  apply andb_prop in H. destruct H as [Hc Hs]. rewrite (IH Hs). f_equal.
  revert Hc. destruct c as [[] [] [] [] [] [] [] []]; vm_compute;
    intro H; first [reflexivity | discriminate H].
Qed.

(** The printed digits of a number are its hexadecimal text. *)
Lemma hex_text_of_N (n : N) : hex_text n (toUpperCase (hex_of_N n)).
Proof.
  destruct (hex_of_N_reads_back n) as [Hv [Hu _]].
  split; [exact Hu |]. split; [exact Hv |].
  destruct (N.eq_dec n 0) as [-> | Hpos]; [reflexivity |].
  destruct (hex_of_N_leading n) as [c [rest [d [Hs [Hc Hd]]]]]; [lia |].
  rewrite Hs. cbn. destruct rest; [reflexivity |].
  destruct (Ascii.eqb c "0") eqn:E; [| reflexivity].
  apply Ascii.eqb_eq in E. subst c. vm_compute in Hc. injection Hc as <-. lia.
Qed.

Lemma hex_text_not_empty (n : N) (h : string) : hex_text n h -> h <> "".
Proof. intros [_ [Hv _]] E. subst h. discriminate Hv. Qed.

(** *** Byte entries *)

Lemma number_bytes_checked :
  forallb number_byte_ok (seq 0 256) = true.
Proof. vm_compute. reflexivity. Qed.

Lemma number_byte (z : Z) :
  0 <= z <= 255 ->
  exists s, normalizeByte (JNum z) = Str s /\
            is_upper_hex_pair s = true /\ hex_value s = Some (Z.to_N z).
Proof.
  intro Hz.
  assert (Hin : In (Z.to_nat z) (seq 0 256)) by (apply in_seq; lia).
  pose proof (proj1 (forallb_forall _ _) number_bytes_checked _ Hin) as Hok.
  unfold number_byte_ok in Hok. rewrite Z2Nat.id in Hok by lia.
  destruct (normalizeByte (JNum z)) as [n | s]; [discriminate |].
  exists s. split; [reflexivity |].
  apply andb_prop in Hok. destruct Hok as [Hpair Hval]. split; [exact Hpair |].
  destruct (hex_value s) as [v |]; [| discriminate].
  apply N.eqb_eq in Hval. rewrite Hval. f_equal. lia.
Qed.

Lemma string_byte (s : string) (v : N) :
  (String.length s <= 2)%nat ->
  hex_value s = Some v ->
  is_upper_hex_pair (padStart 2 "0" (toUpperCase s)) = true /\
  hex_value (padStart 2 "0" (toUpperCase s)) = Some v.
Proof.
  intros Hlen Hv.
  destruct s as [| a [| b [| c s]]]; cbn in Hlen; try lia; [discriminate Hv | |].
  - cbn in Hv. destruct (hex_digit_value a) as [d |] eqn:Ha; [| discriminate].
    destruct (upper_char_hex a d Ha) as [Hu Hd].
    unfold padStart, is_upper_hex_pair. cbn.
    rewrite Hu, Hd. split; [reflexivity | exact Hv].
  - cbn in Hv. destruct (hex_digit_value a) as [d |] eqn:Ha; [| discriminate].
    destruct (hex_digit_value b) as [d' |] eqn:Hb; [| discriminate].
    destruct (upper_char_hex a d Ha) as [Hu Hd].
    destruct (upper_char_hex b d' Hb) as [Hu' Hd'].
    unfold padStart, is_upper_hex_pair. cbn.
    rewrite Hu, Hu', Hd, Hd'. split; [reflexivity | exact Hv].
Qed.

(** What [normalizeByte] does to one entry. *)
Lemma normalizeByte_spec (b : JsVal) :
  exists s,
    normalizeByte b = Str s /\
    (2 <= String.length s)%nat /\
    all_chars (fun c => negb (is_lower c)) s = true /\
    (forall v, byte_value b = Some v ->
               is_upper_hex_pair s = true /\ hex_value s = Some v) /\
    match b with
    | JNum _ | JStr _ => True
    | _ => s = "00"
    end.
Proof.
  destruct b as [| | b | z | s | l | l];
    try (exists "00"; split; [reflexivity |]; split; [cbn; lia |];
         split; [reflexivity |];
         split; [intros v Hv; discriminate Hv | reflexivity]).
  - exists (padStart 2 "0" (toUpperCase (toString16 z))).
    split; [reflexivity |]. split; [rewrite length_padStart; lia |].
    split; [apply padStart_no_lower; [reflexivity | apply toUpperCase_no_lower] |].
    split; [| exact I].
    intros v Hv. cbn in Hv.
    destruct ((0 <=? z) && (z <=? 255)) eqn:Hz; [| discriminate].
    injection Hv as <-. apply andb_prop in Hz. destruct Hz as [H0 H255].
    apply Z.leb_le in H0, H255.
    destruct (number_byte z (conj H0 H255)) as [s [Hs [Hp Hval]]].
    cbn in Hs. injection Hs as <-. now split.
  - exists (padStart 2 "0" (toUpperCase s)).
    split; [reflexivity |]. split; [rewrite length_padStart; lia |].
    split; [apply padStart_no_lower; [reflexivity | apply toUpperCase_no_lower] |].
    split; [| exact I].
    intros v Hv. cbn in Hv.
    destruct (Nat.leb (String.length s) 2) eqn:Hlen; [| discriminate].
    apply Nat.leb_le in Hlen. now apply string_byte.
Qed.

(** Every entry, valid or not, in full. *)
Lemma normalizeByte_normal_form (b : JsVal) :
  exists s, normalizeByte b = Str s /\ entry_normal_form b s.
Proof.
  destruct b as [| | b | z | t | l | l]; try (exists "00"; split; reflexivity).
  - eexists. split; [reflexivity |]. unfold entry_normal_form.
    unfold toString16, sign_prefix.
    destruct (0 <=? z) eqn:Hz.
    + apply Z.leb_le in Hz.
      assert (Hneg : (z <? 0) = false) by (apply Z.ltb_ge; lia).
      rewrite Hneg. cbn [append].
      assert (Habs : Z.abs_N z = Z.to_N z) by lia. rewrite Habs.
      exists (toUpperCase (hex_of_N (Z.to_N z))).
      split; [apply hex_text_of_N | apply padStart_left_padded].
    + apply Z.leb_gt in Hz.
      assert (Hneg : (z <? 0) = true) by (apply Z.ltb_lt; lia).
      rewrite Hneg.
      change (toUpperCase ("-" ++ hex_of_N (Z.abs_N z)))
        with (String "-" (toUpperCase (hex_of_N (Z.abs_N z)))).
      exists (toUpperCase (hex_of_N (Z.abs_N z))).
      split; [apply hex_text_of_N |].
      pose proof (hex_text_not_empty _ _ (hex_text_of_N (Z.abs_N z))) as Hne.
      destruct (toUpperCase (hex_of_N (Z.abs_N z))); [contradiction | reflexivity].
  - eexists. split; [reflexivity |]. intros _.
    exists (toUpperCase t). split; [apply toUpperCase_image |].
    apply padStart_left_padded.
Qed.

(** C7, as the code has it.  For a frame whose [bytes] is an array, the
    normal form holds one string per entry, in order.  Each string has no
    lower-case letter and at least two characters.  An integer from 0 to 255
    and a string of one or two hexadecimal digits become the pair of
    upper-case hexadecimal digits of the same value; an entry that is
    neither a number nor a string becomes ["00"].  Nothing else is
    validated, truncated or replaced: any other non-negative integer
    becomes all its hexadecimal digits, a negative integer a minus sign and
    the digits of its magnitude, and ASCII text its upper-case form filled
    with zeros on the left up to two characters. *)
Theorem bytes_normalized_entrywise (frame : JsVal) (nf : RawFrame) (bs : list JsVal) :
  normalizeRawFrame frame = Some nf ->
  get frame "bytes" = JArr bs ->
  exists out,
    bytes nf = Some (map Str out) /\
    List.length out = List.length bs /\
    forall k b,
      nth_error bs k = Some b ->
      exists s,
        nth_error out k = Some s /\
        (2 <= String.length s)%nat /\
        all_chars (fun c => negb (is_lower c)) s = true /\
        (forall v, byte_value b = Some v ->
                   is_upper_hex_pair s = true /\ hex_value s = Some v) /\
        entry_normal_form b s.
Proof.
  intros Hnf Hbytes. unfold normalizeRawFrame in Hnf.
  destruct (negb (truthy frame)); [discriminate |].
  injection Hnf as <-. cbn [bytes]. rewrite Hbytes.
  exists (map toStr (map normalizeByte bs)).
  assert (Hstr : forall b, Str (toStr (normalizeByte b)) = normalizeByte b).
  { intro b. destruct (normalizeByte_spec b) as [s [Hs _]]. now rewrite Hs. }
  split; [| split].
  - f_equal. rewrite !map_map. apply map_ext. intro b. symmetry. apply Hstr.
  - now rewrite !length_map.
  - intros k b Hk.
    destruct (normalizeByte_spec b) as [s [Hs [Hlen [Hlow [Hval _]]]]].
    destruct (normalizeByte_normal_form b) as [s' [Hs' Hform]].
    assert (s' = s) by congruence. subst s'.
    exists s. rewrite !nth_error_map, Hk. cbn. rewrite Hs. cbn.
    split; [reflexivity |]. split; [exact Hlen |]. split; [exact Hlow |].
    split; [exact Hval | exact Hform].
Qed.

Lemma bytes_normalized_witness :
  let frame := JObj [("bytes", JArr [JNum 10; JStr "f"; JNull])] in
  exists nf out,
    normalizeRawFrame frame = Some nf /\
    get frame "bytes" = JArr [JNum 10; JStr "f"; JNull] /\
    bytes nf = Some [Str "0A"; Str "0F"; Str "00"] /\
    bytes nf = Some (map Str out) /\
    List.length out = 3%nat.
Proof.
  intro frame.
  destruct (normalizeRawFrame frame) as [nf |] eqn:Hnf; [| discriminate Hnf].
  destruct (bytes_normalized_entrywise frame nf
              [JNum 10; JStr "f"; JNull] Hnf eq_refl) as [out [Hout [Hlen _]]].
  exists nf, out. split; [reflexivity |]. split; [reflexivity |].
  split; [injection Hnf as <-; reflexivity |].
  split; [exact Hout | exact Hlen].
Defined.

(** C7, as the specification words it, fails: the number 256 becomes the
    three characters ["100"], and the string ["xyz"] becomes ["XYZ"], not
    ["00"]. *)
Lemma byte_256_normalizes_to_three_characters :
  normalizeRawFrame (JObj [("bytes", JArr [JNum 256; JStr "xyz"])]) =
  Some {| timeOffsetMs := Some 0; id := Some (Str "00000000");
          bytes := Some [Str "100"; Str "XYZ"]; type := Some "Rx" |} /\
  byte_value (JNum 256) = None /\
  byte_value (JStr "xyz") = None /\
  ~ bytes_are_hex_pairs.
Proof.
  split; [reflexivity |]. split; [reflexivity |]. split; [reflexivity |].
  intro Hall.
  destruct (Hall (JObj [("bytes", JArr [JNum 256; JStr "xyz"])]) _
              [JNum 256; JStr "xyz"] eq_refl eq_refl)
    as [out [Hout [_ [Hpairs _]]]].
  cbn in Hout. destruct out as [| s out]; [discriminate |].
  injection Hout as Hs _. subst s.
  inversion Hpairs as [| s l Hs _]. discriminate Hs.
Qed.

(** *** Decimal digits *)








Lemma thousandths_checked : forallb thousandths_ok (seq 0 1000) = true.
Proof. vm_compute. reflexivity. Qed.

Lemma thousandths (n : N) :
  (n < 1000)%N ->
  String.length (padStart 3 "0" (dec_of_N n)) = 3%nat /\
  dec_value (padStart 3 "0" (dec_of_N n)) = Some n.
Proof.
  intro Hn.
  assert (Hin : In (N.to_nat n) (seq 0 1000)) by (apply in_seq; lia).
  pose proof (proj1 (forallb_forall _ _) thousandths_checked _ Hin) as Hok.
  unfold thousandths_ok in Hok. rewrite N2Nat.id in Hok.
  apply andb_prop in Hok. destruct Hok as [Hlen Hval].
  apply Nat.eqb_eq in Hlen. split; [exact Hlen |].
  destruct (dec_value (padStart 3 "0" (dec_of_N n))) as [v |]; [| discriminate].
  apply N.eqb_eq in Hval. now rewrite Hval.
Qed.




(* ------------------------------------------------------------------------- *)
(** ** The trace file *)
(* ------------------------------------------------------------------------- *)

Lemma nth_error_trcBody (frames : list RawFrame) (j i : nat) :
  nth_error (trcBody j frames) i = option_map (trcLine (j + i)) (nth_error frames i).
Proof.
  revert j i. induction frames as [| f frames IH]; intros j i.
  - now destruct i.
  - destruct i as [| i]; cbn.
    + now rewrite Nat.add_0_r.
    + rewrite IH. now rewrite Nat.add_succ_r.
Qed.






(** C9.  Through ingestion and trace serialisation.  The data line of an
    ingested frame, wherever it stands in the trace, is its message number,
    time and type followed by the identifier column, the length column and
    the data column.  A byte given as the number 10 is the token ["0A"] at
    its position in the data column; a frame without an [id] has the
    identifier column ["00000000"]; a frame with [bytes: []] has the length
    column [" 0"], the text ["0"] filled with a space on the left up to
    width 2, and an empty data column. *)
Theorem trace_byte_id_and_length_examples
    (frame : JsVal) (nf : RawFrame) (frames : list RawFrame) (i : nat) :
  normalizeRawFrame frame = Some nf ->
  nth_error frames i = Some nf ->
  exists ident dlc data tokens,
    generateTRC frames
    = header ++ String "010" "" ++ join (String "010" "") (trcBody 0 frames) /\
    nth_error (trcBody 0 frames) i =
    Some (trc_msgNum i ++ trc_timestamp nf ++ " " ++ trc_frameType nf ++ "  "
          ++ ident ++ " " ++ dlc ++ " " ++ data) /\
    trcLine i nf =
    trc_msgNum i ++ trc_timestamp nf ++ " " ++ trc_frameType nf ++ "  "
    ++ ident ++ " " ++ dlc ++ " " ++ data /\
    ident = trc_canId nf /\ dlc = trc_dlc nf /\ data = trc_data nf /\
    right_padded 23 " " (join " " tokens) data /\
    (forall bs,
       get frame "bytes" = JArr bs ->
       List.length tokens = List.length bs /\
       forall k, nth_error bs k = Some (JNum 10) -> nth_error tokens k = Some "0A") /\
    (get frame "id" = JUndefined -> ident = "00000000") /\
    (get frame "bytes" = JArr [] ->
     dlc = " 0" /\ left_padded 2 " " "0" dlc /\
     tokens = [] /\ data = replicate 23 " ").
Proof.
  intros Hnf Hi. unfold normalizeRawFrame in Hnf.
  destruct (negb (truthy frame)); [discriminate |].
  exists (trc_canId nf), (trc_dlc nf), (trc_data nf),
         (map toStr (match bytes nf with Some bs => bs | None => [] end)).
  split; [reflexivity |].
  split; [rewrite nth_error_trcBody, Hi; reflexivity |].
  split; [reflexivity |]. split; [reflexivity |]. split; [reflexivity |].
  split; [reflexivity |].
  split; [apply padEnd_right_padded |].
  injection Hnf as <-. split; [| split].
  - intros bs Hbytes. cbn [bytes]. rewrite Hbytes.
    split; [now rewrite !length_map |].
    intros k Hk. now rewrite !nth_error_map, Hk.
  - intro Hid. unfold trc_canId. cbn [id]. now rewrite Hid.
  - intro Hbytes. unfold trc_dlc, trc_data. cbn [bytes]. rewrite Hbytes.
    split; [reflexivity |]. split; [exact (padStart_left_padded 2 " " "0") |].
    split; reflexivity.
Qed.

Lemma trace_byte_id_and_length_witness :
  let frame := JObj [("bytes", JArr [JNum 10])] in
  let frames := rawFrames (onRawFrame (JObj [("bytes", JArr [])])
                             (onRawFrame frame init)) in
  exists nf,
    normalizeRawFrame frame = Some nf /\
    nth_error frames 0 = Some nf /\
    generateTRC frames
    = header ++ String "010" ""
      ++ "1)      0.000  Rx  00000000  1 0A                     " ++ String "010" ""
      ++ "2)      0.000  Rx  00000000  0                        " /\
    exists ident dlc data tokens,
      nth_error (trcBody 0 frames) 0 =
      Some (trc_msgNum 0 ++ trc_timestamp nf ++ " " ++ trc_frameType nf ++ "  "
            ++ ident ++ " " ++ dlc ++ " " ++ data) /\
      right_padded 23 " " (join " " tokens) data /\
      nth_error tokens 0 = Some "0A" /\
      ident = "00000000".
Proof.
  intros frame frames.
  destruct (normalizeRawFrame frame) as [nf |] eqn:Hnf; [| discriminate Hnf].
  assert (Hnth : nth_error frames 0 = Some nf)
    by (injection Hnf as <-; reflexivity).
  exists nf. split; [reflexivity |]. split; [exact Hnth |].
  split; [vm_compute; reflexivity |].
  destruct (trace_byte_id_and_length_examples frame nf frames 0 Hnf Hnth)
    as [ident [dlc [data [tokens [_ [Hline [_ [_ [_ [_ [Hpad [Hbytes [Hid _]]]]]]]]]]]]].
  exists ident, dlc, data, tokens.
  split; [exact Hline |]. split; [exact Hpad |].
  split; [exact (proj2 (Hbytes [JNum 10] eq_refl) 0%nat eq_refl) |].
  exact (Hid eq_refl).
Defined.

(* ------------------------------------------------------------------------- *)
(** ** Bookkeeping *)
(* ------------------------------------------------------------------------- *)

Lemma mem_id_In (h : nat) (l : list nat) : mem_id h l = true <-> In h l.
Proof.
  unfold mem_id. rewrite existsb_exists. split.
  - intros [x [Hin Hx]]. apply Nat.eqb_eq in Hx. now subst.
  - intro Hin. exists h. split; [exact Hin | apply Nat.eqb_refl].
Qed.

Lemma In_remove_id (h x : nat) (l : list nat) :
  In x (remove_id h l) <-> In x l /\ x <> h.
Proof.
  unfold remove_id. rewrite filter_In. split; intros [H1 H2]; split; trivial.
  - apply negb_true_iff in H2. now apply Nat.eqb_neq.
  - apply negb_true_iff. now apply Nat.eqb_neq.
Qed.

Lemma Forall_remove_nth {A : Type} (P : A -> Prop) (k : nat) (l : list A) :
  Forall P l -> Forall P (remove_nth k l).
Proof.
  revert k. induction l as [| x l IH]; intros k H; destruct k; cbn; trivial.
  - now inversion H.
  - inversion H; subst. constructor; [assumption | now apply IH].
Qed.

Lemma Bookkeeping_init (C : string) : Bookkeeping C init.
Proof.
  split; cbn.
  - reflexivity.
  - now left.
  - discriminate.
  - discriminate.
  - constructor.
  - constructor.
  - reflexivity.
Qed.

(** [Bookkeeping] looks at these fields only. *)
Lemma Bookkeeping_ext (C : string) (w w' : World) :
  status w' = status w -> rawFrames w' = rawFrames w ->
  framesSeen w' = framesSeen w -> paths w' = paths w ->
  tasks w' = tasks w -> listeners w' = listeners w ->
  latestDecoded w' = latestDecoded w ->
  Bookkeeping C w -> Bookkeeping C w'.
Proof.
  intros Hs Hr Hf Hp Ht Hl Hd [B1 B2 B3 B4 B5 B6 B7].
  assert (Hz : lastZipPath w' = lastZipPath w).
  { unfold paths in Hp. now injection Hp. }
  split; rewrite ?Hs, ?Hr, ?Hf, ?Hp, ?Ht, ?Hl, ?Hd, ?Hz; assumption.
Qed.

Lemma tasks_onRawFrame (frame : JsVal) (w : World) :
  tasks (onRawFrame frame w) = tasks w.
Proof.
  destruct (normalizeRawFrame frame) as [nf|] eqn:Hnf.
  - on_frame Hnf w.
  - unfold onRawFrame. now rewrite Hnf.
Qed.

Lemma latestDecoded_onRawFrame (frame : JsVal) (w : World) :
  latestDecoded (onRawFrame frame w) = latestDecoded w.
Proof.
  destruct (normalizeRawFrame frame) as [nf|] eqn:Hnf.
  - on_frame Hnf w.
  - unfold onRawFrame. now rewrite Hnf.
Qed.

Lemma Bookkeeping_onRawFrame (C : string) (frame : JsVal) (w : World) :
  Bookkeeping C w -> Bookkeeping C (onRawFrame frame w).
Proof.
  intros [B1 B2 B3 B4 B5 B6 B7].
  destruct (truthy frame) eqn:Ht;
    [| rewrite (onRawFrame_falsy frame w Ht); split; assumption].
  destruct (normalizeRawFrame_truthy frame Ht) as [nf Hnf].
  assert (Hp := paths_onRawFrame frame w).
  assert (Hz : lastZipPath (onRawFrame frame w) = lastZipPath w).
  { unfold paths in Hp. now injection Hp. }
  split; rewrite ?Hp, ?Hz, ?tasks_onRawFrame, ?listeners_onRawFrame,
           ?latestDecoded_onRawFrame; try assumption.
  - rewrite framesSeen_onRawFrame, (rawFrames_onRawFrame frame nf w Hnf) by assumption.
    unfold MAX_RAW_FRAMES in *.
    destruct (Z.of_nat (List.length (rawFrames w)) <? 500000) eqn:Hcap.
    + apply Z.ltb_lt in Hcap. rewrite length_app. cbn [List.length]. lia.
    + apply Z.ltb_ge in Hcap. lia.
  - rewrite status_onRawFrame by assumption.
    destruct (status w) eqn:Hs; try discriminate;
      [destruct (2 <=? framesSeen w + 1); discriminate | exact B3].
  - rewrite status_onRawFrame by assumption.
    destruct (status w) eqn:Hs; try discriminate;
      [destruct (2 <=? framesSeen w + 1); discriminate | exact B4].
Qed.

Lemma Bookkeeping_samplerTick (C : string) (snap : Snapshot) (w : World) :
  Bookkeeping C w -> Bookkeeping C (samplerTick snap w).
Proof.
  unfold samplerTick.
  destruct (Z.of_nat (List.length (snapshots w)) <? MAX_SNAPSHOTS); [| trivial].
  apply Bookkeeping_ext; reflexivity.
Qed.

Lemma Bookkeeping_reset (C : string) (w : World) :
  Bookkeeping C w -> Bookkeeping C (reset w).
Proof.
  intros [B1 B2 B3 B4 B5 B6 B7]. unfold reset.
  split; destruct (inactivityTimer (stopSampler w)); unfold paths; fields;
    try assumption; try discriminate; try reflexivity; now left.
Qed.

Lemma Bookkeeping_subscribe (C : string) (fn : Listener) (w : World) :
  Bookkeeping C w -> Bookkeeping C (subscribe fn w).
Proof.
  intros [B1 B2 B3 B4 B5 B6 B7]. unfold subscribe.
  destruct (mem_id fn (listeners w)) eqn:Hin; [split; assumption |].
  split; cbn; try assumption.
  apply NoDup_app; [assumption | constructor; [intros [] | constructor] |].
  intros x Hx [<- | []].
  apply mem_id_In in Hx. rewrite Hx in Hin. discriminate.
Qed.

Lemma Bookkeeping_unsubscribe (C : string) (fn : Listener) (w : World) :
  Bookkeeping C w -> Bookkeeping C (unsubscribe fn w).
Proof.
  intros [B1 B2 B3 B4 B5 B6 B7]. unfold unsubscribe.
  split; cbn; try assumption. now apply NoDup_filter.
Qed.

Lemma Bookkeeping_updateDecoded (C : string) (decoded : JsVal) (w : World) :
  Bookkeeping C w -> Bookkeeping C (updateDecoded decoded w).
Proof.
  intros [B1 B2 B3 B4 B5 B6 B7]. unfold updateDecoded.
  split; cbn; try assumption.
  now destruct (truthy decoded) eqn:Ht.
Qed.

Section ExportBookkeeping.

Variable CachesDirectoryPath : string.
Variable unparse : list Snapshot -> string.

Lemma Bookkeeping_finalize_begin (now : string) (w : World) :
  Bookkeeping CachesDirectoryPath w ->
  Bookkeeping CachesDirectoryPath (park (finalize_begin CachesDirectoryPath now w)).
Proof.
  intros [B1 B2 B3 B4 B5 B6 B7].
  destruct (status_eqb (status w) finalizing) eqn:Hg.
  { apply status_eqb_eq in Hg.
    rewrite (finalize_begin_guard CachesDirectoryPath now w Hg). cbn [park].
    split; assumption. }
  assert (Hs : status w <> finalizing).
  { intro H. apply status_eqb_eq in H. rewrite H in Hg. discriminate. }
  assert (Hcases : (snapshots w = [] \/ rawFrames w = []) \/
                   (snapshots w <> [] /\ rawFrames w <> [])).
  { destruct (snapshots w); [left; now left |].
    destruct (rawFrames w); [left; now right |].
    right. split; discriminate. }
  destruct Hcases as [Hempty | [Hn Hr]].
  - rewrite (finalize_begin_empty CachesDirectoryPath now w Hs Hempty). cbn [park].
    split; unfold paths; fields; try assumption; discriminate.
  - rewrite (finalize_begin_export CachesDirectoryPath now w Hs Hn Hr). cbn [park].
    split; unfold paths; fields; try assumption; try discriminate.
    + intros _ H. now apply app_eq_nil in H.
    + apply Forall_app. split; [assumption |].
      constructor; [| constructor]. exists now. cbn. repeat split; reflexivity.
Qed.

Lemma Bookkeeping_settled (k : nat) (t : Task) (r : IOResult) (w : World) :
  Bookkeeping CachesDirectoryPath w ->
  nth_error (tasks w) k = Some t ->
  Bookkeeping CachesDirectoryPath
    (park (finalize_resume unparse t r (set_tasks (remove_nth k (tasks w)) w))).
Proof.
  intros [B1 B2 B3 B4 B5 B6 B7] Hk.
  assert (Ht : task_of CachesDirectoryPath t).
  { apply (proj1 (Forall_forall _ _) B5). exact (nth_error_In _ _ Hk). }
  assert (Hrest : Forall (task_of CachesDirectoryPath) (remove_nth k (tasks w)))
    by now apply Forall_remove_nth.
  assert (Hsusp : forall p, task_of CachesDirectoryPath
                              {| folder := folder t; csv := csv t; trc := trc t;
                                 zipOut := zipOut t; waiting := p |}).
  { intro p. destruct Ht as [now Ht]. exists now. exact Ht. }
  unfold finalize_resume. destruct r as [v | e].
  - destruct (waiting t); cbn [park suspend].
    + split; unfold paths; cbn; try assumption.
      * intros _ H. now apply app_eq_nil in H.
      * apply Forall_app. split; [assumption | constructor; [apply Hsusp | constructor]].
    + split; unfold paths; cbn; try assumption.
      * intros _ H. now apply app_eq_nil in H.
      * apply Forall_app. split; [assumption | constructor; [apply Hsusp | constructor]].
    + split; unfold paths; cbn; try assumption.
      * intros _ H. now apply app_eq_nil in H.
      * apply Forall_app. split; [assumption | constructor; [apply Hsusp | constructor]].
    + split; unfold paths; cbn; try assumption; try discriminate.
      right. destruct Ht as [now [Hf [Hc [Htr _]]]]. exists now, v.
      cbn. now rewrite Hc, Htr, Hf.
  - cbn [park]. split; unfold paths; cbn; try assumption; discriminate.
Qed.

Lemma Bookkeeping_watchdog (now : string) (w : World) :
  Bookkeeping CachesDirectoryPath w ->
  Bookkeeping CachesDirectoryPath (watchdog CachesDirectoryPath now w).
Proof.
  intro B. unfold watchdog.
  destruct (status_eqb (status w) recording).
  - now apply Bookkeeping_finalize_begin.
  - destruct (status_eqb (status w) arming); [now apply Bookkeeping_reset | exact B].
Qed.

Lemma Bookkeeping_step (e : Event) (w w' : World) :
  Bookkeeping CachesDirectoryPath w ->
  step CachesDirectoryPath unparse e w = Some w' ->
  Bookkeeping CachesDirectoryPath w'.
Proof.
  intros B Hstep. destruct e; cbn [step] in Hstep.
  - injection Hstep as <-. now apply Bookkeeping_subscribe.
  - injection Hstep as <-. now apply Bookkeeping_unsubscribe.
  - injection Hstep as <-. now apply Bookkeeping_updateDecoded.
  - injection Hstep as <-. now apply Bookkeeping_onRawFrame.
  - injection Hstep as <-. now apply Bookkeeping_finalize_begin.
  - injection Hstep as <-. now apply Bookkeeping_reset.
  - destruct (mem_id h (intervals w)); [| discriminate].
    injection Hstep as <-. now apply Bookkeeping_samplerTick.
  - destruct (mem_id h (timeouts w)); [| discriminate].
    injection Hstep as <-. apply Bookkeeping_watchdog.
    revert B. apply Bookkeeping_ext; reflexivity.
  - destruct (nth_error (tasks w) k) as [t |] eqn:Hk; [| discriminate].
    injection Hstep as <-. now apply Bookkeeping_settled.
Qed.

Lemma Bookkeeping_reachable (w : World) :
  reachable CachesDirectoryPath unparse w -> Bookkeeping CachesDirectoryPath w.
Proof.
  induction 1 as [| w w' e _ IH Hstep]; [apply Bookkeeping_init |].
  exact (Bookkeeping_step e w w' IH Hstep).
Qed.

End ExportBookkeeping.

(** *** The sampler rests with the recorder *)

Lemma samplerTimer_stopSampler (w : World) : samplerTimer (stopSampler w) = None.
Proof.
  unfold stopSampler. destruct (samplerTimer w) eqn:Hs; [reflexivity | exact Hs].
Qed.

Lemma samplerTimer_armInactivityTimeout (w : World) :
  samplerTimer (armInactivityTimeout w) = samplerTimer w.
Proof.
  unfold armInactivityTimeout, setTimeout, clearTimeout.
  now destruct (inactivityTimer w).
Qed.

Lemma resting_onRawFrame (frame : JsVal) (w : World) :
  sampler_off_when_resting w -> sampler_off_when_resting (onRawFrame frame w).
Proof.
  intro R.
  destruct (normalizeRawFrame frame) as [nf |] eqn:Hnf;
    [| unfold onRawFrame; now rewrite Hnf].
  unfold sampler_off_when_resting in *.
  rewrite (onRawFrame_unfold frame nf w Hnf). cbv zeta.
  destruct (Z.of_nat (List.length (rawFrames w)) <? MAX_RAW_FRAMES);
    destruct (status w) eqn:Hs; try destruct (2 <=? framesSeen w + 1);
    fields; rewrite ?Hs;
    intros [H | H]; try discriminate H; apply R; auto.
Qed.

Lemma resting_samplerTick (snap : Snapshot) (w : World) :
  sampler_off_when_resting w -> sampler_off_when_resting (samplerTick snap w).
Proof.
  unfold samplerTick.
  now destruct (Z.of_nat (List.length (snapshots w)) <? MAX_SNAPSHOTS).
Qed.

Lemma samplerTimer_reset (w : World) : samplerTimer (reset w) = None.
Proof.
  unfold reset. destruct (inactivityTimer (stopSampler w)); cbn;
    apply samplerTimer_stopSampler.
Qed.

Section ExportResting.

Variable CachesDirectoryPath : string.
Variable unparse : list Snapshot -> string.

Lemma resting_finalize_begin (now : string) (w : World) :
  sampler_off_when_resting w ->
  sampler_off_when_resting (park (finalize_begin CachesDirectoryPath now w)).
Proof.
  intro R. unfold finalize_begin.
  destruct (status_eqb (status w) finalizing); [exact R |].
  match goal with |- context [if ?c then _ else _] => destruct c end;
    intros _; cbn; apply samplerTimer_stopSampler.
Qed.

Lemma resting_finalize_resume (t : Task) (r : IOResult) (w : World) :
  sampler_off_when_resting w ->
  sampler_off_when_resting (park (finalize_resume unparse t r w)).
Proof.
  intro R. unfold finalize_resume, sampler_off_when_resting.
  destruct r as [v | e]; [destruct (waiting t) |]; cbn; try exact R;
    intros [H | H]; discriminate H.
Qed.

Lemma resting_watchdog (now : string) (w : World) :
  sampler_off_when_resting w ->
  sampler_off_when_resting (watchdog CachesDirectoryPath now w).
Proof.
  intro R. unfold watchdog.
  destruct (status_eqb (status w) recording); [now apply resting_finalize_begin |].
  destruct (status_eqb (status w) arming); [| exact R].
  intros _. apply samplerTimer_reset.
Qed.

Lemma resting_step (e : Event) (w w' : World) :
  sampler_off_when_resting w ->
  step CachesDirectoryPath unparse e w = Some w' ->
  sampler_off_when_resting w'.
Proof.
  intros R Hstep. destruct e; cbn [step] in Hstep.
  - injection Hstep as <-. unfold subscribe.
    now destruct (mem_id fn (listeners w)).
  - now injection Hstep as <-.
  - now injection Hstep as <-.
  - injection Hstep as <-. now apply resting_onRawFrame.
  - injection Hstep as <-. now apply resting_finalize_begin.
  - injection Hstep as <-. intros _. apply samplerTimer_reset.
  - destruct (mem_id h (intervals w)); [| discriminate].
    injection Hstep as <-. now apply resting_samplerTick.
  - destruct (mem_id h (timeouts w)); [| discriminate].
    injection Hstep as <-. now apply resting_watchdog.
  - destruct (nth_error (tasks w) k) as [t |]; [| discriminate].
    injection Hstep as <-. now apply resting_finalize_resume.
Qed.

Lemma resting_reachable (w : World) :
  reachable CachesDirectoryPath unparse w -> sampler_off_when_resting w.
Proof.
  induction 1 as [| w w' e _ IH Hstep]; [intros _; reflexivity |].
  exact (resting_step e w w' IH Hstep).
Qed.

End ExportResting.

(* ------------------------------------------------------------------------- *)
(** ** What every turn of the event loop does to the buffers and listeners *)
(* ------------------------------------------------------------------------- *)

Lemma grows_same (w w' : World) :
  rawFrames w' = rawFrames w -> snapshots w' = snapshots w -> grows_or_clears w w'.
Proof.
  intros Hr Hn. right. exists [], []. rewrite Hr, Hn, !app_nil_r.
  repeat split. cbn. lia.
Qed.

Lemma grows_onRawFrame (frame : JsVal) (w : World) :
  grows_or_clears w (onRawFrame frame w).
Proof.
  destruct (normalizeRawFrame frame) as [nf |] eqn:Hnf.
  - right. rewrite (rawFrames_onRawFrame frame nf w Hnf), snapshots_onRawFrame.
    destruct (Z.of_nat (List.length (rawFrames w)) <? MAX_RAW_FRAMES).
    + exists [nf], []. rewrite app_nil_r. repeat split. cbn. lia.
    + exists [], []. rewrite !app_nil_r. repeat split. cbn. lia.
  - unfold onRawFrame. rewrite Hnf. now apply grows_same.
Qed.

Lemma grows_samplerTick (snap : Snapshot) (w : World) :
  grows_or_clears w (samplerTick snap w).
Proof.
  unfold samplerTick.
  destruct (Z.of_nat (List.length (snapshots w)) <? MAX_SNAPSHOTS);
    [| now apply grows_same].
  right. exists [], [snap]. cbn. rewrite app_nil_r. repeat split. lia.
Qed.

Lemma grows_reset (w : World) : grows_or_clears w (reset w).
Proof.
  left. unfold reset. destruct (inactivityTimer (stopSampler w)); now split.
Qed.

Section TurnEffects.

Variable CachesDirectoryPath : string.
Variable unparse : list Snapshot -> string.

Lemma buffers_finalize_begin (now : string) (w : World) :
  rawFrames (park (finalize_begin CachesDirectoryPath now w)) = rawFrames w /\
  snapshots (park (finalize_begin CachesDirectoryPath now w)) = snapshots w /\
  listeners (park (finalize_begin CachesDirectoryPath now w)) = listeners w.
Proof.
  unfold finalize_begin.
  destruct (status_eqb (status w) finalizing); [now repeat split |].
  match goal with |- context [if ?c then _ else _] => destruct c end;
    cbn [park]; repeat split; fields; reflexivity.
Qed.

Lemma buffers_finalize_resume (t : Task) (r : IOResult) (w : World) :
  rawFrames (park (finalize_resume unparse t r w)) = rawFrames w /\
  snapshots (park (finalize_resume unparse t r w)) = snapshots w /\
  listeners (park (finalize_resume unparse t r w)) = listeners w.
Proof.
  unfold finalize_resume.
  destruct r as [v | e]; [destruct (waiting t) |]; now repeat split.
Qed.

Lemma listeners_reset (w : World) : listeners (reset w) = listeners w.
Proof.
  unfold reset. destruct (inactivityTimer (stopSampler w)); fields; reflexivity.
Qed.

Lemma listeners_samplerTick (snap : Snapshot) (w : World) :
  listeners (samplerTick snap w) = listeners w.
Proof.
  unfold samplerTick.
  now destruct (Z.of_nat (List.length (snapshots w)) <? MAX_SNAPSHOTS).
Qed.

Lemma listeners_watchdog (now : string) (w : World) :
  listeners (watchdog CachesDirectoryPath now w) = listeners w.
Proof.
  unfold watchdog. destruct (status_eqb (status w) recording);
    [apply buffers_finalize_begin |].
  destruct (status_eqb (status w) arming); [apply listeners_reset | reflexivity].
Qed.

Lemma grows_watchdog (now : string) (w : World) :
  grows_or_clears w (watchdog CachesDirectoryPath now w).
Proof.
  unfold watchdog. destruct (status_eqb (status w) recording).
  - apply grows_same; apply buffers_finalize_begin.
  - destruct (status_eqb (status w) arming);
      [apply grows_reset | now apply grows_same].
Qed.

(** X1.  Append-only buffers.  One turn of the event loop either empties both
    buffers at once (a reset) or leaves everything stored where it is and
    appends at most one entry in all: nothing stored is ever rewritten,
    reordered or dropped one by one. *)
Theorem turn_appends_or_clears (e : Event) (w w' : World) :
  step CachesDirectoryPath unparse e w = Some w' ->
  grows_or_clears w w'.
Proof.
  intro Hstep. destruct e; cbn [step] in Hstep.
  - injection Hstep as <-. unfold subscribe.
    destruct (mem_id fn (listeners w)); now apply grows_same.
  - injection Hstep as <-. now apply grows_same.
  - injection Hstep as <-. now apply grows_same.
  - injection Hstep as <-. apply grows_onRawFrame.
  - injection Hstep as <-. apply grows_same; apply buffers_finalize_begin.
  - injection Hstep as <-. apply grows_reset.
  - destruct (mem_id h (intervals w)); [| discriminate].
    injection Hstep as <-. apply grows_samplerTick.
  - destruct (mem_id h (timeouts w)); [| discriminate].
    injection Hstep as <-.
    exact (grows_watchdog now (clearTimeout h w)).
  - destruct (nth_error (tasks w) k) as [t |]; [| discriminate].
    injection Hstep as <-.
    apply grows_same;
      apply (buffers_finalize_resume t r (set_tasks (remove_nth k (tasks w)) w)).
Qed.

(** Who is registered after a turn. *)
Lemma listeners_step (e : Event) (w w' : World) :
  step CachesDirectoryPath unparse e w = Some w' ->
  listeners w' =
  match e with
  | EvSubscribe fn => listeners (subscribe fn w)
  | EvUnsubscribe fn => remove_id fn (listeners w)
  | _ => listeners w
  end.
Proof.
  intro Hstep. destruct e; cbn [step] in Hstep.
  - now injection Hstep as <-.
  - now injection Hstep as <-.
  - now injection Hstep as <-.
  - injection Hstep as <-. apply listeners_onRawFrame.
  - injection Hstep as <-. apply buffers_finalize_begin.
  - injection Hstep as <-. apply listeners_reset.
  - destruct (mem_id h (intervals w)); [| discriminate].
    injection Hstep as <-. apply listeners_samplerTick.
  - destruct (mem_id h (timeouts w)); [| discriminate].
    injection Hstep as <-. exact (listeners_watchdog now (clearTimeout h w)).
  - destruct (nth_error (tasks w) k) as [t |]; [| discriminate].
    injection Hstep as <-.
    apply (buffers_finalize_resume t r (set_tasks (remove_nth k (tasks w)) w)).
Qed.

(** *** Only registered listeners are invoked *)

Lemma only_same (w w' : World) : calls w' = calls w -> only_listeners_called w w'.
Proof. intro H. exists []. rewrite H, app_nil_r. now split. Qed.

Lemma only_notify (w w1 : World) :
  only_listeners_called w w1 -> listeners w1 = listeners w ->
  only_listeners_called w (notify w1).
Proof.
  intros [added [Hc Hall]] Hl.
  exists (added ++ map (fun fn => (fn, observe w1)) (listeners w1))%list. split.
  - cbn. now rewrite Hc, app_assoc.
  - apply Forall_app. split; [exact Hall |].
    rewrite Hl. apply Forall_forall. intros c Hc'.
    apply in_map_iff in Hc'. destruct Hc' as [fn [<- Hin]]. exact Hin.
Qed.

Lemma only_ext (w w1 w2 : World) :
  only_listeners_called w w1 -> calls w2 = calls w1 -> only_listeners_called w w2.
Proof. intros [added [Hc Hall]] H. exists added. now rewrite H. Qed.

Lemma only_from (w0 w w' : World) :
  calls w0 = calls w -> listeners w0 = listeners w ->
  only_listeners_called w0 w' -> only_listeners_called w w'.
Proof.
  intros Hc Hl [added [Hc' Hall]]. exists added. now rewrite <- Hc, <- Hl.
Qed.

Lemma only_onRawFrame (frame : JsVal) (w : World) :
  only_listeners_called w (onRawFrame frame w).
Proof.
  destruct (normalizeRawFrame frame) as [nf |] eqn:Hnf;
    [| unfold onRawFrame; rewrite Hnf; now apply only_same].
  rewrite (onRawFrame_unfold frame nf w Hnf). cbv zeta.
  destruct (Z.of_nat (List.length (rawFrames w)) <? MAX_RAW_FRAMES);
    destruct (status w); try destruct (2 <=? framesSeen w + 1);
    try (apply only_same; fields; reflexivity);
    (apply only_notify; [apply only_same |]; fields; reflexivity).
Qed.

Lemma only_samplerTick (snap : Snapshot) (w : World) :
  only_listeners_called w (samplerTick snap w).
Proof.
  unfold samplerTick.
  destruct (Z.of_nat (List.length (snapshots w)) <? MAX_SNAPSHOTS);
    [| now apply only_same].
  apply only_notify; [now apply only_same | reflexivity].
Qed.

Lemma only_reset (w : World) : only_listeners_called w (reset w).
Proof.
  unfold reset.
  apply only_notify; destruct (inactivityTimer (stopSampler w));
    try apply only_same; fields; reflexivity.
Qed.

Lemma only_finalize_begin (now : string) (w : World) :
  only_listeners_called w (park (finalize_begin CachesDirectoryPath now w)).
Proof.
  unfold finalize_begin.
  destruct (status_eqb (status w) finalizing); [now apply only_same |].
  assert (H1 : only_listeners_called w (notify (set_status finalizing w)))
    by (apply only_notify; [now apply only_same | reflexivity]).
  match goal with |- context [if ?c then _ else _] => destruct c end; cbn [park].
  - apply only_notify; [| fields; reflexivity].
    apply (only_ext w (notify (set_status finalizing w))); [exact H1 |].
    fields. reflexivity.
  - apply (only_ext w (notify (set_status finalizing w))); [exact H1 |].
    fields. reflexivity.
Qed.

Lemma only_finalize_resume (t : Task) (r : IOResult) (w : World) :
  only_listeners_called w (park (finalize_resume unparse t r w)).
Proof.
  unfold finalize_resume.
  destruct r as [v | e]; [destruct (waiting t) |]; cbn [park suspend];
    try (now apply only_same);
    (apply only_notify; [now apply only_same | reflexivity]).
Qed.

Lemma only_watchdog (now : string) (w : World) :
  only_listeners_called w (watchdog CachesDirectoryPath now w).
Proof.
  unfold watchdog. destruct (status_eqb (status w) recording);
    [apply only_finalize_begin |].
  destruct (status_eqb (status w) arming); [apply only_reset | now apply only_same].
Qed.

Lemma only_step (e : Event) (w w' : World) :
  step CachesDirectoryPath unparse e w = Some w' ->
  only_listeners_called w w'.
Proof.
  intro Hstep. destruct e; cbn [step] in Hstep.
  - injection Hstep as <-. apply only_same. unfold subscribe.
    now destruct (mem_id fn (listeners w)).
  - injection Hstep as <-. now apply only_same.
  - injection Hstep as <-. now apply only_same.
  - injection Hstep as <-. apply only_onRawFrame.
  - injection Hstep as <-. apply only_finalize_begin.
  - injection Hstep as <-. apply only_reset.
  - destruct (mem_id h (intervals w)); [| discriminate].
    injection Hstep as <-. apply only_samplerTick.
  - destruct (mem_id h (timeouts w)); [| discriminate].
    injection Hstep as <-.
    apply (only_from (clearTimeout h w)); [reflexivity | reflexivity |].
    apply only_watchdog.
  - destruct (nth_error (tasks w) k) as [t |]; [| discriminate].
    injection Hstep as <-.
    apply (only_from (set_tasks (remove_nth k (tasks w)) w));
      [reflexivity | reflexivity |].
    apply only_finalize_resume.
Qed.

(** X2.  Unsubscribing stops notifications.  Once a callback has been removed
    (or was never registered), no run of the event loop that does not
    subscribe it again invokes it: every invocation of it in the log was
    there before. *)
Theorem unsubscribed_listener_is_not_invoked
    (fn : Listener) (es : list Event) (w w' : World) :
  ~ In fn (listeners w) ->
  never_subscribes fn es ->
  run CachesDirectoryPath unparse es w = Some w' ->
  ~ In fn (listeners w') /\
  forall obs, In (fn, obs) (calls w') -> In (fn, obs) (calls w).
Proof.
  revert w. induction es as [| e es IH]; intros w Hout Hnever Hrun; cbn in Hrun.
  - injection Hrun as <-. now split.
  - destruct (step CachesDirectoryPath unparse e w) as [w1 |] eqn:Hstep;
      [| discriminate].
    inversion Hnever as [| e' es' He Hes]; subst.
    assert (Hout1 : ~ In fn (listeners w1)).
    { rewrite (listeners_step e w w1 Hstep). destruct e; try exact Hout.
      - unfold subscribe. destruct (mem_id fn0 (listeners w)); [exact Hout |].
        cbn. intro H. apply in_app_or in H. destruct H as [H | [H | []]];
          [now apply Hout | subst fn0; now apply He].
      - intro H. apply In_remove_id in H. now apply Hout. }
    destruct (IH w1 Hout1 Hes Hrun) as [Hout' Hcalls].
    split; [exact Hout' |].
    intros obs Hin. apply Hcalls in Hin.
    destruct (only_step e w w1 Hstep) as [added [Hc Hall]].
    rewrite Hc in Hin. apply in_app_or in Hin. destruct Hin as [Hin | Hin];
      [exact Hin |].
    exfalso. apply Hout.
    exact (proj1 (Forall_forall _ _) Hall (fn, obs) Hin).
Qed.

End TurnEffects.

Lemma turn_appends_or_clears_witness :
  step "/cache" (fun _ => "") (EvRawFrame frame_b) after_two_frames_one_tick
  = Some (onRawFrame frame_b after_two_frames_one_tick) /\
  grows_or_clears after_two_frames_one_tick
    (onRawFrame frame_b after_two_frames_one_tick).
Proof.
  split; [reflexivity |].
  exact (turn_appends_or_clears "/cache" (fun _ => "")
           (EvRawFrame frame_b) after_two_frames_one_tick _ eq_refl).
Defined.

Lemma unsubscribed_listener_witness :
  let w := unsubscribe 7%nat (onRawFrame frame_a (subscribe 7%nat init)) in
  let es := [EvRawFrame frame_b; EvReset] in
  exists w',
    ~ In 7%nat (listeners w) /\
    never_subscribes 7%nat es /\
    run "/cache" (fun _ => "") es w = Some w' /\
    ~ In 7%nat (listeners w') /\
    forall obs, In (7%nat, obs) (calls w') -> In (7%nat, obs) (calls w).
Proof.
  intros w es.
  assert (Hout : ~ In 7%nat (listeners w)) by (vm_compute; intros []).
  assert (Hnever : never_subscribes 7%nat es)
    by (repeat constructor; discriminate).
  destruct (run "/cache" (fun _ => "") es w) as [w' |] eqn:Hrun;
    [| vm_compute in Hrun; discriminate Hrun].
  exists w'. split; [exact Hout |]. split; [exact Hnever |].
  split; [reflexivity |].
  exact (unsubscribed_listener_is_not_invoked "/cache" (fun _ => "")
           7%nat es w w' Hout Hnever Hrun).
Defined.

(* ------------------------------------------------------------------------- *)
(** ** Further properties of the reachable states *)
(* ------------------------------------------------------------------------- *)

Lemma run_full_export :
  run "/cache" (fun _ => "") full_export init = Some after_full_export.
Proof. vm_compute. reflexivity. Qed.

Lemma reachable_after_full_export :
  reachable "/cache" (fun _ => "") after_full_export.
Proof.
  exact (run_reachable _ _ full_export init _ (reachable_init _ _) run_full_export).
Qed.

Lemma run_while_exporting :
  run "/cache" (fun _ => "") (firstn 5 full_export) init = Some while_exporting.
Proof. vm_compute. reflexivity. Qed.

Lemma reachable_while_exporting :
  reachable "/cache" (fun _ => "") while_exporting.
Proof.
  exact (run_reachable _ _ (firstn 5 full_export) init _
           (reachable_init _ _) run_while_exporting).
Qed.

(** X3.  The frame count is the number of frames seen, capped.  In every
    reachable state the raw-frame buffer holds [min(framesSeen, 500000)]
    frames: nothing is dropped before the cap is reached, and the number of
    frames dropped since the last reset is [framesSeen] minus the frame
    count. *)
Theorem stored_frames_is_seen_capped
    (CachesDirectoryPath : string) (unparse : list Snapshot -> string) (w : World) :
  reachable CachesDirectoryPath unparse w ->
  fst (getStats w) = Z.min (framesSeen w) 500000.
Proof.
  intro H. exact (bk_stored _ w (Bookkeeping_reachable _ _ w H)).
Qed.

Lemma stored_frames_witness :
  reachable "/cache" (fun _ => "") after_two_frames_one_tick /\
  fst (getStats after_two_frames_one_tick)
  = Z.min (framesSeen after_two_frames_one_tick) 500000.
Proof.
  split; [exact reachable_after_two_frames_one_tick |].
  exact (stored_frames_is_seen_capped _ _ _ reachable_after_two_frames_one_tick).
Defined.

(** X4.  The artifact paths are set and cleared together.  In every reachable
    state the four path fields are all null, or all set: to an export folder
    under the caches directory, the [data.csv] and [data.trc] inside it, and
    the path the archiver returned.  Whenever the status is [ready] they are
    set. *)
Theorem artifact_paths_set_together
    (CachesDirectoryPath : string) (unparse : list Snapshot -> string) (w : World) :
  reachable CachesDirectoryPath unparse w ->
  export_paths CachesDirectoryPath (paths w) /\
  (status w = ready -> exists zipped, lastZipPath w = Some zipped).
Proof.
  intro H. pose proof (Bookkeeping_reachable _ _ w H) as B.
  split; [exact (bk_paths _ w B) |].
  intro Hs. pose proof (bk_ready _ w B Hs) as Hz.
  destruct (lastZipPath w) as [z |]; [now exists z | contradiction].
Qed.

Lemma artifact_paths_witness :
  reachable "/cache" (fun _ => "") after_full_export /\
  status after_full_export = ready /\
  export_paths "/cache" (paths after_full_export) /\
  (status after_full_export = ready ->
   exists zipped, lastZipPath after_full_export = Some zipped).
Proof.
  split; [exact reachable_after_full_export |]. split; [reflexivity |].
  exact (artifact_paths_set_together _ _ _ reachable_after_full_export).
Defined.

(** X5.  The status [finalizing] always has an export behind it.  In every
    reachable state with status [finalizing] a call of [finalize] is
    suspended at an [await], so the settlement of its request can occur, and
    the sampler is stopped. *)
Theorem finalizing_has_a_call_in_flight
    (CachesDirectoryPath : string) (unparse : list Snapshot -> string) (w : World) :
  reachable CachesDirectoryPath unparse w ->
  status w = finalizing ->
  (exists t, nth_error (tasks w) 0 = Some t /\
             forall r, exists w',
               step CachesDirectoryPath unparse (EvSettled 0 r) w = Some w') /\
  samplerTimer w = None /\ intervals w = [].
Proof.
  intros H Hs. pose proof (Bookkeeping_reachable _ _ w H) as B.
  pose proof (bk_inflight _ w B Hs) as Ht.
  split.
  - destruct (tasks w) as [| t ts] eqn:Hts; [contradiction |].
    exists t. split; [reflexivity |].
    intro r. cbn [step]. rewrite Hts. cbn. eexists. reflexivity.
  - pose proof (resting_reachable _ _ w H (or_intror Hs)) as Hoff.
    split; [exact Hoff |].
    rewrite (tinv_sampler w (TimerInv_reachable _ _ w H)). now rewrite Hoff.
Qed.

Lemma finalizing_witness :
  reachable "/cache" (fun _ => "") while_exporting /\
  status while_exporting = finalizing /\
  (exists t, nth_error (tasks while_exporting) 0 = Some t /\
             forall r, exists w',
               step "/cache" (fun _ => "") (EvSettled 0 r) while_exporting = Some w') /\
  samplerTimer while_exporting = None /\ intervals while_exporting = [].
Proof.
  split; [exact reachable_while_exporting |]. split; [reflexivity |].
  exact (finalizing_has_a_call_in_flight _ _ _ reachable_while_exporting eq_refl).
Defined.

(** X6.  No snapshot is taken at rest.  In every reachable state with status
    [idle] or [finalizing] no sampler interval is running, so no sampler
    tick can occur. *)
Theorem no_sampler_tick_while_idle_or_finalizing
    (CachesDirectoryPath : string) (unparse : list Snapshot -> string)
    (w : World) (h : TimerId) (snap : Snapshot) :
  reachable CachesDirectoryPath unparse w ->
  status w = idle \/ status w = finalizing ->
  step CachesDirectoryPath unparse (EvSamplerTick h snap) w = None.
Proof.
  intros H Hs. cbn [step].
  rewrite (tinv_sampler w (TimerInv_reachable _ _ w H)).
  now rewrite (resting_reachable _ _ w H Hs).
Qed.

Lemma no_sampler_tick_witness :
  reachable "/cache" (fun _ => "") while_exporting /\
  (status while_exporting = idle \/ status while_exporting = finalizing) /\
  step "/cache" (fun _ => "")
    (EvSamplerTick 1%nat (blank_snapshot "03/11/2026 10:15:03")) while_exporting
  = None.
Proof.
  split; [exact reachable_while_exporting |].
  split; [right; reflexivity |].
  exact (no_sampler_tick_while_idle_or_finalizing _ _ _ 1%nat _
           reachable_while_exporting (or_intror eq_refl)).
Defined.

Lemma timeout_fires_once
    (CachesDirectoryPath : string) (unparse : list Snapshot -> string)
    (w w' : World) (h : TimerId) (now : string) :
  TimerInv w ->
  step CachesDirectoryPath unparse (EvInactivity h now) w = Some w' ->
  inactivityTimer w = Some h /\ timeouts w' = [].
Proof.
  intros T Hstep. cbn [step] in Hstep.
  destruct (mem_id h (timeouts w)) eqn:Hin; [| discriminate].
  injection Hstep as Hw'.
  destruct (tinv_watchdog w T) as [Hnone | [h' [Hh' Hone]]];
    [rewrite Hnone in Hin; discriminate |].
  rewrite Hone in Hin. apply mem_id_single in Hin. subst h'.
  split; [exact Hh' |].
  assert (Hcleared : timeouts (clearTimeout h w) = []).
  { cbn. rewrite Hone. apply remove_id_same. }
  rewrite <- Hw'. generalize dependent (clearTimeout h w). intros w0 _ Hcleared.
  unfold watchdog.
  destruct (status_eqb (status w0) recording).
  - unfold finalize_begin.
    destruct (status_eqb (status w0) finalizing); [exact Hcleared |].
    match goal with |- context [if ?c then _ else _] => destruct c end;
      cbn [park]; fields; exact Hcleared.
  - destruct (status_eqb (status w0) arming); [| exact Hcleared].
    unfold reset.
    destruct (inactivityTimer (stopSampler w0)) eqn:Hi; fields;
      rewrite Hcleared; reflexivity.
Qed.

(** X7.  One sampler, one watchdog.  In every reachable state the host runs
    the sampler interval exactly when [samplerTimer] holds its handle, and
    at most one inactivity timeout is pending, the one [inactivityTimer]
    names; a timeout that has fired or been cleared never fires again. *)
Theorem one_sampler_one_watchdog
    (CachesDirectoryPath : string) (unparse : list Snapshot -> string) (w : World) :
  reachable CachesDirectoryPath unparse w ->
  intervals w = match samplerTimer w with Some h => [h] | None => [] end /\
  (timeouts w = [] \/ exists h, inactivityTimer w = Some h /\ timeouts w = [h]) /\
  forall h now w',
    step CachesDirectoryPath unparse (EvInactivity h now) w = Some w' ->
    inactivityTimer w = Some h /\ timeouts w' = [].
Proof.
  intro H. pose proof (TimerInv_reachable _ _ w H) as T.
  split; [exact (tinv_sampler w T) |]. split; [exact (tinv_watchdog w T) |].
  intros h now w' Hstep.
  exact (timeout_fires_once _ _ w w' h now T Hstep).
Qed.

Lemma one_sampler_one_watchdog_witness :
  reachable "/cache" (fun _ => "") after_two_frames_one_tick /\
  intervals after_two_frames_one_tick = [1%nat] /\
  timeouts after_two_frames_one_tick = [3%nat] /\
  intervals after_two_frames_one_tick
  = match samplerTimer after_two_frames_one_tick with
    | Some h => [h] | None => [] end.
Proof.
  split; [exact reachable_after_two_frames_one_tick |].
  split; [reflexivity |]. split; [reflexivity |].
  exact (proj1 (one_sampler_one_watchdog _ _ _ reachable_after_two_frames_one_tick)).
Defined.

(** X8.  [arming] is left by the next frame.  In every reachable state with
    status [arming] any truthy frame moves the status to [recording]: the
    test [framesSeen >= 2] never holds a frame back. *)
Theorem arming_frame_starts_recording
    (CachesDirectoryPath : string) (unparse : list Snapshot -> string)
    (w : World) (frame : JsVal) :
  reachable CachesDirectoryPath unparse w ->
  status w = arming ->
  truthy frame = true ->
  status (onRawFrame frame w) = recording.
Proof.
  intros H Hs Ht.
  pose proof (inv_arming w (Inv_reachable _ _ w H) Hs) as Hseen.
  rewrite status_onRawFrame, Hs by assumption.
  assert (Hle : (2 <=? framesSeen w + 1) = true) by (apply Z.leb_le; lia).
  now rewrite Hle.
Qed.

Lemma arming_frame_witness :
  reachable "/cache" (fun _ => "") (onRawFrame frame_a init) /\
  status (onRawFrame frame_a init) = arming /\
  truthy (JNum 1) = true /\
  status (onRawFrame (JNum 1) (onRawFrame frame_a init)) = recording.
Proof.
  split; [exact reachable_after_one_frame |].
  split; [reflexivity |]. split; [reflexivity |].
  exact (arming_frame_starts_recording _ _ _ (JNum 1)
           reachable_after_one_frame eq_refl eq_refl).
Defined.

(** X9.  Listeners form a set.  Subscribing registers the callback, and
    subscribing a callback that is already registered changes nothing; in
    every reachable state no callback is registered twice.  One
    notification therefore invokes each registered callback exactly once
    and no other callback at all, each invocation reading the state at that
    moment, and keeps the earlier invocations in the log. *)
Theorem listeners_are_a_set
    (CachesDirectoryPath : string) (unparse : list Snapshot -> string)
    (w : World) (fn : Listener) :
  reachable CachesDirectoryPath unparse w ->
  let invoked := skipn (List.length (calls w)) (calls (notify w)) in
  NoDup (listeners w) /\
  In fn (listeners (subscribe fn w)) /\
  subscribe fn (subscribe fn w) = subscribe fn w /\
  NoDup (map fst invoked) /\
  (In fn (listeners w) -> count_occ Nat.eq_dec (map fst invoked) fn = 1%nat) /\
  (~ In fn (listeners w) -> count_occ Nat.eq_dec (map fst invoked) fn = 0%nat) /\
  (forall c, In c invoked -> snd c = observe w) /\
  firstn (List.length (calls w)) (calls (notify w)) = calls w.
Proof.
  intros H invoked.
  pose proof (bk_listeners _ w (Bookkeeping_reachable _ _ w H)) as Hnd.
  assert (Hinv : invoked = map (fun g => (g, observe w)) (listeners w)).
  { unfold invoked. cbn [calls notify set_calls].
    now rewrite skipn_app, skipn_all, Nat.sub_diag. }
  assert (Hfst : map fst invoked = listeners w).
  { rewrite Hinv, map_map. cbn [fst]. now rewrite map_id. }
  split; [exact Hnd |]. split; [| split].
  - unfold subscribe. destruct (mem_id fn (listeners w)) eqn:Hin.
    + now apply mem_id_In.
    + cbn [listeners set_listeners]. apply in_or_app. right. now left.
  - unfold subscribe at 2 3.
    destruct (mem_id fn (listeners w)) eqn:Hin.
    + unfold subscribe. now rewrite Hin.
    + unfold subscribe. cbn [listeners set_listeners].
      assert (Hin' : mem_id fn (listeners w ++ [fn]) = true).
      { apply mem_id_In. apply in_or_app. right. now left. }
      now rewrite Hin'.
  - rewrite Hfst. split; [exact Hnd |]. split; [| split; [| split]].
    + intro Hin. exact (proj1 (NoDup_count_occ' Nat.eq_dec (listeners w)) Hnd fn Hin).
    + intro Hout. exact (proj1 (count_occ_not_In Nat.eq_dec (listeners w) fn) Hout).
    + intros c Hc. rewrite Hinv in Hc. apply in_map_iff in Hc.
      destruct Hc as [g [<- _]]. reflexivity.
    + cbn [calls notify set_calls].
      now rewrite firstn_app, Nat.sub_diag, firstn_all, app_nil_r.
Qed.

Lemma listeners_are_a_set_witness :
  let w := after_two_frames_one_tick in
  reachable "/cache" (fun _ => "") w /\
  listeners w = [7%nat] /\
  In 7%nat (listeners w) /\
  count_occ Nat.eq_dec
    (map fst (skipn (List.length (calls w)) (calls (notify w)))) 7%nat = 1%nat.
Proof.
  intro w.
  assert (Hin : In 7%nat (listeners w)) by (left; reflexivity).
  split; [exact reachable_after_two_frames_one_tick |].
  split; [reflexivity |]. split; [exact Hin |].
  destruct (listeners_are_a_set _ _ w 7%nat reachable_after_two_frames_one_tick)
    as [_ [_ [_ [_ [Honce _]]]]].
  exact (Honce Hin).
Defined.

(* ------------------------------------------------------------------------- *)
(** ** reset and the inactivity watchdog *)
(* ------------------------------------------------------------------------- *)

Lemma inactivityTimer_reset (w : World) : inactivityTimer (reset w) = None.
Proof.
  unfold reset. destruct (inactivityTimer (stopSampler w)) eqn:Hi; cbn;
    [reflexivity | exact Hi].
Qed.

Lemma reset_fields (w : World) :
  status (reset w) = idle /\ rawFrames (reset w) = [] /\ snapshots (reset w) = [] /\
  framesSeen (reset w) = 0 /\ paths (reset w) = [None; None; None; None] /\
  latestDecoded (reset w) = latestDecoded w /\ tasks (reset w) = tasks w /\
  ioLog (reset w) = ioLog w.
Proof.
  unfold reset, paths.
  destruct (inactivityTimer (stopSampler w)); repeat split; fields; reflexivity.
Qed.

Section Quiet.

Variable CachesDirectoryPath : string.
Variable unparse : list Snapshot -> string.

(** With both handles cleared the host's timer tables are empty. *)
Lemma no_timer_left (w : World) :
  reachable CachesDirectoryPath unparse w ->
  (samplerTimer w = None -> intervals w = []) /\
  (inactivityTimer w = None -> timeouts w = []).
Proof.
  intro H. pose proof (TimerInv_reachable _ _ w H) as [T1 T2]. split.
  - intro Hs. now rewrite T1, Hs.
  - intro Hi. destruct T2 as [T2 | [h [Hh _]]]; [exact T2 |].
    rewrite Hi in Hh. discriminate.
Qed.

End Quiet.

(** X10.  [reset()] from any reachable state: the status is [idle], both
    buffers and the counter are at zero, the four paths are null, no
    sampler interval runs and no inactivity timeout is pending, and every
    listener has been invoked and reads this state.  What [reset] leaves
    alone: the registered listeners, the last decoded signals, the
    file-system requests already issued and the calls of [finalize] still in
    flight (an export under way is not cancelled). *)
Theorem reset_gives_clean_idle_state
    (CachesDirectoryPath : string) (unparse : list Snapshot -> string) (w : World) :
  reachable CachesDirectoryPath unparse w ->
  let w' := reset w in
  status w' = idle /\ getStats w' = (0, 0) /\ framesSeen w' = 0 /\
  paths w' = [None; None; None; None] /\
  samplerTimer w' = None /\ inactivityTimer w' = None /\
  intervals w' = [] /\ timeouts w' = [] /\
  notified w w' /\
  listeners w' = listeners w /\ latestDecoded w' = latestDecoded w /\
  tasks w' = tasks w /\ ioLog w' = ioLog w.
Proof.
  intros H w'.
  assert (H' : reachable CachesDirectoryPath unparse w')
    by exact (reachable_step _ _ w w' EvReset H eq_refl).
  destruct (reset_fields w) as [Hs [Hr [Hn [Hf [Hp [Hd [Ht Hio]]]]]]].
  destruct (no_timer_left _ _ w' H') as [Hint Hto].
  pose proof (samplerTimer_reset w) as Hst.
  pose proof (inactivityTimer_reset w) as Hit.
  unfold w' in *. unfold getStats. rewrite Hr, Hn.
  repeat split; auto using notified_reset, listeners_reset.
Qed.

Lemma reset_witness :
  let w' := reset after_full_export in
  reachable "/cache" (fun _ => "") after_full_export /\
  status w' = idle /\ getStats w' = (0, 0) /\ framesSeen w' = 0 /\
  paths w' = [None; None; None; None] /\
  samplerTimer w' = None /\ inactivityTimer w' = None /\
  intervals w' = [] /\ timeouts w' = [] /\
  notified after_full_export w' /\
  listeners w' = listeners after_full_export /\
  latestDecoded w' = latestDecoded after_full_export /\
  tasks w' = tasks after_full_export /\ ioLog w' = ioLog after_full_export.
Proof.
  intro w'. split; [exact reachable_after_full_export |].
  exact (reset_gives_clean_idle_state _ _ _ reachable_after_full_export).
Defined.

(** X11.  The watchdog while [arming].  When the inactivity timeout fires in
    a reachable state with status [arming], the recorder is reset: status
    [idle], both buffers and the counter empty, the sampler stopped and no
    timeout pending. *)
Theorem watchdog_while_arming_resets
    (CachesDirectoryPath : string) (unparse : list Snapshot -> string)
    (w w' : World) (h : TimerId) (now : string) :
  reachable CachesDirectoryPath unparse w ->
  status w = arming ->
  step CachesDirectoryPath unparse (EvInactivity h now) w = Some w' ->
  status w' = idle /\ getStats w' = (0, 0) /\ framesSeen w' = 0 /\
  intervals w' = [] /\ timeouts w' = [] /\ ioLog w' = ioLog w.
Proof.
  intros H Hs Hstep.
  assert (H' : reachable CachesDirectoryPath unparse w')
    by exact (reachable_step _ _ w w' _ H Hstep).
  cbn [step] in Hstep. destruct (mem_id h (timeouts w)); [| discriminate].
  injection Hstep as Hw'.
  assert (Hreset : w' = reset (clearTimeout h w)).
  { rewrite <- Hw'. unfold watchdog. cbn [status clearTimeout set_timeouts].
    now rewrite Hs. }
  destruct (no_timer_left _ _ w' H') as [Hint Hto].
  destruct (reset_fields (clearTimeout h w)) as [Hst [Hr [Hn [Hf [_ [_ [_ Hio]]]]]]].
  rewrite Hreset in *. unfold getStats. rewrite Hr, Hn.
  repeat split; auto using samplerTimer_reset, inactivityTimer_reset.
Qed.

Lemma watchdog_while_arming_witness :
  let w := onRawFrame frame_a init in
  let w' := reset (clearTimeout 2%nat w) in
  reachable "/cache" (fun _ => "") w /\
  status w = arming /\
  step "/cache" (fun _ => "") (EvInactivity 2%nat "03/11/2026, 10:15:02") w = Some w' /\
  status w' = idle /\ getStats w' = (0, 0) /\ framesSeen w' = 0 /\
  intervals w' = [] /\ timeouts w' = [] /\ ioLog w' = ioLog w.
Proof.
  intros w w'.
  assert (Hstep : step "/cache" (fun _ => "")
                    (EvInactivity 2%nat "03/11/2026, 10:15:02") w = Some w')
    by (vm_compute; reflexivity).
  split; [exact reachable_after_one_frame |]. split; [reflexivity |].
  split; [exact Hstep |].
  exact (watchdog_while_arming_resets _ _ w w' _ _
           reachable_after_one_frame eq_refl Hstep).
Defined.

(** X12.  The watchdog while [recording].  When the inactivity timeout fires
    in a reachable state with status [recording], [finalize] starts: with a
    snapshot and a frame buffered the status becomes [finalizing], the
    export folder is requested and the call waits for it; with an empty
    buffer the status becomes [idle] and nothing is requested.  Either way
    the buffers are untouched, the sampler is stopped and no timeout is left
    pending, so the automatic export is attempted once. *)
Theorem watchdog_while_recording_finalizes
    (CachesDirectoryPath : string) (unparse : list Snapshot -> string)
    (w w' : World) (h : TimerId) (now : string) :
  reachable CachesDirectoryPath unparse w ->
  status w = recording ->
  step CachesDirectoryPath unparse (EvInactivity h now) w = Some w' ->
  let dir := CachesDirectoryPath ++ "/export_" ++ safe_separators now in
  rawFrames w' = rawFrames w /\ snapshots w' = snapshots w /\
  intervals w' = [] /\ timeouts w' = [] /\
  (snapshots w = [] \/ rawFrames w = [] ->
   status w' = idle /\ ioLog w' = ioLog w /\ tasks w' = tasks w) /\
  (snapshots w <> [] -> rawFrames w <> [] ->
   status w' = finalizing /\
   ioLog w' = (ioLog w ++ [Mkdir dir])%list /\
   exists t, tasks w' = (tasks w ++ [t])%list /\ folder t = dir /\
             waiting t = AwaitMkdir).
Proof.
  intros H Hs Hstep dir.
  assert (H' : reachable CachesDirectoryPath unparse w')
    by exact (reachable_step _ _ w w' _ H Hstep).
  destruct (timeout_fires_once _ _ w w' h now (TimerInv_reachable _ _ w H) Hstep)
    as [_ Hto].
  cbn [step] in Hstep. destruct (mem_id h (timeouts w)); [| discriminate].
  injection Hstep as Hw'.
  set (w0 := clearTimeout h w) in *.
  assert (Hs0 : status w0 <> finalizing) by (cbn; rewrite Hs; discriminate).
  assert (Hfin : w' = park (finalize_begin CachesDirectoryPath now w0)).
  { rewrite <- Hw'. unfold watchdog.
    change (status w0) with (status w). now rewrite Hs. }
  destruct (buffers_finalize_begin CachesDirectoryPath now w0) as [Hr [Hn _]].
  assert (Hoff : samplerTimer w' = None).
  { rewrite Hfin. unfold finalize_begin.
    destruct (status_eqb (status w0) finalizing) eqn:Hg;
      [apply status_eqb_eq in Hg; contradiction |].
    match goal with |- context [if ?c then _ else _] => destruct c end;
      cbn; apply samplerTimer_stopSampler. }
  split; [rewrite Hfin; exact Hr |]. split; [rewrite Hfin; exact Hn |].
  split; [exact (proj1 (no_timer_left _ _ w' H') Hoff) |].
  split; [exact Hto |]. split.
  - intro Hempty. rewrite Hfin.
    rewrite (finalize_begin_empty CachesDirectoryPath now w0 Hs0 Hempty).
    cbn [park]. repeat split; fields; reflexivity.
  - intros Hn' Hr'. rewrite Hfin.
    rewrite (finalize_begin_export CachesDirectoryPath now w0 Hs0 Hn' Hr').
    cbn [park]. split; [fields; reflexivity |]. split; [fields; reflexivity |].
    eexists. split; [fields; reflexivity |]. split; reflexivity.
Qed.

Lemma watchdog_while_recording_witness :
  exists w',
    reachable "/cache" (fun _ => "") after_two_frames_one_tick /\
    status after_two_frames_one_tick = recording /\
    step "/cache" (fun _ => "") (EvInactivity 3%nat "03/11/2026, 10:15:02")
      after_two_frames_one_tick = Some w' /\
    intervals w' = [] /\ timeouts w' = [].
Proof.
  destruct (step "/cache" (fun _ => "") (EvInactivity 3%nat "03/11/2026, 10:15:02")
              after_two_frames_one_tick) as [w' |] eqn:Hstep;
    [| vm_compute in Hstep; discriminate Hstep].
  exists w'. split; [exact reachable_after_two_frames_one_tick |].
  split; [reflexivity |]. split; [reflexivity |].
  destruct (watchdog_while_recording_finalizes _ _ _ w' _ _
              reachable_after_two_frames_one_tick eq_refl Hstep)
    as [_ [_ [Hint [Hto _]]]].
  now split.
Defined.

(* ------------------------------------------------------------------------- *)
(** ** Input that is ignored, input that is defaulted *)
(* ------------------------------------------------------------------------- *)

(** X13.  A call of [onRawFrame] changes nothing at all exactly when its
    argument is falsy ([undefined], [null], [false], [0], the empty
    string); any other
    argument is counted. *)
Theorem frame_ignored_iff_falsy (w : World) (frame : JsVal) :
  onRawFrame frame w = w <-> truthy frame = false.
Proof.
  split; [| apply onRawFrame_falsy].
  intro Heq. destruct (truthy frame) eqn:Ht; [| reflexivity].
  pose proof (framesSeen_onRawFrame frame w Ht) as Hf.
  rewrite Heq in Hf. lia.
Qed.

(** X14.  A truthy argument that is no object (a number, a non-empty string,
    [true], an array) is ingested as the all-default frame: offset 0, type
    "Rx", identifier "00000000", no bytes.  Its trace line has the columns
    [0.000], [Rx], [00000000] and [0]. *)
Theorem non_object_frame_is_all_defaults (frame : JsVal) (i : nat) :
  truthy frame = true ->
  (forall fields, frame <> JObj fields) ->
  let nf := {| timeOffsetMs := Some 0; id := Some (Str "00000000");
               bytes := Some []; type := Some "Rx" |} in
  normalizeRawFrame frame = Some nf /\
  trcLine i nf
  = trc_msgNum i ++ "   0.000  Rx  00000000  0                        ".
Proof.
  intros Ht Hobj nf. split; [| reflexivity].
  unfold normalizeRawFrame. rewrite Ht. cbn [negb].
  destruct frame; try reflexivity. now contradiction (Hobj fields).
Qed.

Lemma non_object_frame_witness :
  truthy (JArr [JNum 1; JNum 2]) = true /\
  (forall fields, JArr [JNum 1; JNum 2] <> JObj fields) /\
  normalizeRawFrame (JArr [JNum 1; JNum 2])
  = Some {| timeOffsetMs := Some 0; id := Some (Str "00000000");
            bytes := Some []; type := Some "Rx" |}.
Proof.
  assert (Hobj : forall fields, JArr [JNum 1; JNum 2] <> JObj fields)
    by (intros fields H; discriminate H).
  split; [reflexivity |]. split; [exact Hobj |].
  exact (proj1 (non_object_frame_is_all_defaults (JArr [JNum 1; JNum 2]) 0
                  eq_refl Hobj)).
Defined.

(* ------------------------------------------------------------------------- *)
(** ** The export's requests *)
(* ------------------------------------------------------------------------- *)

Section FinalizeRequests.

Variable unparse : list Snapshot -> string.
Variable io : ExportStep -> IOResult.
Variable between : ExportStep -> World -> World.

(** A request that succeeds, other than the last: the next one is issued. *)
Lemma settle_mkdir_ok (r : Run) (t : Task) (v : string) :
  progress r = Await t -> waiting t = AwaitMkdir -> io StepMkdir = IOOk v ->
  settle unparse io between r =
  let w1 := between StepMkdir (world r) in
  {| world := request (WriteFile (csv t) (unparse (snapshots w1))) w1;
     progress := Await {| folder := folder t; csv := csv t; trc := trc t;
                          zipOut := zipOut t;
                          waiting := AwaitWriteCsv (generateTRC (rawFrames w1)) |};
     awaited := awaited r ++ [StepMkdir] |}.
Proof.
  intros Hp Hw Hio. unfold settle, finalize_resume. rewrite Hp, Hw.
  cbv zeta. cbn [step_of]. now rewrite Hio.
Qed.

Lemma settle_csv_ok (r : Run) (t : Task) (trcStr v : string) :
  progress r = Await t -> waiting t = AwaitWriteCsv trcStr ->
  io StepWriteCsv = IOOk v ->
  settle unparse io between r =
  {| world := request (WriteFile (trc t) trcStr) (between StepWriteCsv (world r));
     progress := Await {| folder := folder t; csv := csv t; trc := trc t;
                          zipOut := zipOut t; waiting := AwaitWriteTrc |};
     awaited := awaited r ++ [StepWriteCsv] |}.
Proof.
  intros Hp Hw Hio. unfold settle, finalize_resume. rewrite Hp, Hw.
  cbv zeta. cbn [step_of]. now rewrite Hio.
Qed.

Lemma settle_trc_ok (r : Run) (t : Task) (v : string) :
  progress r = Await t -> waiting t = AwaitWriteTrc ->
  io StepWriteTrc = IOOk v ->
  settle unparse io between r =
  {| world := request (Zip (folder t) (zipOut t)) (between StepWriteTrc (world r));
     progress := Await {| folder := folder t; csv := csv t; trc := trc t;
                          zipOut := zipOut t; waiting := AwaitZip |};
     awaited := awaited r ++ [StepWriteTrc] |}.
Proof.
  intros Hp Hw Hio. unfold settle, finalize_resume. rewrite Hp, Hw.
  cbv zeta. cbn [step_of]. now rewrite Hio.
Qed.

End FinalizeRequests.

(** X15.  The requests of an export.  A call of [finalize] that gets past
    its two early returns issues its requests in the order mkdir, write
    [data.csv], write [data.trc], zip, each only after the one before it
    succeeded, and none after a failure (whatever else runs while the call
    is suspended, as long as it issues no request of its own).  Both file
    contents are taken from the buffers at one moment, when the folder has
    been created: the CSV of the snapshots and the trace of the raw frames
    as they are then, frames received during the [mkdir] included. *)
Theorem finalize_issues_requests_in_order
    (CachesDirectoryPath : string) (unparse : list Snapshot -> string)
    (io : ExportStep -> IOResult) (between : ExportStep -> World -> World)
    (now : string) (w : World) :
  (forall s w0, ioLog (between s w0) = ioLog w0) ->
  status w <> finalizing ->
  snapshots w <> [] ->
  rawFrames w <> [] ->
  let r := finalize CachesDirectoryPath unparse io between now w in
  let dir := CachesDirectoryPath ++ "/export_" ++ safe_separators now in
  let w1 := between StepMkdir
              (request (Mkdir dir) (stopSampler (notify (set_status finalizing w)))) in
  let requests :=
    [ Mkdir dir;
      WriteFile (dir ++ "/data.csv") (unparse (snapshots w1));
      WriteFile (dir ++ "/data.trc") (generateTRC (rawFrames w1));
      Zip dir (CachesDirectoryPath ++ "/export_" ++ safe_separators now ++ ".zip") ] in
  let n := List.length (awaited r) in
  (1 <= n)%nat /\
  awaited r = firstn n [StepMkdir; StepWriteCsv; StepWriteTrc; StepZip] /\
  ioLog (world r) = (ioLog w ++ firstn n requests)%list /\
  (forall s, In s (removelast (awaited r)) -> exists v, io s = IOOk v).
Proof.
  intros Hbetween Hs Hn Hr r dir w1 requests n.
  subst n r. unfold finalize.
  rewrite (finalize_begin_export CachesDirectoryPath now w Hs Hn Hr).
  fold dir.
  set (w0 := request (Mkdir dir) (stopSampler (notify (set_status finalizing w)))).
  assert (Hlog0 : ioLog w0 = (ioLog w ++ [Mkdir dir])%list)
    by (unfold w0; fields; reflexivity).
  fold w0 in w1.
  set (t0 := {| folder := dir; csv := dir ++ "/data.csv"; trc := dir ++ "/data.trc";
                zipOut := CachesDirectoryPath ++ "/export_" ++ safe_separators now ++ ".zip";
                waiting := AwaitMkdir |}).
  set (r0 := {| world := w0; progress := Await t0; awaited := [] |}).
  (* mkdir *)
  destruct (io StepMkdir) as [v1 | e1] eqn:H1.
  2:{ rewrite (settle_fail unparse io between r0 t0 e1 eq_refl H1).
      rewrite !(settle_done unparse io between _ (Rejected e1)) by reflexivity.
      cbn. rewrite Hbetween, Hlog0. repeat split; try lia; intros s Hin; now cbn in Hin. }
  rewrite (settle_mkdir_ok unparse io between r0 t0 v1 eq_refl eq_refl H1).
  cbv zeta. cbn [world awaited folder csv trc zipOut t0 r0 app]. fold w1.
  set (t1 := {| folder := dir; csv := dir ++ "/data.csv"; trc := dir ++ "/data.trc";
                zipOut := CachesDirectoryPath ++ "/export_" ++ safe_separators now ++ ".zip";
                waiting := AwaitWriteCsv (generateTRC (rawFrames w1)) |}).
  set (w2 := request (WriteFile (dir ++ "/data.csv") (unparse (snapshots w1))) w1).
  assert (Hlog2 : ioLog w2 =
    (ioLog w ++ [Mkdir dir; WriteFile (dir ++ "/data.csv") (unparse (snapshots w1))])%list).
  { unfold w2, w1. cbn. rewrite Hbetween, Hlog0. now rewrite <- app_assoc. }
  set (r1 := {| world := w2; progress := Await t1; awaited := [StepMkdir] |}).
  (* data.csv *)
  destruct (io StepWriteCsv) as [v2 | e2] eqn:H2.
  2:{ rewrite (settle_fail unparse io between r1 t1 e2 eq_refl H2).
      rewrite !(settle_done unparse io between _ (Rejected e2)) by reflexivity.
      cbn. rewrite Hbetween, Hlog2. repeat split; try lia; intros s Hin; cbn in Hin;
        destruct Hin as [<- | []]; eauto. }
  rewrite (settle_csv_ok unparse io between r1 t1 _ v2 eq_refl eq_refl H2).
  cbn [world awaited folder csv trc zipOut t1 r1 app].
  set (t2 := {| folder := dir; csv := dir ++ "/data.csv"; trc := dir ++ "/data.trc";
                zipOut := CachesDirectoryPath ++ "/export_" ++ safe_separators now ++ ".zip";
                waiting := AwaitWriteTrc |}).
  set (w3 := request (WriteFile (dir ++ "/data.trc") (generateTRC (rawFrames w1)))
               (between StepWriteCsv w2)).
  assert (Hlog3 : ioLog w3 =
    (ioLog w ++ [Mkdir dir; WriteFile (dir ++ "/data.csv") (unparse (snapshots w1));
                 WriteFile (dir ++ "/data.trc") (generateTRC (rawFrames w1))])%list).
  { unfold w3. cbn. rewrite Hbetween, Hlog2. now rewrite <- app_assoc. }
  set (r2 := {| world := w3; progress := Await t2;
                awaited := [StepMkdir; StepWriteCsv] |}).
  (* data.trc *)
  destruct (io StepWriteTrc) as [v3 | e3] eqn:H3.
  2:{ rewrite (settle_fail unparse io between r2 t2 e3 eq_refl H3).
      rewrite !(settle_done unparse io between _ (Rejected e3)) by reflexivity.
      cbn. rewrite Hbetween, Hlog3. repeat split; try lia; intros s Hin; cbn in Hin;
        destruct Hin as [<- | [<- | []]]; eauto. }
  rewrite (settle_trc_ok unparse io between r2 t2 v3 eq_refl eq_refl H3).
  cbn [world awaited folder csv trc zipOut t2 r2 app].
  set (t3 := {| folder := dir; csv := dir ++ "/data.csv"; trc := dir ++ "/data.trc";
                zipOut := CachesDirectoryPath ++ "/export_" ++ safe_separators now ++ ".zip";
                waiting := AwaitZip |}).
  set (w4 := request (Zip dir (CachesDirectoryPath ++ "/export_" ++ safe_separators now ++ ".zip"))
               (between StepWriteTrc w3)).
  assert (Hlog4 : ioLog w4 = (ioLog w ++ requests)%list).
  { unfold w4, requests. cbn. rewrite Hbetween, Hlog3. now rewrite <- app_assoc. }
  set (r3 := {| world := w4; progress := Await t3;
                awaited := [StepMkdir; StepWriteCsv; StepWriteTrc] |}).
  (* the archive *)
  destruct (io StepZip) as [v4 | e4] eqn:H4.
  - rewrite (settle_last unparse io between r3 t3 v4 eq_refl eq_refl H4).
    cbn. rewrite Hbetween, Hlog4. repeat split; try lia; intros s Hin; cbn in Hin;
      destruct Hin as [<- | [<- | [<- | []]]]; eauto.
  - rewrite (settle_fail unparse io between r3 t3 e4 eq_refl H4).
    cbn. rewrite Hbetween, Hlog4. repeat split; try lia; intros s Hin; cbn in Hin;
      destruct Hin as [<- | [<- | [<- | []]]]; eauto.
Qed.

Lemma finalize_issues_requests_witness :
  let w := after_two_frames_one_tick in
  let io := fun s => match s with StepWriteTrc => IOErr "ENOSPC" | _ => IOOk "" end in
  let r := finalize "/cache" (fun _ => "") io (fun _ w0 => w0)
             "03/11/2026, 10:15:02" w in
  (forall (s : ExportStep) (w0 : World), ioLog w0 = ioLog w0) /\
  status w <> finalizing /\ snapshots w <> [] /\ rawFrames w <> [] /\
  awaited r = [StepMkdir; StepWriteCsv; StepWriteTrc] /\
  progress r = Done (Rejected "ENOSPC") /\
  List.length (ioLog (world r)) = 3%nat /\
  (forall s, In s (removelast (awaited r)) -> exists v, io s = IOOk v).
Proof.
  intros w io r.
  assert (H1 : forall (s : ExportStep) (w0 : World), ioLog w0 = ioLog w0)
    by reflexivity.
  assert (H2 : status w <> finalizing) by discriminate.
  assert (H3 : snapshots w <> []) by discriminate.
  assert (H4 : rawFrames w <> []) by discriminate.
  split; [exact H1 |]. split; [exact H2 |]. split; [exact H3 |].
  split; [exact H4 |]. split; [vm_compute; reflexivity |].
  split; [vm_compute; reflexivity |]. split; [vm_compute; reflexivity |].
  exact (proj2 (proj2 (proj2
    (finalize_issues_requests_in_order "/cache" (fun _ => "") io (fun _ w0 => w0)
       "03/11/2026, 10:15:02" w H1 H2 H3 H4)))).
Defined.

(* ------------------------------------------------------------------------- *)
(** ** The export folder's name *)
(* ------------------------------------------------------------------------- *)

(** X16.  The timestamp in the export folder's name is file-system safe: it
    has the length of the localized date it comes from and contains no
    slash, colon, comma or space, and a date without these characters is
    left as it is.  So the folder is a direct child of the caches
    directory. *)
Theorem export_stamp_has_no_separator (now : string) :
  String.length (safe_separators now) = String.length now /\
  all_chars (fun c => negb (is_separator c)) (safe_separators now) = true /\
  (all_chars (fun c => negb (is_separator c)) now = true ->
   safe_separators now = now).
Proof.
  induction now as [| c s [IH1 [IH2 IH3]]]; [now repeat split |].
  cbn [safe_separators String.length all_chars].
  split; [now rewrite IH1 |].
  assert (Hc : negb (is_separator (safe_char c)) = true /\
               (negb (is_separator c) = true -> safe_char c = c)).
  { unfold safe_char. fold (is_separator c).
    destruct (is_separator c) eqn:Hsep; [split; [reflexivity | discriminate] |].
    rewrite Hsep. now split. }
  destruct Hc as [Hc1 Hc2]. split; [now rewrite Hc1, IH2 |].
  intro H. apply andb_prop in H. destruct H as [Hc Hs].
  now rewrite (Hc2 Hc), (IH3 Hs).
Qed.

(* ------------------------------------------------------------------------- *)
(** ** Width of a trace line *)
(* ------------------------------------------------------------------------- *)

Lemma length_padEnd (n : nat) (c : ascii) (s : string) :
  String.length (padEnd n c s) = Nat.max n (String.length s).
Proof. destruct (padEnd_right_padded n c s) as [k [_ H]]. exact H. Qed.

Lemma length_trcLine (i : nat) (f : RawFrame) :
  String.length (trcLine i f) =
  (String.length (trc_msgNum i) + String.length (trc_timestamp f) + 1
   + String.length (trc_frameType f) + 2 + String.length (trc_canId f) + 1
   + String.length (trc_dlc f) + 1 + String.length (trc_data f))%nat.
Proof.
  unfold trcLine. rewrite !length_append. cbn [String.length]. lia.
Qed.

Lemma dec_widths_checked :
  forallb (dec_width_ok 4) (seq 0 (Z.to_nat 10000)) = true.
Proof. vm_compute. reflexivity. Qed.

Lemma dec_width (n : N) : (n < 10000)%N -> (String.length (dec_of_N n) <= 4)%nat.
Proof.
  intro Hn.
  assert (Hin : In (N.to_nat n) (seq 0 (Z.to_nat 10000))) by (apply in_seq; lia).
  pose proof (proj1 (forallb_forall _ _) dec_widths_checked _ Hin) as Hok.
  unfold dec_width_ok in Hok. rewrite N2Nat.id in Hok. now apply Nat.leb_le.
Qed.

Lemma length_join_pairs (bs : list string) :
  Forall (fun s => String.length s = 2%nat) bs ->
  String.length (join " " bs) = (3 * List.length bs - 1)%nat.
Proof.
  induction 1 as [| s l Hs Hl IH]; [reflexivity |].
  destruct l as [| s' l]; [cbn; exact Hs |].
  change (join " " (s :: s' :: l)) with (s ++ " " ++ join " " (s' :: l)).
  rewrite !length_append, IH, Hs. cbn [String.length List.length]. lia.
Qed.

(** X17.  Fixed-width trace lines.  A data line is never narrower than its
    columns, 54 characters in all.  For a frame as a CAN bus delivers it (at
    most 8 bytes, an identifier of at most 8 ASCII characters, a type of at
    most 3, an offset of a whole number of milliseconds below 10,000 s)
    among the first 9,999 of the trace, it is exactly 54 characters wide,
    so the columns line up. *)
Theorem trace_line_width (i : nat) (f : RawFrame) :
  (54 <= String.length (trcLine i f))%nat /\
  (fits_columns f -> Z.of_nat i < 9999 -> String.length (trcLine i f) = 54%nat).
Proof.
  rewrite length_trcLine.
  unfold trc_msgNum, trc_timestamp, trc_frameType, trc_canId, trc_dlc, trc_data.
  rewrite !length_padStart, !length_padEnd. split; [lia |].
  intros [ms [ty [ident [bs [Hms [Hty [Hid [Hbs [Hrange [Hlt [Hli [Hascii [Hlb Hpairs]]]]]]]]]]]]] Hi.
  rewrite Hms, Hty, Hid, Hbs.
  assert (H1 : (String.length (dec_of_N (N.of_nat i + 1) ++ ")") <= 5)%nat).
  { rewrite length_append. cbn [String.length].
    pose proof (dec_width (N.of_nat i + 1)). lia. }
  assert (H2 : (String.length (div1000_toFixed3 ms) <= 8)%nat).
  { unfold div1000_toFixed3, sign_prefix.
    assert (Hneg : (ms <? 0) = false) by (apply Z.ltb_ge; lia).
    rewrite Hneg.
    change ("" ++ dec_of_N (Z.abs_N ms / 1000) ++ "."
            ++ padStart 3 "0" (dec_of_N (Z.abs_N ms mod 1000)))
      with (dec_of_N (Z.abs_N ms / 1000)
            ++ String "." (padStart 3 "0" (dec_of_N (Z.abs_N ms mod 1000)))).
    rewrite length_append. cbn [String.length].
    assert (Hq : (Z.abs_N ms / 1000 < 10000)%N).
    { apply N.Div0.div_lt_upper_bound. lia. }
    pose proof (dec_width (Z.abs_N ms / 1000) Hq) as Hw.
    destruct (thousandths (Z.abs_N ms mod 1000)) as [Hlen _];
      [apply N.mod_lt; discriminate |].
    rewrite Hlen. lia. }
  assert (H3 : (String.length (if String.eqb ty "" then "Rx" else ty) <= 3)%nat).
  { destruct (String.eqb ty ""); [cbn; lia | exact Hlt]. }
  assert (H4 : (String.length (toUpperCase ident) <= 8)%nat)
    by now rewrite length_toUpperCase.
  assert (H5 : (String.length (dec_of_N (N.of_nat (List.length (map Str bs)))) <= 2)%nat).
  { rewrite length_map.
    destruct bs as [| ? [| ? [| ? [| ? [| ? [| ? [| ? [| ? [| ? ?]]]]]]]]];
      cbn in Hlb |- *; lia. }
  assert (H6 : (String.length (join " " (map toStr (map Str bs))) <= 23)%nat).
  { rewrite map_map. cbn [toStr]. rewrite map_id.
    rewrite (length_join_pairs bs Hpairs). lia. }
  lia.
Qed.

Lemma trace_line_width_witness :
  let nf := {| timeOffsetMs := Some 40; id := Some (Str "1a");
               bytes := Some (map Str ["0A"; "FF"]); type := Some "Rx" |} in
  fits_columns nf /\ Z.of_nat 1 < 9999 /\
  String.length (trcLine 1 nf) = 54%nat.
Proof.
  intro nf.
  assert (Hfit : fits_columns nf).
  { exists 40, "Rx", "1a", ["0A"; "FF"]. cbn.
    repeat split; try lia; try reflexivity. repeat constructor. }
  split; [exact Hfit |]. split; [reflexivity |].
  exact (proj2 (trace_line_width 1 nf) Hfit eq_refl).
Defined.

(* ------------------------------------------------------------------------- *)
(** ** Numeric identifiers in hexadecimal *)
(* ------------------------------------------------------------------------- *)

(** X18.  Integer identifiers round-trip through the trace.  A frame whose
    [id] is a non-negative integer is written with an identifier column of
    upper-case hexadecimal digits that reads back as that number; below
    2^32 the column is exactly 8 digits wide.  For a negative integer the
    column is the minus sign followed by the hexadecimal digits of the
    magnitude, filled with zeros on the left up to width 8 (the fill stands
    in front of the sign), so the column is no hexadecimal number. *)
Theorem numeric_id_reads_back (frame : JsVal) (nf : RawFrame) (z : Z) :
  normalizeRawFrame frame = Some nf ->
  get frame "id" = JNum z ->
  (0 <= z ->
   hex_value (trc_canId nf) = Some (Z.to_N z) /\
   all_chars is_upper_hex (trc_canId nf) = true /\
   (z < 2 ^ 32 -> String.length (trc_canId nf) = 8%nat)) /\
  (z < 0 ->
   hex_value (trc_canId nf) = None /\
   exists h,
     hex_text (Z.abs_N z) h /\
     left_padded 8 "0" (String "-" h) (trc_canId nf)).
Proof.
  intros Hnf Hid. unfold normalizeRawFrame in Hnf.
  destruct (negb (truthy frame)); [discriminate |].
  injection Hnf as <-. unfold trc_canId. cbn [id]. rewrite Hid.
  unfold toString16, sign_prefix. split.
  - intro Hz. assert (Hneg : (z <? 0) = false) by (apply Z.ltb_ge; lia).
    rewrite Hneg. cbn [append].
    assert (Habs : Z.abs_N z = Z.to_N z) by lia. rewrite Habs.
    destruct (hex_of_N_reads_back (Z.to_N z)) as [_ [Hu Hv]].
    assert (Hup : toUpperCase (toUpperCase (hex_of_N (Z.to_N z)))
                  = toUpperCase (hex_of_N (Z.to_N z)))
      by exact (toUpperCase_upper_hex _ Hu).
    rewrite Hup.
    assert (Hne : toUpperCase (hex_of_N (Z.to_N z)) <> "").
    { intro E. rewrite E in Hv. cbn in Hv.
      destruct (hex_of_N_reads_back (Z.to_N z)) as [Hv' _].
      rewrite E in Hv'. discriminate Hv'. }
    split; [exact (hex_value_padStart 8 _ _ Hv Hne) |]. split.
    + unfold padStart. rewrite all_chars_append, Hu, all_chars_replicate;
        reflexivity.
    + intro Hlt. rewrite length_padStart.
      pose proof (hex_width (Z.to_N z)) as Hw.
      assert (Hn : (Z.to_N z < 2 ^ 32)%N).
      { change (2 ^ 32)%N with (Z.to_N (2 ^ 32)). lia. }
      specialize (Hw Hn). lia.
  - intro Hz. assert (Hneg : (z <? 0) = true) by (apply Z.ltb_lt; lia).
    rewrite Hneg.
    change (toUpperCase (toUpperCase ("-" ++ hex_of_N (Z.abs_N z))))
      with (String "-" (toUpperCase (toUpperCase (hex_of_N (Z.abs_N z))))).
    destruct (hex_of_N_reads_back (Z.abs_N z)) as [_ [Hu _]].
    rewrite (toUpperCase_upper_hex _ Hu). split.
    + unfold padStart, hex_value.
      destruct (replicate _ "0" ++ _) eqn:Hp; [reflexivity |].
      rewrite <- Hp. apply hex_value_from_minus.
    + exists (toUpperCase (hex_of_N (Z.abs_N z))).
      split; [apply hex_text_of_N | apply padStart_left_padded].
Qed.

Lemma numeric_id_witness :
  exists nf,
    normalizeRawFrame frame_a = Some nf /\
    get frame_a "id" = JNum 291 /\
    trc_canId nf = "00000123" /\
    hex_value (trc_canId nf) = Some (Z.to_N 291) /\
    all_chars is_upper_hex (trc_canId nf) = true /\
    String.length (trc_canId nf) = 8%nat.
Proof.
  destruct (normalizeRawFrame frame_a) as [nf |] eqn:Hnf; [| discriminate Hnf].
  exists nf. split; [reflexivity |]. split; [reflexivity |].
  split; [injection Hnf as <-; reflexivity |].
  destruct (proj1 (numeric_id_reads_back frame_a nf 291 Hnf eq_refl))
    as [Hv [Hu Hl]]; [lia |].
  split; [exact Hv |]. split; [exact Hu |]. apply Hl. lia.
Defined.

(* ------------------------------------------------------------------------- *)
(** ** The status machine as a whole *)
(* ------------------------------------------------------------------------- *)

Section StatusMachine.

Variable CachesDirectoryPath : string.
Variable unparse : list Snapshot -> string.

Lemma status_finalize_begin (now : string) (w : World) :
  let s' := status (park (finalize_begin CachesDirectoryPath now w)) in
  (status w = finalizing /\ s' = finalizing) \/
  (status w <> finalizing /\ (s' = idle \/ s' = finalizing)).
Proof.
  cbv zeta. unfold finalize_begin.
  destruct (status_eqb (status w) finalizing) eqn:Hg.
  - apply status_eqb_eq in Hg. left. now split.
  - right. split; [intro H; apply status_eqb_eq in H; congruence |].
    match goal with |- context [if ?c then _ else _] => destruct c end;
      cbn [park]; [left | right]; fields; reflexivity.
Qed.

Lemma status_finalize_resume (t : Task) (r : IOResult) (w : World) :
  let s' := status (park (finalize_resume unparse t r w)) in
  s' = status w \/ s' = ready \/ s' = error.
Proof.
  cbv zeta. unfold finalize_resume.
  destruct r as [v | e]; [destruct (waiting t) |]; cbn; auto.
Qed.

(** X19.  The whole status machine.  A turn of the event loop leaves the
    status where it is or makes one of these moves: a frame takes [idle] to
    [arming] and [arming] to [recording]; [finalize()] takes any status but
    [finalizing] to [finalizing] or [idle]; [reset()] leads to [idle]; the
    inactivity timeout takes [recording] to [finalizing] or [idle] and
    [arming] to [idle]; the settlement of an export's request leads to
    [ready] or [error].  In particular [ready] and [error] are left only by
    [reset()], by [finalize()] or by another export settling, and
    decoded-signal updates, subscriptions and sampler ticks never move the
    status. *)
Theorem status_moves_only_as_tabled (e : Event) (w w' : World) :
  step CachesDirectoryPath unparse e w = Some w' ->
  status w' = status w \/ moves e (status w) (status w') = true.
Proof.
  intro Hstep. destruct e; cbn [step] in Hstep.
  - injection Hstep as <-. left. unfold subscribe.
    now destruct (mem_id fn (listeners w)).
  - injection Hstep as <-. now left.
  - injection Hstep as <-. now left.
  - injection Hstep as <-.
    destruct (truthy frame) eqn:Ht;
      [| left; now rewrite (onRawFrame_falsy frame w Ht)].
    rewrite (status_onRawFrame frame w Ht).
    destruct (status w); try (now left); [now right |].
    destruct (2 <=? framesSeen w + 1); [now right | now left].
  - injection Hstep as <-.
    destruct (status_finalize_begin now w) as [[Hs Hs'] | [Hs [Hs' | Hs']]];
      cbv zeta in *; rewrite Hs'.
    + left. now rewrite Hs.
    + right. destruct (status w); try reflexivity. now contradiction Hs.
    + right. destruct (status w); try reflexivity. now contradiction Hs.
  - injection Hstep as <-. right.
    destruct (reset_fields w) as [Hs _]. rewrite Hs. now destruct (status w).
  - destruct (mem_id h (intervals w)); [| discriminate].
    injection Hstep as <-. left. apply status_samplerTick.
  - destruct (mem_id h (timeouts w)); [| discriminate].
    injection Hstep as <-. unfold watchdog.
    change (status (clearTimeout h w)) with (status w).
    destruct (status w) eqn:Hs; cbn [status_eqb]; try (left; exact Hs).
    + right. destruct (reset_fields (clearTimeout h w)) as [Hr _]. now rewrite Hr.
    + destruct (status_finalize_begin now (clearTimeout h w))
        as [[Hf _] | [_ [Hs' | Hs']]]; cbv zeta in *;
        [cbn in Hf; congruence | right; now rewrite Hs' ..].
  - destruct (nth_error (tasks w) k) as [t |]; [| discriminate].
    injection Hstep as <-.
    destruct (status_finalize_resume t r (set_tasks (remove_nth k (tasks w)) w))
      as [Hs' | [Hs' | Hs']]; cbv zeta in *; rewrite Hs'.
    + now left.
    + right. now destruct (status w).
    + right. now destruct (status w).
Qed.

End StatusMachine.

Lemma status_moves_witness :
  step "/cache" (fun _ => "") (EvRawFrame frame_a) init
  = Some (onRawFrame frame_a init) /\
  moves (EvRawFrame frame_a) (status init) (status (onRawFrame frame_a init)) = true /\
  (status (onRawFrame frame_a init) = status init \/
   moves (EvRawFrame frame_a) (status init) (status (onRawFrame frame_a init)) = true).
Proof.
  split; [reflexivity |]. split; [reflexivity |].
  exact (status_moves_only_as_tabled "/cache" (fun _ => "")
           (EvRawFrame frame_a) init _ eq_refl).
Defined.

(* ------------------------------------------------------------------------- *)
(** ** Frames and the timers *)
(* ------------------------------------------------------------------------- *)

Lemma timers_armInactivityTimeout (w : World) :
  TimerInv w ->
  exists h,
    timeouts (armInactivityTimeout w) = [h] /\
    inactivityTimer (armInactivityTimeout w) = Some h /\
    intervals (armInactivityTimeout w) = intervals w /\
    samplerTimer (armInactivityTimeout w) = samplerTimer w.
Proof.
  intro T. destruct (TimerInv_armInactivityTimeout w T) as [_ T2].
  assert (Hset : exists h, inactivityTimer (armInactivityTimeout w) = Some h).
  { unfold armInactivityTimeout, setTimeout.
    destruct (inactivityTimer w); eexists; reflexivity. }
  destruct Hset as [h Hh]. exists h.
  assert (Hne : timeouts (armInactivityTimeout w) <> []).
  { unfold armInactivityTimeout, setTimeout.
    destruct (inactivityTimer w); cbn; intro H; now apply app_eq_nil in H. }
  split; [| split; [exact Hh | split]].
  - destruct T2 as [T2 | [h' [Hh' T2]]]; [contradiction |]. congruence.
  - unfold armInactivityTimeout, setTimeout, clearTimeout.
    now destruct (inactivityTimer w).
  - apply samplerTimer_armInactivityTimeout.
Qed.

Lemma timers_startSampler (w : World) :
  TimerInv w ->
  exists h,
    samplerTimer (startSampler w) = Some h /\ intervals (startSampler w) = [h] /\
    timeouts (startSampler w) = timeouts w /\
    inactivityTimer (startSampler w) = inactivityTimer w.
Proof.
  intros [T1 T2]. unfold startSampler.
  destruct (samplerTimer w) as [h |] eqn:Hs.
  - exists h. rewrite Hs, T1. now repeat split.
  - eexists. cbn. rewrite T1. repeat split.
Qed.

(** X20.  Frames and the timers.  In a reachable state a truthy frame received
    while [idle], [arming] or [recording] leaves exactly one inactivity
    timeout pending, the one [inactivityTimer] names, and while [idle] or
    [arming] it also leaves the sampler running.  Received while
    [finalizing], [ready] or [error] it touches neither timer: the frame is
    buffered without a watchdog to end the stream. *)
Theorem frame_arms_the_timers
    (CachesDirectoryPath : string) (unparse : list Snapshot -> string)
    (w : World) (frame : JsVal) :
  reachable CachesDirectoryPath unparse w ->
  truthy frame = true ->
  let w' := onRawFrame frame w in
  (status w = idle \/ status w = arming \/ status w = recording ->
   exists h, timeouts w' = [h] /\ inactivityTimer w' = Some h) /\
  (status w = idle \/ status w = arming ->
   exists h, intervals w' = [h] /\ samplerTimer w' = Some h) /\
  (status w = finalizing \/ status w = ready \/ status w = error ->
   timeouts w' = timeouts w /\ intervals w' = intervals w /\
   inactivityTimer w' = inactivityTimer w /\ samplerTimer w' = samplerTimer w).
Proof.
  intros H Ht w'. subst w'.
  destruct (normalizeRawFrame_truthy frame Ht) as [nf Hnf].
  pose proof (TimerInv_reachable _ _ w H) as T.
  pose proof (Inv_reachable _ _ w H) as I.
  rewrite (onRawFrame_unfold frame nf w Hnf). cbv zeta.
  set (w1 := set_framesSeen (framesSeen w + 1)
               (if Z.of_nat (List.length (rawFrames w)) <? MAX_RAW_FRAMES
                then set_rawFrames (rawFrames w ++ [nf]) w else w)).
  assert (T1 : TimerInv w1).
  { unfold w1.
    destruct (Z.of_nat (List.length (rawFrames w)) <? MAX_RAW_FRAMES); timers. }
  assert (Hsame : timeouts w1 = timeouts w /\ intervals w1 = intervals w /\
                  inactivityTimer w1 = inactivityTimer w /\
                  samplerTimer w1 = samplerTimer w).
  { unfold w1.
    destruct (Z.of_nat (List.length (rawFrames w)) <? MAX_RAW_FRAMES);
      now repeat split. }
  clearbody w1.
  destruct (timers_startSampler w1 T1) as [hs [Hs1 [Hs2 _]]].
  destruct (timers_armInactivityTimeout (startSampler w1)
              (TimerInv_startSampler w1 T1)) as [h [Ha1 [Ha2 [Ha3 Ha4]]]].
  destruct (timers_armInactivityTimeout w1 T1) as [h' [Hb1 [Hb2 _]]].
  destruct (status w) eqn:Hst.
  - (* idle *)
    split; [| split].
    + intros _. exists h. now split.
    + intros _. exists hs. cbn. now rewrite Ha3, Ha4.
    + intros [Hc | [Hc | Hc]]; discriminate Hc.
  - (* arming *)
    pose proof (inv_arming w I Hst) as Hseen.
    assert (Hle : (2 <=? framesSeen w + 1) = true) by (apply Z.leb_le; lia).
    rewrite Hle. split; [| split].
    + intros _. exists h. now split.
    + intros _. exists hs. cbn. now rewrite Ha3, Ha4.
    + intros [Hc | [Hc | Hc]]; discriminate Hc.
  - (* recording *)
    split; [| split].
    + intros _. exists h'. now split.
    + intros [Hc | Hc]; discriminate Hc.
    + intros [Hc | [Hc | Hc]]; discriminate Hc.
  - split; [| split]; [intros [Hc | [Hc | Hc]]; discriminate Hc
                       | intros [Hc | Hc]; discriminate Hc | intros _; exact Hsame].
  - split; [| split]; [intros [Hc | [Hc | Hc]]; discriminate Hc
                       | intros [Hc | Hc]; discriminate Hc | intros _; exact Hsame].
  - split; [| split]; [intros [Hc | [Hc | Hc]]; discriminate Hc
                       | intros [Hc | Hc]; discriminate Hc | intros _; exact Hsame].
Qed.

Lemma frame_arms_the_timers_witness :
  let w' := onRawFrame frame_b after_full_export in
  reachable "/cache" (fun _ => "") after_full_export /\
  truthy frame_b = true /\
  status after_full_export = ready /\
  timeouts w' = timeouts after_full_export /\
  intervals w' = intervals after_full_export.
Proof.
  intro w'. split; [exact reachable_after_full_export |].
  split; [reflexivity |]. split; [reflexivity |].
  destruct (frame_arms_the_timers "/cache" (fun _ => "") after_full_export frame_b
              reachable_after_full_export eq_refl) as [_ [_ Hrest]].
  destruct (Hrest (or_intror (or_introl eq_refl))) as [H1 [H2 _]].
  now split.
Defined.

(* ------------------------------------------------------------------------- *)
(** ** Decoded signals *)
(* ------------------------------------------------------------------------- *)

(** X21.  [updateDecoded] never leaves the recorder without a signal state:
    in every reachable state [latestDecoded] is truthy (a falsy argument is
    replaced by the empty object), and an update changes nothing a listener
    can read, invokes no listener and touches neither buffers nor timers. *)
Theorem decoded_state_is_never_falsy
    (CachesDirectoryPath : string) (unparse : list Snapshot -> string)
    (w : World) (decoded : JsVal) :
  reachable CachesDirectoryPath unparse w ->
  let w' := updateDecoded decoded w in
  truthy (latestDecoded w) = true /\
  truthy (latestDecoded w') = true /\
  (truthy decoded = true -> latestDecoded w' = decoded) /\
  (truthy decoded = false -> latestDecoded w' = JObj []) /\
  observe w' = observe w /\ calls w' = calls w /\
  rawFrames w' = rawFrames w /\ snapshots w' = snapshots w /\
  framesSeen w' = framesSeen w /\
  intervals w' = intervals w /\ timeouts w' = timeouts w.
Proof.
  intros H w'.
  pose proof (bk_decoded _ w (Bookkeeping_reachable _ _ w H)) as Hd.
  assert (H' : reachable CachesDirectoryPath unparse w')
    by exact (reachable_step _ _ w w' (EvUpdateDecoded decoded) H eq_refl).
  pose proof (bk_decoded _ w' (Bookkeeping_reachable _ _ w' H')) as Hd'.
  split; [exact Hd |]. split; [exact Hd' |].
  unfold w', updateDecoded. cbn.
  destruct (truthy decoded); repeat split; try reflexivity; discriminate.
Qed.

Lemma decoded_state_witness :
  reachable "/cache" (fun _ => "") after_two_frames_one_tick /\
  latestDecoded (updateDecoded JNull after_two_frames_one_tick) = JObj [].
Proof.
  split; [exact reachable_after_two_frames_one_tick |].
  destruct (decoded_state_is_never_falsy "/cache" (fun _ => "")
              after_two_frames_one_tick JNull reachable_after_two_frames_one_tick)
    as [_ [_ [_ [Hnull _]]]].
  exact (Hnull eq_refl).
Defined.

(* ------------------------------------------------------------------------- *)
(** ** Numeric bytes *)
(* ------------------------------------------------------------------------- *)

(** X22.  An integer byte is never truncated.  Whatever non-negative
    integer an entry of [bytes] is, its normal form is a string of
    upper-case hexadecimal digits, at least two, that reads back as that
    number: its digits in full, with one zero in front of a single digit
    (10 gives "0A" and 256 gives "100").  A negative integer becomes a
    minus sign followed by the digits of its magnitude and is no
    hexadecimal number. *)
Theorem numeric_byte_reads_back (z : Z) :
  exists s,
    normalizeByte (JNum z) = Str s /\
    (2 <= String.length s)%nat /\
    (0 <= z ->
     hex_value s = Some (Z.to_N z) /\ all_chars is_upper_hex s = true /\
     exists h, hex_text (Z.to_N z) h /\ left_padded 2 "0" h s) /\
    (z < 0 ->
     hex_value s = None /\
     exists h, hex_text (Z.abs_N z) h /\ s = String "-" h).
Proof.
  destruct (normalizeByte_normal_form (JNum z)) as [s [Hs Hform]].
  exists s. split; [exact Hs |].
  unfold normalizeByte in Hs. injection Hs as Hs.
  cbn [entry_normal_form] in Hform.
  split; [rewrite <- Hs, length_padStart; lia |]. split.
  - intro Hz. assert (Hle : (0 <=? z) = true) by (apply Z.leb_le; lia).
    rewrite Hle in Hform. split; [| split; [| exact Hform]].
    + rewrite <- Hs. unfold toString16, sign_prefix.
      assert (Hneg : (z <? 0) = false) by (apply Z.ltb_ge; lia).
      rewrite Hneg. cbn [append].
      assert (Habs : Z.abs_N z = Z.to_N z) by lia. rewrite Habs.
      destruct (hex_of_N_reads_back (Z.to_N z)) as [Hv' [_ Hv]].
      apply hex_value_padStart; [exact Hv |].
      intro E. rewrite E in Hv'. discriminate Hv'.
    + rewrite <- Hs. unfold toString16, sign_prefix.
      assert (Hneg : (z <? 0) = false) by (apply Z.ltb_ge; lia).
      rewrite Hneg. cbn [append].
      destruct (hex_of_N_reads_back (Z.abs_N z)) as [_ [Hu _]].
      unfold padStart. rewrite all_chars_append, Hu, all_chars_replicate;
        reflexivity.
  - intro Hz. assert (Hle : (0 <=? z) = false) by (apply Z.leb_gt; lia).
    rewrite Hle in Hform. split; [| exact Hform].
    destruct Hform as [h [_ ->]]. reflexivity.
Qed.
